(** * LOREM: the stabilised local-explanation pipeline of [lore_sa/lorem.py]

    A shallow embedding of [LOREM.__calculate_weights__],
    [LOREM.explain_instance_stable], the two exemplar selectors and the batch
    dispatcher [LOREM.explain_set_instances_stable], followed by the
    properties the specification states about them.

    Conventions of the embedding.
    - Feature values are exact rationals ([Q]).  Distances, kernel weights
      and fidelity scores are floating-point values ([npfloat R]): a real
      number when finite, because the kernel is [sqrt (exp _)], or one of
      [nan] and the infinities, which numpy returns where it divides by
      zero.  Rounding, overflow and underflow are not modelled.  The input
      matrices are finite, so [np.nan_to_num] is the identity on them.
    - A Python exception is a value of [exn]; code that can raise lives in
      the monad [M], which also logs every call of
      [Surrogate.learn_local_decision_tree].
    - A Python local that is assigned on some paths only ([y], [Z], [Yb]) is
      an [option]; reading it while [None] raises [UnboundLocalError].
    - The black box, the neighbourhood generator, the surrogate, the
      encoder and the discretizer are collaborators that live in other
      modules; they are the fields of [Collaborators].  A classifier labels
      a batch row by row.
    - [explain_instance_stable] is embedded for [single=False], its default
      and the only value [explain_workers_stable] passes.  [n_jobs] only
      sizes the thread pool of the per-run fits, which are logged in run
      order; [verbose] only prints. *)

From Stdlib Require Import String.
From Stdlib Require Import List Bool Arith ZArith QArith Qminmax Reals Qreals.
From Stdlib Require Import Lia Lra Psatz Permutation Sorted.
From Stdlib Require Import DecimalNat DecimalString.
Import ListNotations.

Set Implicit Arguments.

(** ** Data *)

Definition label := Z.
Definition record := list Q.
Definition matrix := list record.
Definition leaf := Z.

(** ** Floating-point values

    numpy computes in IEEE doubles, where a division by zero does not raise:
    [0/0] is [nan] and [x/0] is an infinity with the sign of [x].  A finite
    value is an exact number, [Q] for data and [R] for distances, weights
    and scores. *)
Inductive npfloat (A : Type) : Type :=
| Fin (a : A)
| Inf (negative : bool)
| NaN.
Arguments Inf {A} negative.
Arguments NaN {A}.

Definition frecord := list (npfloat Q).
Definition fmatrix := list frecord.

(** A finite matrix as an array of floats. *)
Definition as_floats (Z : matrix) : fmatrix := map (map (@Fin Q)) Z.

(** The values of an array of floats when all of them are finite. *)
Fixpoint finite_values {A} (l : list (npfloat A)) : option (list A) :=
  match l with
  | [] => Some []
  | Fin a :: l' => option_map (cons a) (finite_values l')
  | _ :: _ => None
  end.

(** [a / b] on finite operands; [b] is a difference of equal values when it
    is zero, hence [+0.0]. *)
Definition np_divide (a b : Q) : npfloat Q :=
  if Qeq_bool b 0 then
    if Qeq_bool a 0 then NaN else Inf (negb (Qle_bool 0 a))
  else Fin (a / b).

(** ** Exceptions and the pipeline monad *)

Inductive exn : Type :=
| NotImplemented                     (* [raise Exception] under multi_label *)
| UnboundLocalError (var : string)
| ValueError (msg : string)
| IndexError
| ZeroDivisionError
| SurrogateMismatch.                 (* 'The prediction of the surrogate model
                                        is different wrt the black box' *)

Inductive result (A : Type) : Type :=
| Ok (a : A)
| Err (e : exn).
Arguments Ok {A} a.
Arguments Err {A} e.

(** One logged call of [learn_local_decision_tree(Z, Yb, weights, ...)]. *)
Record fit_call : Type := FitCall {
  fit_data : matrix;
  fit_labels : list label;
  fit_weights : option (list (npfloat R));
  fit_prune : option bool
}.

Definition M (A : Type) : Type := list fit_call -> list fit_call * result A.

Definition ret {A} (a : A) : M A := fun log => (log, Ok a).
Definition raise {A} (e : exn) : M A := fun log => (log, Err e).
Definition bind {A B} (m : M A) (k : A -> M B) : M B :=
  fun log =>
    match m log with
    | (log', Ok a) => k a log'
    | (log', Err e) => (log', Err e)
    end.
Definition tell (c : fit_call) : M unit := fun log => (log ++ [c], Ok tt).
Definition lift {A} (r : result A) : M A := fun log => (log, r).
Definition run {A} (m : M A) : list fit_call * result A := m [].

Declare Scope lorem_scope.
Delimit Scope lorem_scope with lorem.
Notation "x <- c1 ;; c2" := (bind c1 (fun x => c2))
  (at level 61, c1 at next level, right associativity) : lorem_scope.
Notation "' p <- c1 ;; c2" := (bind c1 (fun p => c2))
  (at level 61, p pattern, c1 at next level, right associativity) : lorem_scope.
Notation "c1 ;;; c2" := (bind c1 (fun _ => c2))
  (at level 61, right associativity) : lorem_scope.

(** [for a in l: body] inside [M], threading the loop's effects. *)
Fixpoint mapM {A B} (f : A -> M B) (l : list A) : M (list B) :=
  match l with
  | [] => ret []
  | a :: l' => (b <- f a ;; bs <- mapM f l' ;; ret (b :: bs))%lorem
  end.

(** Reading a local variable. *)
Definition read {A} (var : string) (v : option A) : M A :=
  match v with
  | Some a => ret a
  | None => raise (UnboundLocalError var)
  end.

(** The value a [for v in l] loop leaves in [v]: the last element, or the
    previous binding when the loop body never ran. *)
Definition loop_var {A} (old : option A) (l : list A) : option A :=
  match rev l with
  | [] => old
  | a :: _ => Some a
  end.

(** ** numpy helpers *)

(** [np.max] / [np.min] over all entries; a zero-size array raises. *)
Definition np_max (Z : matrix) : result Q :=
  match concat Z with
  | [] => Err (ValueError "zero-size array to reduction operation maximum")
  | v :: vs => Ok (fold_left Qmax vs v)
  end.

Definition np_min (Z : matrix) : result Q :=
  match concat Z with
  | [] => Err (ValueError "zero-size array to reduction operation minimum")
  | v :: vs => Ok (fold_left Qmin vs v)
  end.

(** [np.concatenate(list)]: raises on an empty list. *)
Definition np_concatenate {A} (l : list (list A)) : result (list A) :=
  match l with
  | [] => Err (ValueError "need at least one array to concatenate")
  | _ => Ok (concat l)
  end.

(** [np.concatenate(weights_list)] where an entry may be [None]: a [None]
    is a zero-dimensional object array and cannot be concatenated. *)
Fixpoint all_some {A} (l : list (option A)) : option (list A) :=
  match l with
  | [] => Some []
  | None :: _ => None
  | Some a :: l' => option_map (cons a) (all_some l')
  end.

Definition np_concatenate_opt {A} (l : list (option (list A))) : result (list A) :=
  match l with
  | [] => Err (ValueError "need at least one array to concatenate")
  | _ => match all_some l with
         | Some ls => Ok (concat ls)
         | None => Err (ValueError "zero-dimensional arrays cannot be concatenated")
         end
  end.

(** [a[0]] *)
Definition first {A} (l : list A) : result A :=
  match l with
  | [] => Err IndexError
  | a :: _ => Ok a
  end.

(** [np.unique(Yb).shape[0]] *)
Definition n_unique (Yb : list label) : nat := List.length (nodup Z.eq_dec Yb).

(** ** The locality weighting kernel *)

Open Scope R_scope.

(** [default_kernel(d, kernel_width)], [np.sqrt(np.exp(-(d ** 2) /
    kernel_width ** 2))], on one distance.  With a zero width the quotient
    is [-0.0/0.0 = nan] at distance 0 and [-inf] elsewhere; an infinite
    distance gives [-inf] as well, [exp(-inf)] is 0, and [nan] stays [nan]. *)
Definition default_kernel (d : npfloat R) (kernel_width : R) : npfloat R :=
  match d with
  | NaN => NaN
  | Inf _ => Fin 0
  | Fin d =>
      if Req_dec_T kernel_width 0 then
        if Req_dec_T d 0 then NaN else Fin 0
      else Fin (sqrt (exp (- (d ^ 2) / kernel_width ^ 2)))
  end.

(** The two kernel lines of [LOREM.__init__]. *)
Definition init_kernel_width (feature_names : list string) (kernel_width : option R) : R :=
  match kernel_width with
  | None => sqrt (INR (List.length feature_names)) * (3 / 4)
  | Some w => w
  end.

Definition init_kernel (feature_names : list string) (kernel_width : option R)
    (kernel : option (npfloat R -> R -> npfloat R)) : npfloat R -> npfloat R :=
  let kw := init_kernel_width feature_names kernel_width in
  let k := match kernel with None => default_kernel | Some k => k end in
  fun d => k d kw.

Close Scope R_scope.

(** Min-max scaling of every entry, [(Z - np.min(Z)) / (np.max(Z) - np.min(Z))]. *)
Definition minmax_scale (mn mx : Q) (Z : matrix) : fmatrix :=
  map (map (fun v => np_divide (v - mn) (mx - mn))) Z.

(** The test [np.max(Z) != 1 and np.min(Z) != 0]; Python's [and] evaluates
    its right operand only when the left one is true. *)
Definition must_normalize (Z : matrix) : result bool :=
  match np_max Z with
  | Err e => Err e
  | Ok mx =>
      if negb (Qeq_bool mx 1) then
        match np_min Z with
        | Err e => Err e
        | Ok mn => Ok (negb (Qeq_bool mn 0))
        end
      else Ok false
  end.

(** The matrix whose rows are handed to [cdist]: [Zn] or [Z] itself. *)
Definition distance_input (Z : matrix) : result fmatrix :=
  match must_normalize Z with
  | Err e => Err e
  | Ok true =>
      match np_min Z, np_max Z with
      | Ok mn, Ok mx => Ok (minmax_scale mn mx Z)
      | Err e, _ | _, Err e => Err e
      end
  | Ok false => Ok (as_floats Z)
  end.

(** [cdist(A, A[0].reshape(1, -1), metric=metric).ravel()]; the metric is
    a function of two rows of floats. *)
Definition cdist_to_first (metric : frecord -> frecord -> npfloat R) (A : fmatrix)
    : result (list (npfloat R)) :=
  match first A with
  | Err e => Err e
  | Ok anchor => Ok (map (fun r => metric r anchor) A)
  end.

(** [LOREM.__calculate_weights__(Z, metric)], with [kernel] the partially
    applied [self.kernel]. *)
Definition calculate_weights (kernel : npfloat R -> npfloat R) (Z : matrix)
    (metric : frecord -> frecord -> npfloat R) : result (list (npfloat R)) :=
  match distance_input Z with
  | Err e => Err e
  | Ok A =>
      match cdist_to_first metric A with
      | Err e => Err e
      | Ok distances => Ok (map kernel distances)
      end
  end.

(** ** Collaborators *)

(** The objects [LOREM] is constructed with and only calls: the black box
    ([bb.predict]), the neighbourhood generator, the surrogate provider with
    the trees it returns, and the rule emitter.  A per-run tree, a merged
    n-ary tree and its binary conversion share the type [tree]. *)
Record Collaborators : Type := {
  tree : Type;
  rule : Type;
  crules : Type;
  importance : Type;
  bb_predict : record -> label;
  multi_generate : record -> nat -> nat -> list matrix;
  learn_local_decision_tree :
    matrix -> list label -> option (list (npfloat R)) -> option bool -> tree;
  prune_duplicate_leaves : tree -> tree;
  rec_buildTree : tree -> list nat -> tree;
  mergeDecisionTrees : list tree -> nat -> tree;
  supert2b : tree -> matrix -> tree;
  dt_predict : tree -> record -> label;
  dt_apply : tree -> record -> leaf;
  get_rule : record -> label -> tree -> rule;
  get_counterfactual_rules :
    record -> label -> tree -> matrix -> list label -> crules;
  feature_importance_binary : tree -> record -> importance;
  feature_importance_supert : tree -> record -> nat -> importance
}.

(** [EncDec]: [enc] on one record with its label, [enc] on a batch, [dec]. *)
Record EncDec : Type := {
  enc : record -> label -> record;
  enc_batch : matrix -> list label -> matrix;
  dec : matrix -> matrix
}.

(** [Discretizer]: [fit(Z, Yb)] followed by [transform]. *)
Record Discretizer : Type := {
  fit_then_transform : matrix -> list label -> matrix -> matrix
}.

(** The value of [self.binary]: [False] by default, otherwise one of the
    mode strings (or any other Python value, of which only the truth value
    and the comparison with the three mode strings are used). *)
Inductive binary_flag : Type :=
| BinaryBool (b : bool)
| BinaryStr (s : string).

Definition binary_is (f : binary_flag) (s : string) : bool :=
  match f with
  | BinaryBool _ => false
  | BinaryStr t => String.eqb t s
  end.

Definition truthy (f : binary_flag) : bool :=
  match f with
  | BinaryBool b => b
  | BinaryStr s => negb (String.eqb s "")
  end.

(** The attributes of [self] the embedded methods read. *)
Record LOREM : Type := {
  encdec : option EncDec;
  dataset_values : matrix;
  dataset_labels : list label;
  K : matrix;
  feature_names : list string;
  multi_label : bool;
  binary : binary_flag;
  discretize : option Discretizer;
  extreme_fidelity : bool;
  kernel : npfloat R -> npfloat R
}.

(** [Explanation]; the two exemplar fields hold the selected records, which
    the code then renders with [record2str] ([None] becoming 'None'). *)
Record Explanation (C : Collaborators) : Type := {
  bb_pred : label;
  dt_pred : label;
  exp_rule : rule C;
  exp_crules : crules C;
  dt : tree C;
  fidelity : npfloat R;
  feature_importance : importance C;
  exemplars : option matrix;
  cexemplars : option matrix
}.

(** ** Fidelity *)

Definition np_nan_to_num (Z : matrix) : matrix := Z.

Fixpoint sum_R (l : list R) : R :=
  match l with
  | [] => 0%R
  | w :: l' => (w + sum_R l')%R
  end.

(** [sklearn.metrics.accuracy_score(y_true, y_pred, sample_weight)]: the
    mean, or the weighted mean, of the indicator of agreement, which
    [np.average] computes.  The mean of no values is [nan]; weights whose
    sum is zero raise [ZeroDivisionError]; a weight that is [nan] or
    infinite makes both sums of the weighted mean [nan] or infinite, and
    their quotient [nan]. *)
Definition agree (yy : label * label) : bool := Z.eqb (fst yy) (snd yy).

Definition accuracy_score (y_true y_pred : list label)
    (sample_weight : option (list (npfloat R))) : result (npfloat R) :=
  let hits := map agree (combine y_true y_pred) in
  match sample_weight with
  | None =>
      match hits with
      | [] => Ok NaN
      | _ :: _ =>
          Ok (Fin (INR (List.length (filter (fun b : bool => b) hits))
                   / INR (List.length hits))%R)
      end
  | Some w =>
      match finite_values w with
      | Some w =>
          let total := sum_R (map snd (combine hits w)) in
          if Req_dec_T total 0%R then Err ZeroDivisionError
          else
            Ok (Fin (sum_R (map (fun bw : bool * R => if fst bw then snd bw else 0%R)
                              (combine hits w))
                     / total)%R)
      | None => Ok NaN
      end
  end.

Section Pipeline.

Variable C : Collaborators.

Definition predict_batch (t : tree C) (X : matrix) : list label :=
  map (dt_predict C t) X.

(** [superT.score(Z, Yb, sample_weight=weights)] *)
Definition score (t : tree C) (X : matrix) (y : list label)
    (sample_weight : option (list (npfloat R))) : result (npfloat R) :=
  accuracy_score y (predict_batch t X) sample_weight.

(** ** Exemplar selection *)

Definition enumerate {A} (l : list A) : list (nat * A) :=
  combine (seq 0 (List.length l)) l.

(** [np.where(mask)[0]] and [np.delete(a, idx, axis=0)] *)
Definition np_where {A} (p : A -> bool) (l : list A) : list nat :=
  map fst (filter (fun ia => p (snd ia)) (enumerate l)).

Definition np_delete {A} (l : list A) (idx : list nat) : list A :=
  map snd (filter (fun ia => negb (existsb (Nat.eqb (fst ia)) idx)) (enumerate l)).

(** Fancy indexing [a[idx]] *)
Definition take_rows (a : matrix) (idx : list nat) : matrix :=
  map (fun i => nth i a []) idx.

Definition feature_eq (ab : Q * Q) : bool := Qeq_bool (fst ab) (snd ab).

(** One row of [(exemplar_vals == x).all(axis=1)] *)
Definition row_equal (x r : record) : bool := forallb feature_eq (combine r x).

(** [x in exemplar_vals], numpy's [(exemplar_vals == x).any()] *)
Definition contains (x : record) (vals : matrix) : bool :=
  existsb (fun r => existsb feature_eq (combine r x)) vals.

(** Squared Euclidean distance.  [cdist(_, _, metric='euclidean')] is its
    square root, so sorting by either gives the same order. *)
Fixpoint sqeuclidean (a b : record) : Q :=
  match a, b with
  | u :: a', v :: b' => (u - v) * (u - v) + sqeuclidean a' b'
  | _, _ => 0
  end.

Definition euclidean (a b : record) : R := sqrt (Q2R (sqeuclidean a b)).

(** [r] is at most as far from [x] as [s] is. *)
Definition nearer (x r s : record) : Prop := (euclidean x r <= euclidean x s)%R.

(** [keys.argsort()]: the indices of [keys] in ascending order of key
    (insertion sort; numpy leaves the order of equal keys unspecified). *)
Fixpoint insert_by (key : nat -> Q) (i : nat) (l : list nat) : list nat :=
  match l with
  | [] => [i]
  | j :: l' =>
      if Qle_bool (key i) (key j) then i :: l else j :: insert_by key i l'
  end.

Definition argsort (keys : list Q) : list nat :=
  fold_right (insert_by (fun i => nth i keys 0)) [] (seq 0 (List.length keys)).

(** [vals[cdist(x, vals).ravel().argsort()[:n]]] *)
Definition nearest (x : record) (vals : matrix) (n : nat) : matrix :=
  take_rows vals (firstn n (argsort (map (sqeuclidean x) vals))).

(** The population whose leaves are compared with the leaf of [x]. *)
Definition reference_population (self : LOREM) : matrix :=
  match encdec self with
  | Some ed => enc_batch ed (dataset_values self) (dataset_labels self)
  | None => K self
  end.

(** Lines shared by both selectors: the two partitions, the exemplar one
    already without the rows equal to [x]. *)
Definition exemplar_partition (self : LOREM) (t : tree C) (x : record) : matrix :=
  let population := reference_population self in
  let leave_id_K := map (dt_apply C t) population in
  let leave_id_x := dt_apply C t x in
  let exemplar_idx := np_where (fun l => Z.eqb l leave_id_x) leave_id_K in
  let exemplar_vals := take_rows population exemplar_idx in
  let idx_to_remove :=
    if contains x exemplar_vals
    then Some (np_where (row_equal x) exemplar_vals) else None in
  match idx_to_remove with
  | Some idx => np_delete exemplar_vals idx
  | None => exemplar_vals
  end.

Definition cexemplar_partition (self : LOREM) (t : tree C) (x : record) : matrix :=
  let population := reference_population self in
  let leave_id_K := map (dt_apply C t) population in
  let leave_id_x := dt_apply C t x in
  let cexemplar_idx := np_where (fun l => negb (Z.eqb l leave_id_x)) leave_id_K in
  take_rows population cexemplar_idx.

(** [get_exemplars_cexemplars_binary]: the [if / elif / else] chain returns
    on each of its three branches, so the code after it is never reached. *)
Definition get_exemplars_cexemplars_binary (self : LOREM) (t : tree C)
    (x : record) (n : nat) : option matrix * option matrix :=
  let exemplar_vals := exemplar_partition self t x in
  let cexemplar_vals := cexemplar_partition self t x in
  if (List.length exemplar_vals =? 0)%nat && (List.length cexemplar_vals =? 0)%nat then
    (None, None)
  else if (List.length exemplar_vals =? 0)%nat then
    let n := List.length cexemplar_vals in
    (None, Some (nearest x cexemplar_vals n))
  else
    let n := List.length exemplar_vals in
    (Some (nearest x exemplar_vals n), None).

(** [get_exemplars_cexemplars_supert] *)
Definition get_exemplars_cexemplars_supert (self : LOREM) (t : tree C)
    (x : record) (n : nat) : matrix * matrix :=
  let exemplar_vals := exemplar_partition self t x in
  let cexemplar_vals := cexemplar_partition self t x in
  let n :=
    if (List.length exemplar_vals <? n)%nat || (List.length cexemplar_vals <? n)%nat
    then Nat.min (List.length cexemplar_vals) (List.length exemplar_vals)
    else n in
  (nearest x exemplar_vals n, nearest x cexemplar_vals n).

(** ** The run stabilizer *)

Open Scope lorem_scope.

(** [None if not use_weights else self.__calculate_weights__(Z, metric)] *)
Definition weights_for (self : LOREM) (use_weights : bool)
    (metric : frecord -> frecord -> npfloat R) (Z : matrix) : M (option (list (npfloat R))) :=
  if use_weights
  then w <- lift (calculate_weights (kernel self) Z metric) ;; ret (Some w)
  else ret None.

(** One call of [surr.learn_local_decision_tree], logged. *)
Definition fit (Z : matrix) (Yb : list label) (weights : option (list (npfloat R)))
    (prune_tree : option bool) : M (tree C) :=
  tell (FitCall Z Yb weights prune_tree) ;;;
  ret (learn_local_decision_tree C Z Yb weights prune_tree).

(** What the body of [explain_instance_stable] has computed when it reaches
    [x = x.flatten()]: the merged tree, the fidelity and the locals [Z] and
    [Yb] as the chosen branch left them. *)
Record surrogate_state : Type := {
  st_superT : tree C;
  st_fidelity : npfloat R;
  st_Z : matrix;
  st_Yb : list label
}.

(** [if self.extreme_fidelity: ...], where [y] is the local assigned on the
    encoding path only. *)
Definition extreme_fidelity_check (self : LOREM) (superT : tree C)
    (x : record) (y : option label) : M unit :=
  if extreme_fidelity self then
    let res := dt_predict C superT x in
    y <- read "y" y ;;
    if negb (Z.eqb res y) then raise SurrogateMismatch else ret tt
  else ret tt.

(** The [else] branch of [binary == 'binary_from_dts']: prune, merge, score. *)
Definition merge_branch (self : LOREM) (x : record) (y : option label)
    (use_weights : bool) (metric : frecord -> frecord -> npfloat R)
    (Z_list : list matrix) (dt_list : list (tree C)) (Z : matrix)
    (Yb : list label) : M surrogate_state :=
  let dt_list := map (prune_duplicate_leaves C) dt_list in
  weights_list <- mapM (weights_for self use_weights metric) Z_list ;;
  weights <- lift (np_concatenate_opt weights_list) ;;
  let n_features := map (fun _ => seq 0 (List.length (feature_names self))) dt_list in
  let roots := map (fun tf => rec_buildTree C (fst tf) (snd tf)) (combine dt_list n_features) in
  let superT := mergeDecisionTrees C roots (n_unique Yb) in
  s <- (if binary_is (binary self) "binary_from_nari" then
          let superT := supert2b C superT Z in
          let Yb := predict_batch superT Z in
          fidelity <- lift (score superT Z Yb (Some weights)) ;;
          ret {| st_superT := superT; st_fidelity := fidelity;
                 st_Z := Z; st_Yb := Yb |}
        else
          let Yz := predict_batch superT Z in
          fidelity <- lift (accuracy_score Yb Yz None) ;;
          ret {| st_superT := superT; st_fidelity := fidelity;
                 st_Z := Z; st_Yb := Yb |}) ;;
  extreme_fidelity_check self (st_superT s) x y ;;;
  ret s.

(** The statements from [if self.binary == 'binary_from_bb'] down to the end
    of its [else].  [Zv] and [Ybv] are the locals [Z] and [Yb] as the loops
    above left them. *)
Definition build_surrogate (self : LOREM) (x : record) (y : option label)
    (use_weights : bool) (metric : frecord -> frecord -> npfloat R) (runs : nat)
    (prune_tree : bool) (Z_list : list matrix) (Yb_list : list (list label))
    (weights_list : list (option (list (npfloat R))))
    (Zv : option matrix) (Ybv : option (list label)) : M surrogate_state :=
  if binary_is (binary self) "binary_from_bb" then
    Z <- read "Z" Zv ;;
    weights <- weights_for self use_weights metric Z ;;
    Yb <- read "Yb" Ybv ;;
    superT <- fit Z Yb weights None ;;
    fidelity <- lift (score superT Z Yb weights) ;;
    ret {| st_superT := superT; st_fidelity := fidelity; st_Z := Z; st_Yb := Yb |}
  else
    dt_list <- mapM (fun a => fit (fst a) (fst (snd a)) (snd (snd a)) (Some prune_tree))
                 (firstn runs (combine Z_list (combine Yb_list weights_list))) ;;
    Z <- lift (np_concatenate Z_list) ;;
    let Z := np_nan_to_num Z in
    Yb <- lift (np_concatenate Yb_list) ;;
    if binary_is (binary self) "binary_from_dts" then
      weights <- weights_for self use_weights metric Z ;;
      superT <- fit Z Yb weights None ;;
      fidelity <- lift (score superT Z Yb weights) ;;
      ret {| st_superT := superT; st_fidelity := fidelity; st_Z := Z; st_Yb := Yb |}
    else merge_branch self x y use_weights metric Z_list dt_list Z Yb.

(** The statements of [explain_instance_stable] before the mode branch:
    encoding, neighbourhood generation, labelling, weights, discretization. *)
Record neighbourhoods : Type := {
  nb_x : record;
  nb_y : option label;
  nb_Z_list : list matrix;
  nb_Yb_list : list (list label);
  nb_weights_list : list (option (list (npfloat R)));
  nb_Z : option matrix;
  nb_Yb : option (list label)
}.

Definition generate_neighbourhoods (self : LOREM) (x : record) (samples : nat)
    (use_weights : bool) (metric : frecord -> frecord -> npfloat R) (runs : nat)
    : M neighbourhoods :=
  (if multi_label self then raise NotImplemented else ret tt) ;;;
  let '(y, x) :=
    match encdec self with
    | Some ed => let y := bb_predict C x in (Some y, enc ed x y)
    | None => (None, x)
    end in
  let Z_list := multi_generate C x samples runs in
  let labelled :=
    match encdec self with
    | Some ed => map (fun Z => np_nan_to_num (dec ed Z)) Z_list
    | None => Z_list
    end in
  let Yb_list := map (map (bb_predict C)) labelled in
  let Zv := loop_var None labelled in
  let Ybv := loop_var None Yb_list in
  weights_list <- mapM (weights_for self use_weights metric) Z_list ;;
  let Zv := loop_var Zv Z_list in
  match discretize self with
  | Some discr =>
      Z <- lift (np_concatenate Z_list) ;;
      Yb <- lift (np_concatenate Yb_list) ;;
      ret {| nb_x := x; nb_y := y;
             nb_Z_list := map (fit_then_transform discr Z Yb) Z_list;
             nb_Yb_list := Yb_list; nb_weights_list := weights_list;
             nb_Z := Some Z; nb_Yb := Some Yb |}
  | None =>
      ret {| nb_x := x; nb_y := y; nb_Z_list := Z_list;
             nb_Yb_list := Yb_list; nb_weights_list := weights_list;
             nb_Z := Zv; nb_Yb := Ybv |}
  end.

(** The statements from [x = x.flatten()] to [return exp]. *)
Definition assemble (self : LOREM) (x : record) (exemplar_num : nat)
    (s : surrogate_state) : M (Explanation C) :=
  let superT := st_superT s in
  let Z := st_Z s in
  let Yb := st_Yb s in
  let Yc := predict_batch superT Z in
  let rule := get_rule C x (bb_predict C x) superT in
  Yc0 <- lift (first Yc) ;;
  let crules := get_counterfactual_rules C x Yc0 superT Z Yc in
  Yb0 <- lift (first Yb) ;;
  let '(importance, exemplars_rec, cexemplars_rec) :=
    if truthy (binary self) then
      let ec := get_exemplars_cexemplars_binary self superT x exemplar_num in
      (feature_importance_binary C superT x, fst ec, snd ec)
    else
      let ec := get_exemplars_cexemplars_supert self superT x exemplar_num in
      (feature_importance_supert C superT x (List.length Yb), Some (fst ec), Some (snd ec)) in
  ret {| bb_pred := Yb0; dt_pred := Yc0; exp_rule := rule; exp_crules := crules;
         dt := superT; fidelity := st_fidelity s;
         feature_importance := importance;
         exemplars := exemplars_rec; cexemplars := cexemplars_rec |}.

(** [LOREM.explain_instance_stable] *)
Definition explain_instance_stable (self : LOREM) (x : record) (samples : nat)
    (use_weights : bool) (metric : frecord -> frecord -> npfloat R) (runs : nat)
    (exemplar_num : nat) (prune_tree : bool) : M (Explanation C) :=
  nb <- generate_neighbourhoods self x samples use_weights metric runs ;;
  s <- build_surrogate self (nb_x nb) (nb_y nb) use_weights metric runs prune_tree
         (nb_Z_list nb) (nb_Yb_list nb) (nb_weights_list nb) (nb_Z nb) (nb_Yb nb) ;;
  assemble self (nb_x nb) exemplar_num s.

(** A mode that takes the merge branch: neither of the two pooled fits. *)
Definition merge_mode (self : LOREM) : Prop :=
  binary_is (binary self) "binary_from_bb" = false
  /\ binary_is (binary self) "binary_from_dts" = false.

(** The encoded instance and the black-box label [y] when they exist. *)
Definition encoded_instance (self : LOREM) (x : record) : record :=
  match encdec self with
  | Some ed => enc ed x (bb_predict C x)
  | None => x
  end.

Definition bound_y (self : LOREM) (x : record) : option label :=
  match encdec self with
  | Some _ => Some (bb_predict C x)
  | None => None
  end.

Close Scope lorem_scope.

End Pipeline.

(** The neighbourhoods of a call, the matrices the black box labels (the
    decoded neighbourhoods when an encoder is configured) and their labels. *)
Definition stage_Z_list (C : Collaborators) (self : LOREM) (x : record)
    (samples runs : nat) : list matrix :=
  multi_generate C (encoded_instance C self x) samples runs.

Definition stage_labelled (C : Collaborators) (self : LOREM) (x : record)
    (samples runs : nat) : list matrix :=
  match encdec self with
  | Some ed => map (fun Z => np_nan_to_num (dec ed Z)) (stage_Z_list C self x samples runs)
  | None => stage_Z_list C self x samples runs
  end.

Definition stage_Yb_list (C : Collaborators) (self : LOREM) (x : record)
    (samples runs : nat) : list (list label) :=
  map (map (bb_predict C)) (stage_labelled C self x samples runs).

(** The log entries of the per-run fits, which every mode but
    'binary_from_bb' makes: one per run, as [zip] pairs the runs up. *)
Definition per_run_fits (runs : nat) (prune_tree : bool) (Z_list : list matrix)
    (Yb_list : list (list label)) (weights_list : list (option (list (npfloat R))))
    : list fit_call :=
  map (fun a => FitCall (fst a) (fst (snd a)) (snd (snd a)) (Some prune_tree))
      (firstn runs (combine Z_list (combine Yb_list weights_list))).

(** ** The batch dispatcher *)

Section Dispatcher.

Variable A : Type.

(** What the dispatcher does to its worker processes, in order. *)
Inductive event : Type :=
| Started (i : nat) (dataset : list A)
| Joined (i : nat).

(** [math.ceil(len(X) / float(n_workers))] for a positive [n_workers]. *)
Definition items_for_worker (len n_workers : nat) : nat :=
  (len + n_workers - 1) / n_workers.

(** [X[start:end]] *)
Definition slice (X : list A) (start end_ : nat) : list A :=
  firstn (end_ - start) (skipn start X).

(** The [for i in range(0, n_workers)] loop with its [break]; [remaining]
    counts the iterations left.  Returns the workers started, in order, and
    the local [workers], assigned only when the loop breaks. *)
Fixpoint dispatch_loop (X : list A) (n_workers step remaining i start end_ : nat)
    : list (nat * list A) * option nat :=
  match remaining with
  | O => ([], None)
  | S remaining' =>
      let dataset := slice X start end_ in
      if (Z.of_nat (List.length X) - 1 <? Z.of_nat end_)%Z then
        ([(i, dataset)], Some (n_workers - 1)%nat)
      else
        let r := dispatch_loop X n_workers step remaining' (S i) end_ (end_ + step) in
        ((i, dataset) :: fst r, snd r)
  end.

(** [for i in range(0, workers): processes[i].join()] *)
Fixpoint join_loop (processes : list (nat * list A)) (indices : list nat)
    : list event * result unit :=
  match indices with
  | [] => ([], Ok tt)
  | i :: rest =>
      match nth_error processes i with
      | None => ([], Err IndexError)
      | Some p =>
          let r := join_loop processes rest in
          (Joined (fst p) :: fst r, snd r)
      end
  end.

(** [LOREM.explain_set_instances_stable]: the trace of process events and
    how the call ends. *)
Definition explain_set_instances_stable (X : list A) (n_workers : nat)
    : list event * result unit :=
  match n_workers with
  | O => ([], Err ZeroDivisionError)
  | S _ =>
      let step := items_for_worker (List.length X) n_workers in
      let r := dispatch_loop X n_workers step n_workers 0 0 step in
      let started := map (fun p => Started (fst p) (snd p)) (fst r) in
      match snd r with
      | None => (started, Err (UnboundLocalError "workers"))
      | Some workers =>
          let j := join_loop (fst r) (seq 0 workers) in
          (started ++ fst j, snd j)
      end
  end.

Definition started_chunks (tr : list event) : list (list A) :=
  flat_map (fun e => match e with Started _ d => [d] | Joined _ => [] end) tr.

Definition started_workers (tr : list event) : list nat :=
  flat_map (fun e => match e with Started i _ => [i] | Joined _ => [] end) tr.

Definition joined_workers (tr : list event) : list nat :=
  flat_map (fun e => match e with Started _ _ => [] | Joined i => [i] end) tr.

End Dispatcher.

Arguments Joined {A} i.

(** ** A concrete set of collaborators

    Used to run the embedding on explicit inputs.  Trees are decision stumps
    on the first feature: a stump with threshold [th] predicts class 0 on
    [first_feature r <= th] and class 1 otherwise, and sends the two sides to
    leaves 1 and 2.  The black box is the stump [bb_th]; the surrogate always
    learns (and merges to) the stump [dt_th]; run [k] of the generator yields
    the anchor followed by the anchor shifted by [k]. *)

Definition first_feature (r : record) : Q :=
  match r with
  | [] => 0
  | v :: _ => v
  end.

Definition stump_label (th : Q) (r : record) : label :=
  if Qle_bool (first_feature r) th then 0%Z else 1%Z.

Definition shifted (x : record) (k : nat) : record :=
  map (fun v => v + inject_Z (Z.of_nat k)) x.

Definition stumps (bb_th dt_th : Q) : Collaborators := {|
  tree := Q;
  rule := unit;
  crules := unit;
  importance := unit;
  bb_predict := stump_label bb_th;
  multi_generate := fun x _ runs => map (fun k => [x; shifted x k]) (seq 1 runs);
  learn_local_decision_tree := fun _ _ _ _ => dt_th;
  prune_duplicate_leaves := fun t => t;
  rec_buildTree := fun t _ => t;
  mergeDecisionTrees := fun _ _ => dt_th;
  supert2b := fun t _ => t;
  dt_predict := stump_label;
  dt_apply := fun t r => (1 + stump_label t r)%Z;
  get_rule := fun _ _ _ => tt;
  get_counterfactual_rules := fun _ _ _ _ _ => tt;
  feature_importance_binary := fun _ _ => tt;
  feature_importance_supert := fun _ _ _ => tt
|}.

Definition identity_encdec : EncDec := {|
  enc := fun x _ => x;
  enc_batch := fun X _ => X;
  dec := fun X => X
|}.

(** An explainer over one feature with the default kernel and width. *)
Definition example_lorem (ed : option EncDec) (mode : binary_flag)
    (extreme : bool) (population : matrix) : LOREM := {|
  encdec := ed;
  dataset_values := population;
  dataset_labels := [];
  K := population;
  feature_names := ["f0"%string];
  multi_label := false;
  binary := mode;
  discretize := None;
  extreme_fidelity := extreme;
  kernel := init_kernel ["f0"%string] None None
|}.

Definition identity_discretizer : Discretizer := {|
  fit_then_transform := fun _ _ X => X
|}.

Definition with_discretizer (self : LOREM) (d : Discretizer) : LOREM := {|
  encdec := encdec self;
  dataset_values := dataset_values self;
  dataset_labels := dataset_labels self;
  K := K self;
  feature_names := feature_names self;
  multi_label := multi_label self;
  binary := binary self;
  discretize := Some d;
  extreme_fidelity := extreme_fidelity self;
  kernel := kernel self
|}.

(** The same explainer constructed with another [extreme_fidelity]. *)
Definition with_extreme_fidelity (self : LOREM) (b : bool) : LOREM := {|
  encdec := encdec self;
  dataset_values := dataset_values self;
  dataset_labels := dataset_labels self;
  K := K self;
  feature_names := feature_names self;
  multi_label := multi_label self;
  binary := binary self;
  discretize := discretize self;
  extreme_fidelity := b;
  kernel := kernel self
|}.

Definition zero_metric (a b : frecord) : npfloat R := Fin 0%R.

(** A distance function given on finite rows; on a row that holds a value
    that is not finite it computes [nan], as the metrics of [cdist] do on a
    row that holds [nan]. *)
Definition nan_aware (m : record -> record -> R) (a b : frecord) : npfloat R :=
  match finite_values a, finite_values b with
  | Some a, Some b => Fin (m a b)
  | _, _ => NaN
  end.

(** The Explanation a call returned, if it returned one. *)
Definition value_of {A} (r : result A) : option A :=
  match r with
  | Ok a => Some a
  | Err _ => None
  end.

Definition example_population : matrix := [[0]; [1]; [2]; [4]; [9]].

(** ** Dictionaries

    A Python [dict] as an association list in insertion order: [d[k] = v]
    overwrites the value of an existing key in place and appends a new key
    at the end; [d[k]] reads the first (and only) entry for [k]. *)

Section Dict.

Variables K V : Type.
Variable eqb : K -> K -> bool.

Fixpoint dict_get (d : list (K * V)) (k : K) : option V :=
  match d with
  | [] => None
  | (k', v) :: d' => if eqb k' k then Some v else dict_get d' k
  end.

Fixpoint dict_set (d : list (K * V)) (k : K) (v : V) : list (K * V) :=
  match d with
  | [] => [(k, v)]
  | (k', v') :: d' =>
      if eqb k' k then (k', v) :: d' else (k', v') :: dict_set d' k v
  end.

(** [dict(pairs)] *)
Definition dict_of (pairs : list (K * V)) : list (K * V) :=
  fold_left (fun d kv => dict_set d (fst kv) (snd kv)) pairs [].

(** A run of assignments [d[k] = v], in order, on the dictionary [d]. *)
Definition set_all (pairs : list (K * V)) (d : list (K * V)) : list (K * V) :=
  fold_left (fun d kv => dict_set d (fst kv) (snd kv)) pairs d.

End Dict.

(** ** [LOREM.__init__]: the inverse feature map

    [features_map] sends a feature index to a dictionary from a categorical
    value to the index of its encoded column; [None] and the empty
    dictionary are both false for [if self.features_map:]. *)

Section FeaturesMap.

Variable Key : Type.

Definition invert_entry (inv : list (nat * nat)) (entry : nat * list (Key * nat))
    : list (nat * nat) :=
  fold_left (fun inv kv => dict_set Nat.eqb inv (snd kv) (fst entry)) (snd entry) inv.

(** The assignments [features_map_inv[v] = idx] in the order the two nested
    loops make them. *)
Definition inverse_assignments (fm : list (nat * list (Key * nat))) : list (nat * nat) :=
  flat_map (fun entry => map (fun kv => (snd kv, fst entry)) (snd entry)) fm.

Definition features_map_inv (features_map : option (list (nat * list (Key * nat))))
    : option (list (nat * nat)) :=
  match features_map with
  | None => None
  | Some [] => None
  | Some fm => Some (fold_left invert_entry fm [])
  end.

End FeaturesMap.

(** ** [LOREM.get_feature_importance_binary]

    The method reads four things off the fitted sklearn tree: the leaf of
    [x] ([dt.apply]), the node ids on the decision path of [x], the feature
    tested at every node ([dt.tree_.feature], a negative marker at leaves)
    and [dt.feature_importances_]. *)

(** [l[i]] with Python's negative indices. *)
Definition py_index {A} (l : list A) (i : Z) : result A :=
  let n := Z.of_nat (List.length l) in
  let j := if (i <? 0)%Z then (i + n)%Z else i in
  if ((0 <=? j) && (j <? n))%Z then
    match nth_error l (Z.to_nat j) with
    | Some a => Ok a
    | None => Err IndexError
    end
  else Err IndexError.

(** The loop over [node_index_dt], which stops at the leaf. *)
Fixpoint path_attributes (feature_names : list string) (feature_dt : list Z)
    (leave_id : nat) (node_index_dt : list nat) : result (list string) :=
  match node_index_dt with
  | [] => Ok []
  | node_id :: rest =>
      if (leave_id =? node_id)%nat then Ok []
      else
        match py_index feature_dt (Z.of_nat node_id) with
        | Err e => Err e
        | Ok f =>
            match py_index feature_names f with
            | Err e => Err e
            | Ok att =>
                match path_attributes feature_names feature_dt leave_id rest with
                | Err e => Err e
                | Ok att_list => Ok (att :: att_list)
                end
            end
        end
  end.

Definition get_feature_importance_binary {V} (feature_names : list string)
    (leave_id : nat) (node_index_dt : list nat) (feature_dt : list Z)
    (feature_importance_all : list V)
    : result (list (string * V) * list (string * V)) :=
  match path_attributes feature_names feature_dt leave_id node_index_dt with
  | Err e => Err e
  | Ok att_list =>
      let dict_feature_importance :=
        dict_of String.eqb (combine feature_names feature_importance_all) in
      let feature_importance_rule :=
        filter (fun kv => existsb (String.eqb (fst kv)) att_list)
          dict_feature_importance in
      Ok (feature_importance_rule, dict_feature_importance)
  end.

(** ** [LOREM.explain_workers_stable]

    A file holds the objects pickled into it, in order; mode ["ab"] appends
    and creates the file when it is missing. *)

Definition str (i : nat) : string := NilEmpty.string_of_uint (Nat.to_uint i).

(** ['explanations_lore' + title + '_' + str(i) + '.p'] *)
Definition worker_title (title : string) (i : nat) : string :=
  ("explanations_lore" ++ title ++ "_" ++ str i ++ ".p")%string.

Section Worker.

Variable C : Collaborators.

Definition batch : Type := list (record * Explanation C).
Definition files : Type := string -> list batch.

Definition pickle_append (fs : files) (name : string) (results : batch) : files :=
  fun n => if String.eqb n name then fs n ++ [results] else fs n.

(** The loop of the worker: one explanation per instance, in order, with
    the defaults [prune_tree=False] and [single=False]. *)
Definition explain_dataset (self : LOREM) (dataset : list record)
    (n_samples : nat) (use_weights : bool) (metric : frecord -> frecord -> npfloat R)
    (runs exemplar_num : nat) : M batch :=
  mapM (fun d =>
          bind (explain_instance_stable C self d n_samples use_weights metric
                  runs exemplar_num false)
               (fun exp => ret (d, exp)))
       dataset.

(** The worker on a file system: the file is opened only after the loop,
    so an exception in the loop leaves the files as they were. *)
Definition explain_workers_stable (self : LOREM) (i : nat)
    (dataset : list record) (title : string) (n_samples : nat)
    (use_weights : bool) (metric : frecord -> frecord -> npfloat R)
    (runs exemplar_num : nat) (fs : files) (log : list fit_call)
    : files * (list fit_call * result unit) :=
  match explain_dataset self dataset n_samples use_weights metric runs
          exemplar_num log with
  | (log', Ok results) =>
      (pickle_append fs (worker_title title i) results, (log', Ok tt))
  | (log', Err e) => (fs, (log', Err e))
  end.

(** The files once every worker the dispatcher started has terminated.
    Each worker is a process of its own, with its own copy of the explainer
    (here: its own log). *)
Definition files_after_batch (self : LOREM) (X : list record) (n_workers : nat)
    (title : string) (n_samples : nat) (use_weights : bool)
    (metric : frecord -> frecord -> npfloat R) (runs exemplar_num : nat) (fs : files)
    : files :=
  fold_left
    (fun fs e =>
       match e with
       | Started i dataset =>
           fst (explain_workers_stable self i dataset title n_samples
                  use_weights metric runs exemplar_num fs [])
       | Joined _ => fs
       end)
    (fst (explain_set_instances_stable X n_workers)) fs.

End Worker.

(** * Properties *)

(** ** Batch dispatch *)

Section DispatcherFacts.

Variable A : Type.
Variable X : list A.
Variables n_workers step : nat.

Lemma slice_step (start : nat) :
  slice X start (start + step) = firstn step (skipn start X).
Proof. unfold slice. f_equal. lia. Qed.

(** The loop invariant: entered at a start index inside [X] with enough
    iterations left to reach the end, the loop breaks, and what it started
    tiles [skipn start X] in steps of [step]. *)
Lemma dispatch_loop_tiles (remaining : nat) :
  forall i start,
    (1 <= step)%nat -> (start < List.length X)%nat ->
    (List.length X <= start + remaining * step)%nat ->
    let r := dispatch_loop X n_workers step remaining i start (start + step) in
    List.concat (map snd (fst r)) = skipn start X
    /\ (1 <= List.length (fst r) <= remaining)%nat
    /\ map fst (fst r) = seq i (List.length (fst r))
    /\ snd r = Some (n_workers - 1)%nat
    /\ (forall j ch, nth_error (map snd (fst r)) j = Some ch ->
          ch = slice X (start + j * step) (start + j * step + step)
          /\ (1 <= List.length ch <= step)%nat
          /\ (S j < List.length (fst r) -> List.length ch = step)%nat).
Proof.
  induction remaining as [|rem IH]; intros i start Hstep Hlt Hreach; cbn zeta.
  - cbn in Hreach. lia.
  - cbn [dispatch_loop].
    assert (Hlen : List.length (skipn start X) = ((List.length X) - start)%nat)
      by apply length_skipn.
    destruct (Z.ltb_spec (Z.of_nat (List.length X) - 1) (Z.of_nat (start + step))) as [Hbrk|Hgo].
    + (* break *)
      cbn [fst snd map List.concat List.length seq].
      rewrite app_nil_r, slice_step.
      assert (Hall : firstn step (skipn start X) = skipn start X)
        by (apply firstn_all2; lia).
      rewrite Hall.
      split; [reflexivity|]. split; [lia|]. split; [reflexivity|].
      split; [reflexivity|].
      intros j ch H.
      destruct j as [|j]; cbn in H; [|destruct j; discriminate].
      injection H as <-. rewrite Nat.add_0_r, slice_step, Hall.
      split; [reflexivity|]. split; [lia|]. cbn. lia.
    + (* next iteration *)
      assert (Hlt' : (start + step < List.length X)%nat) by lia.
      assert (Hreach' : (List.length X <= start + step + rem * step)%nat) by (cbn in Hreach; lia).
      specialize (IH (S i) (start + step)%nat Hstep Hlt' Hreach').
      cbn zeta in IH. destruct IH as (Hcat & Hcnt & Hidx & Hw & Hch).
      cbn [fst snd map List.concat List.length seq].
      rewrite Hcat, slice_step.
      assert (Hfull : List.length (firstn step (skipn start X)) = step)
        by (rewrite length_firstn; lia).
      split.
      { replace (start + step)%nat with (step + start)%nat by lia.
        rewrite <- skipn_skipn. apply firstn_skipn. }
      split; [lia|]. split; [now rewrite Hidx|]. split; [assumption|].
      intros j ch H. destruct j as [|j]; cbn in H.
      * injection H as <-. rewrite Nat.add_0_r, slice_step.
        split; [reflexivity|]. split; [lia|]. intros _. exact Hfull.
      * destruct (Hch j ch H) as (Heq & Hb & Hs).
        split; [rewrite Heq; f_equal; cbn; lia|]. split; [lia|].
        intros Hj. apply Hs. lia.
Qed.

Lemma items_for_worker_covers :
  (1 <= n_workers)%nat ->
  (List.length X <= n_workers * items_for_worker (List.length X) n_workers)%nat.
Proof.
  intros Hw. unfold items_for_worker.
  pose proof (Nat.div_mod_eq ((List.length X) + n_workers - 1) n_workers) as Hdm.
  pose proof (Nat.mod_upper_bound ((List.length X) + n_workers - 1) n_workers) as Hub.
  nia.
Qed.

Lemma items_for_worker_pos :
  (1 <= List.length X)%nat -> (1 <= n_workers)%nat -> (1 <= items_for_worker (List.length X) n_workers)%nat.
Proof.
  intros HN Hw. unfold items_for_worker.
  apply Nat.div_le_lower_bound; lia.
Qed.

End DispatcherFacts.

Lemma started_chunks_trace A (procs : list (nat * list A)) (js : list (event A)) :
  (forall e, In e js -> exists i, e = Joined i) ->
  started_chunks (map (fun p => Started (fst p) (snd p)) procs ++ js) = map snd procs.
Proof.
  intros Hjs. unfold started_chunks. rewrite flat_map_app.
  assert (Hnil : flat_map (fun e : event A =>
            match e with Started _ d => [d] | Joined _ => [] end) js = []).
  { induction js as [|e js IH]; [reflexivity|]. cbn.
    destruct (Hjs e (or_introl eq_refl)) as [i ->]. cbn.
    apply IH. intros e' He'. apply Hjs. now right. }
  rewrite Hnil, app_nil_r.
  induction procs as [|p ps IH]; cbn; [reflexivity | now rewrite IH].
Qed.

Lemma started_workers_trace A (procs : list (nat * list A)) (js : list (event A)) :
  (forall e, In e js -> exists i, e = Joined i) ->
  started_workers (map (fun p => Started (fst p) (snd p)) procs ++ js) = map fst procs.
Proof.
  intros Hjs. unfold started_workers. rewrite flat_map_app.
  assert (Hnil : flat_map (fun e : event A =>
            match e with Started i _ => [i] | Joined _ => [] end) js = []).
  { induction js as [|e js IH]; [reflexivity|]. cbn.
    destruct (Hjs e (or_introl eq_refl)) as [i ->]. cbn.
    apply IH. intros e' He'. apply Hjs. now right. }
  rewrite Hnil, app_nil_r.
  induction procs as [|p ps IH]; cbn; [reflexivity | now rewrite IH].
Qed.

Lemma join_loop_only_joins A (procs : list (nat * list A)) (idx : list nat) :
  forall e, In e (fst (join_loop procs idx)) -> exists i, e = Joined i.
Proof.
  induction idx as [|i idx IH]; cbn; [tauto|].
  destruct (nth_error procs i) as [p|]; cbn; [|tauto].
  intros e [<-|He]; eauto.
Qed.

(** C8. Over [N >= 1] instances and [W >= 1] workers the dispatcher starts
    at most [W] workers, numbered from 0; worker [j] receives the contiguous
    slice [X[j*c : j*c + c]] with [c = ceil(N/W)]; every chunk but the last
    has exactly [c] instances and the last has between 1 and [c]; and the
    chunks, in order, concatenate to [X], so every instance goes to exactly
    one worker. *)
Theorem dispatch_partitions_all_instances A (X : list A) (n_workers : nat) :
  (1 <= List.length X)%nat -> (1 <= n_workers)%nat ->
  let c := items_for_worker (List.length X) n_workers in
  let tr := fst (explain_set_instances_stable X n_workers) in
  let chunks := started_chunks tr in
  List.concat chunks = X
  /\ List.length (List.concat chunks) = List.length X
  /\ (1 <= List.length chunks <= n_workers)%nat
  /\ started_workers tr = seq 0 (List.length chunks)
  /\ (forall j ch, nth_error chunks j = Some ch ->
        ch = slice X (j * c) (j * c + c)
        /\ (1 <= List.length ch <= c)%nat
        /\ (S j < List.length chunks -> List.length ch = c)%nat).
Proof.
  intros HN HW c tr chunks.
  pose proof (items_for_worker_pos X HN HW) as Hc.
  pose proof (items_for_worker_covers X HW) as Hcov.
  assert (Hreach : (List.length X <= 0 + n_workers * c)%nat) by (subst c; lia).
  destruct (dispatch_loop_tiles X n_workers (step := c) n_workers 0 (start := 0) Hc HN Hreach)
    as (Hcat & Hcnt & Hidx & Hw & Hch).
  cbn [Nat.add] in Hcat, Hcnt, Hidx, Hw, Hch.
  assert (Htr : chunks = map snd (fst (dispatch_loop X n_workers c n_workers 0 0 c))
                /\ started_workers tr = map fst (fst (dispatch_loop X n_workers c n_workers 0 0 c))).
  { subst chunks tr. unfold explain_set_instances_stable.
    destruct n_workers as [|w]; [lia|]. fold c. rewrite Hw. cbn [fst].
    split; [apply started_chunks_trace | apply started_workers_trace];
      apply join_loop_only_joins. }
  destruct Htr as [Hchunks Hworkers].
  rewrite Hworkers, Hchunks, length_map, Hcat. cbn [skipn].
  split; [reflexivity|]. split; [reflexivity|]. split; [lia|].
  split; [assumption|].
  intros j ch H. destruct (Hch j ch H) as (Heq & Hb & Hs).
  split; [exact Heq|]. split; [lia|]. exact Hs.
Qed.

Lemma dispatch_partitions_all_instances_witness :
  let X := [10; 20; 30; 40; 50]%nat in
  started_chunks (fst (explain_set_instances_stable X 3)) = [[10; 20]; [30; 40]; [50]]%nat
  /\ List.concat (started_chunks (fst (explain_set_instances_stable X 3))) = X.
Proof.
  split; [reflexivity|].
  apply (dispatch_partitions_all_instances [10; 20; 30; 40; 50]%nat (n_workers := 3)); cbn; lia.
Defined.

(** C9 (code defect). The join loop runs over [range(0, n_workers - 1)],
    not over the workers that were started.  One instance and one worker:
    worker 0 is started and never joined.  Four instances and two workers:
    worker 1 is started and never joined.  Two instances and four workers:
    both workers are joined and [processes[2]] then raises [IndexError]. *)
Theorem dispatcher_join_loop_misses_workers :
  (let r := explain_set_instances_stable [7%nat] 1 in
   started_workers (fst r) = [0%nat] /\ joined_workers (fst r) = [] /\ snd r = Ok tt)
  /\ (let r := explain_set_instances_stable [1; 2; 3; 4]%nat 2 in
      started_workers (fst r) = [0; 1]%nat /\ joined_workers (fst r) = [0%nat]
      /\ snd r = Ok tt)
  /\ (let r := explain_set_instances_stable [1; 2]%nat 4 in
      started_workers (fst r) = [0; 1]%nat /\ joined_workers (fst r) = [0; 1]%nat
      /\ snd r = Err IndexError).
Proof. repeat split. Qed.

(** *** Which workers the dispatcher joins *)

Lemma join_loop_range A (procs : list (nat * list A)) (k : nat) :
  map fst procs = seq 0 k ->
  forall n s,
    joined_workers (fst (join_loop procs (seq s n))) = seq s (Nat.min n (k - s))
    /\ (snd (join_loop procs (seq s n)) = Ok tt <-> (s + n <= k)%nat \/ n = 0%nat).
Proof.
  intros Hidx.
  assert (Hlen : List.length procs = k)
    by (rewrite <- (length_map fst), Hidx; apply length_seq).
  induction n as [|n IH]; intros s.
  - cbn. split; [reflexivity | tauto].
  - cbn [seq join_loop].
    destruct (nth_error procs s) as [p|] eqn:Hp.
    + assert (Hs : (s < k)%nat) by (rewrite <- Hlen; apply nth_error_Some; congruence).
      assert (Hfst : fst p = s).
      { apply (map_nth_error fst) in Hp. rewrite Hidx, nth_error_seq in Hp.
        destruct (Nat.ltb_spec s k); [|lia]. cbn in Hp. congruence. }
      destruct (IH (S s)) as [Hj Hr]. cbn [fst snd joined_workers flat_map app].
      fold (joined_workers (fst (join_loop procs (seq (S s) n)))).
      rewrite Hj, Hfst, Hr. split.
      * replace (Nat.min (S n) (k - s)) with (S (Nat.min n (k - S s))) by lia.
        reflexivity.
      * lia.
    + assert (Hs : (k <= s)%nat) by (rewrite <- Hlen; now apply nth_error_None).
      cbn. replace (k - s)%nat with 0%nat by lia. split; [reflexivity|].
      split; [discriminate | lia].
Qed.

(** The join loop reaches workers 0 .. [n_workers - 2] only: it joins every
    started worker just when [n_workers - 1] workers were started, leaves
    the last one unjoined when all [n_workers] were, and otherwise runs past
    the end of [processes]. *)
Lemma dispatcher_joins_first_workers A (X : list A) (n_workers : nat) :
  (1 <= List.length X)%nat -> (1 <= n_workers)%nat ->
  let r := explain_set_instances_stable X n_workers in
  let k := List.length (started_workers (fst r)) in
  joined_workers (fst r) = seq 0 (Nat.min (n_workers - 1) k)
  /\ (snd r = Ok tt <-> (n_workers - 1 <= k)%nat).
Proof.
  intros HN HW r k.
  pose proof (items_for_worker_pos X HN HW) as Hc.
  pose proof (items_for_worker_covers X HW) as Hcov.
  set (c := items_for_worker (List.length X) n_workers) in *.
  assert (Hreach : (List.length X <= 0 + n_workers * c)%nat) by lia.
  destruct (dispatch_loop_tiles X n_workers (step := c) n_workers 0 (start := 0) Hc HN Hreach)
    as (_ & Hcnt & Hidx & Hw & _).
  cbn [Nat.add] in Hcnt, Hidx, Hw.
  set (procs := fst (dispatch_loop X n_workers c n_workers 0 0 c)) in *.
  destruct (@join_loop_range A procs (List.length procs) Hidx (n_workers - 1) 0) as [Hj Hr].
  assert (Hr' : r = (map (fun p => Started (fst p) (snd p)) procs
                       ++ fst (join_loop procs (seq 0 (n_workers - 1))),
                     snd (join_loop procs (seq 0 (n_workers - 1))))).
  { subst r. unfold explain_set_instances_stable.
    destruct n_workers as [|w]; [lia|]. fold c. fold procs. now rewrite Hw. }
  assert (Hk : k = List.length procs).
  { subst k. rewrite Hr'. cbn [fst].
    rewrite started_workers_trace by apply join_loop_only_joins.
    apply length_map. }
  rewrite Hr'. cbn [fst snd]. split.
  - unfold joined_workers. rewrite flat_map_app.
    fold (joined_workers (fst (join_loop procs (seq 0 (n_workers - 1))))).
    rewrite Hj, Nat.sub_0_r, Hk.
    assert (Hnil : flat_map (fun e : event A =>
              match e with Started _ _ => [] | Joined i => [i] end)
              (map (fun p => Started (fst p) (snd p)) procs) = []).
    { clear. induction procs as [|p ps IH]; cbn; auto. }
    now rewrite Hnil.
  - rewrite Hr, Hk. cbn [Nat.add]. lia.
Qed.

(** ** The locality weighting kernel *)

Lemma np_max_min_defined (Z : matrix) (mn mx : Q) :
  np_min Z = Ok mn -> np_max Z = Ok mx -> exists a rest, Z = a :: rest.
Proof.
  destruct Z as [|a rest]; [discriminate | eauto].
Qed.

Lemma must_normalize_spec (Z : matrix) (mn mx : Q) :
  np_min Z = Ok mn -> np_max Z = Ok mx ->
  must_normalize Z = Ok (negb (Qeq_bool mx 1) && negb (Qeq_bool mn 0)).
Proof.
  intros Hmn Hmx. unfold must_normalize. rewrite Hmx, Hmn.
  now destruct (Qeq_bool mx 1).
Qed.

(** C5, as the code has it. For a neighbourhood [Z] with anchor row [a],
    minimum [mn] and maximum [mx]: when [mx = 1] or [mn = 0] (either one
    alone suffices) the weights are the kernel of the raw distances to [a];
    otherwise they are the kernel of the distances between the min-max
    scaled rows and the scaled anchor. *)
Theorem normalization_skipped_iff_max_one_or_min_zero
    (kernel : npfloat R -> npfloat R) (metric : frecord -> frecord -> npfloat R)
    (a : record) (rest : matrix) (mn mx : Q) :
  np_min (a :: rest) = Ok mn -> np_max (a :: rest) = Ok mx ->
  let Z := a :: rest in
  let Zn := minmax_scale mn mx Z in
  (mx == 1 \/ mn == 0 ->
     must_normalize Z = Ok false /\ distance_input Z = Ok (as_floats Z)
     /\ calculate_weights kernel Z metric
        = Ok (map (fun r => kernel (metric r (map (@Fin Q) a))) (as_floats Z)))
  /\ (~ (mx == 1 \/ mn == 0) ->
     must_normalize Z = Ok true /\ distance_input Z = Ok Zn
     /\ calculate_weights kernel Z metric
        = Ok (map (fun r => kernel (metric r
                     (map (fun v => np_divide (v - mn) (mx - mn)) a))) Zn)).
Proof.
  intros Hmn Hmx Z Zn.
  split; intros Hcase.
  - assert (Hb : negb (Qeq_bool mx 1) && negb (Qeq_bool mn 0) = false).
    { destruct Hcase as [H|H]; apply Qeq_bool_iff in H; rewrite H; cbn;
        [reflexivity | apply andb_false_r]. }
    pose proof (must_normalize_spec _ Hmn Hmx) as Hdec. rewrite Hb in Hdec.
    assert (Hin : distance_input Z = Ok (as_floats Z))
      by (unfold distance_input; subst Z; now rewrite Hdec).
    repeat split; [assumption | assumption |].
    unfold calculate_weights. rewrite Hin. subst Z.
    cbn [as_floats map cdist_to_first first]. now rewrite map_map.
  - assert (Hb : negb (Qeq_bool mx 1) && negb (Qeq_bool mn 0) = true).
    { destruct (Qeq_bool mx 1) eqn:E1.
      - apply Qeq_bool_iff in E1. tauto.
      - destruct (Qeq_bool mn 0) eqn:E2; [|reflexivity].
        apply Qeq_bool_iff in E2. tauto. }
    pose proof (must_normalize_spec _ Hmn Hmx) as Hdec. rewrite Hb in Hdec.
    assert (Hin : distance_input Z = Ok Zn)
      by (unfold distance_input; subst Z Zn; now rewrite Hdec, Hmn, Hmx).
    repeat split; [assumption | assumption |].
    unfold calculate_weights. rewrite Hin. subst Zn Z.
    cbn [minmax_scale map cdist_to_first first]. now rewrite map_map.
Qed.

(** C5, as stated, fails: a neighbourhood with minimum 0 and maximum 5 does
    not have both bounds at 0 and 1, yet it is not normalized. *)
Lemma normalization_skipped_without_unit_range :
  let Z := [[0; 5]; [2; 3]] in
  np_min Z = Ok 0 /\ np_max Z = Ok 5 /\ ~ (5 == 1)
  /\ must_normalize Z = Ok false /\ distance_input Z = Ok (as_floats Z)
  /\ minmax_scale 0 5 Z <> as_floats Z.
Proof.
  repeat split; try reflexivity; intro H; discriminate H.
Qed.

Lemma normalization_skipped_iff_max_one_or_min_zero_witness :
  let metric := nan_aware (fun r a : record => Q2R (sqeuclidean r a)) in
  np_min [[0; 5]; [2; 3]] = Ok 0 /\ np_max [[0; 5]; [2; 3]] = Ok 5
  /\ calculate_weights (fun d => d) [[0; 5]; [2; 3]] metric
     = Ok [metric [Fin 0; Fin 5] [Fin 0; Fin 5]; metric [Fin 2; Fin 3] [Fin 0; Fin 5]].
Proof.
  intros metric. split; [reflexivity|]. split; [reflexivity|].
  apply (proj1 (@normalization_skipped_iff_max_one_or_min_zero (fun d => d)
                  metric [0; 5] [[2; 3]] 0 5 eq_refl eq_refl)).
  right. reflexivity.
Defined.

(** *** Where the scaling divides by zero *)

Lemma fold_max_spec (vs : list Q) :
  forall v, v <= fold_left Qmax vs v
            /\ Forall (fun u => u <= fold_left Qmax vs v) vs
            /\ (fold_left Qmax vs v == v \/ Exists (fun u => fold_left Qmax vs v == u) vs).
Proof.
  induction vs as [|u vs IH]; intros v; cbn [fold_left].
  - split; [apply Qle_refl|]. split; [constructor | left; reflexivity].
  - destruct (IH (Qmax v u)) as (Hle & Hall & Hatt).
    split; [eapply Qle_trans; [apply Q.le_max_l | exact Hle]|].
    split.
    + constructor; [eapply Qle_trans; [apply Q.le_max_r | exact Hle] | exact Hall].
    + destruct Hatt as [Heq | Hex]; [|right; now apply Exists_cons_tl].
      destruct (Q.max_spec v u) as [[_ Hm] | [_ Hm]].
      * right. apply Exists_cons_hd. now rewrite Heq.
      * left. now rewrite Heq.
Qed.

Lemma fold_min_spec (vs : list Q) :
  forall v, fold_left Qmin vs v <= v
            /\ Forall (fun u => fold_left Qmin vs v <= u) vs
            /\ (fold_left Qmin vs v == v \/ Exists (fun u => fold_left Qmin vs v == u) vs).
Proof.
  induction vs as [|u vs IH]; intros v; cbn [fold_left].
  - split; [apply Qle_refl|]. split; [constructor | left; reflexivity].
  - destruct (IH (Qmin v u)) as (Hle & Hall & Hatt).
    split; [eapply Qle_trans; [exact Hle | apply Q.le_min_l]|].
    split.
    + constructor; [eapply Qle_trans; [exact Hle | apply Q.le_min_r] | exact Hall].
    + destruct Hatt as [Heq | Hex]; [|right; now apply Exists_cons_tl].
      destruct (Q.min_spec v u) as [[_ Hm] | [_ Hm]].
      * left. now rewrite Heq.
      * right. apply Exists_cons_hd. now rewrite Heq.
Qed.

(** [np.max] and [np.min] bound every entry and are attained. *)
Lemma np_max_spec (Z : matrix) (mx : Q) :
  np_max Z = Ok mx ->
  Forall (fun u => u <= mx) (List.concat Z)
  /\ Exists (fun u => mx == u) (List.concat Z).
Proof.
  unfold np_max. destruct (List.concat Z) as [|v vs]; [discriminate|].
  intros [= <-]. destruct (fold_max_spec vs v) as (Hle & Hall & Hatt).
  split; [now constructor|].
  destruct Hatt as [Heq|Hex]; [now apply Exists_cons_hd | now apply Exists_cons_tl].
Qed.

Lemma np_min_spec (Z : matrix) (mn : Q) :
  np_min Z = Ok mn ->
  Forall (fun u => mn <= u) (List.concat Z)
  /\ Exists (fun u => mn == u) (List.concat Z).
Proof.
  unfold np_min. destruct (List.concat Z) as [|v vs]; [discriminate|].
  intros [= <-]. destruct (fold_min_spec vs v) as (Hle & Hall & Hatt).
  split; [now constructor|].
  destruct Hatt as [Heq|Hex]; [now apply Exists_cons_hd | now apply Exists_cons_tl].
Qed.

Lemma finite_values_Fin {A} (l : list A) : finite_values (map (@Fin A) l) = Some l.
Proof.
  induction l as [|a l IH]; cbn; [reflexivity|]. now rewrite IH.
Qed.

Lemma np_divide_finite (a b : Q) : ~ b == 0 -> np_divide a b = Fin (a / b).
Proof.
  intros Hb. unfold np_divide. destruct (Qeq_bool b 0) eqn:E; [|reflexivity].
  apply Qeq_bool_iff in E. contradiction.
Qed.

Lemma np_divide_zero_by_zero (a b : Q) : a == 0 -> b == 0 -> np_divide a b = NaN.
Proof.
  intros Ha Hb. unfold np_divide.
  apply Qeq_bool_iff in Ha, Hb. now rewrite Ha, Hb.
Qed.

(** With distinct bounds the scaled matrix is finite. *)
Lemma minmax_scale_finite (mn mx : Q) (Z : matrix) :
  ~ mn == mx ->
  minmax_scale mn mx Z = as_floats (map (map (fun v => (v - mn) / (mx - mn))) Z).
Proof.
  intros Hne. unfold minmax_scale, as_floats. rewrite map_map.
  apply map_ext. intros r. rewrite map_map. apply map_ext. intros v.
  apply np_divide_finite. intros H. apply Hne.
  apply Qplus_inj_r with (z := - mn). rewrite Qplus_opp_r. symmetry. exact H.
Qed.

(** A matrix whose minimum equals its maximum is constant, and every entry
    of its scaled matrix is [0/0]. *)
Lemma minmax_scale_constant (mn mx : Q) (Z : matrix) :
  np_min Z = Ok mn -> np_max Z = Ok mx -> mn == mx ->
  minmax_scale mn mx Z = map (map (fun _ => NaN)) Z.
Proof.
  intros Hmn Hmx Heq.
  destruct (np_min_spec _ Hmn) as [Hlo _].
  destruct (np_max_spec _ Hmx) as [Hhi _].
  assert (Hall : Forall (fun v => v == mn) (List.concat Z)).
  { rewrite Forall_forall in *. intros v Hv.
    apply Qle_antisym; [|now apply Hlo].
    apply Qle_trans with mx; [now apply Hhi|]. apply Qle_lteq. right. now symmetry. }
  clear Hlo Hhi Hmn Hmx. unfold minmax_scale.
  induction Z as [|r Z IH]; [reflexivity|].
  cbn [List.concat] in Hall. apply Forall_app in Hall as [Hr HZ].
  cbn [map]. f_equal; [|now apply IH].
  clear IH HZ. induction Hr as [|v r Hv _ IHr]; [reflexivity|].
  cbn [map]. f_equal; [|exact IHr].
  apply np_divide_zero_by_zero.
  - rewrite Hv. apply Qplus_opp_r.
  - rewrite <- Heq. apply Qplus_opp_r.
Qed.

(** The rows handed to [cdist]: finite unless the matrix is normalized and
    constant. *)
Lemma distance_input_finite (Z : matrix) (mn mx : Q) :
  np_min Z = Ok mn -> np_max Z = Ok mx ->
  mx == 1 \/ mn == 0 \/ ~ mn == mx ->
  exists Zr : matrix,
    distance_input Z = Ok (as_floats Zr) /\ List.length Zr = List.length Z.
Proof.
  intros Hmn Hmx Hcase. unfold distance_input.
  rewrite (must_normalize_spec _ Hmn Hmx), Hmn, Hmx.
  destruct (negb (Qeq_bool mx 1) && negb (Qeq_bool mn 0)) eqn:Hb.
  - apply andb_prop in Hb as [H1 H0].
    apply negb_true_iff in H1, H0.
    destruct Hcase as [H|[H|H]].
    + apply Qeq_bool_iff in H. congruence.
    + apply Qeq_bool_iff in H. congruence.
    + rewrite (@minmax_scale_finite mn mx Z H). eexists. split; [reflexivity|].
      apply length_map.
  - exists Z. split; reflexivity.
Qed.

Lemma distance_input_constant (Z : matrix) (mn mx : Q) :
  np_min Z = Ok mn -> np_max Z = Ok mx ->
  mn == mx -> ~ mx == 1 -> ~ mn == 0 ->
  distance_input Z = Ok (map (map (fun _ => NaN)) Z).
Proof.
  intros Hmn Hmx Heq H1 H0. unfold distance_input.
  rewrite (must_normalize_spec _ Hmn Hmx), Hmn, Hmx.
  destruct (Qeq_bool mx 1) eqn:E1; [apply Qeq_bool_iff in E1; contradiction|].
  destruct (Qeq_bool mn 0) eqn:E0; [apply Qeq_bool_iff in E0; contradiction|].
  cbn [negb andb]. now rewrite (@minmax_scale_constant mn mx Z Hmn Hmx Heq).
Qed.

(** *** The default kernel *)

Open Scope R_scope.

Lemma kernel_exponent_nonpos (d w : R) : w <> 0 -> - (d ^ 2) / w ^ 2 <= 0.
Proof.
  intros Hw0. unfold Rdiv.
  assert (Hd : 0 <= d ^ 2) by apply pow2_ge_0.
  assert (Hw : 0 < / w ^ 2).
  { apply Rinv_0_lt_compat.
    assert (0 < w * w) by (destruct (Rtotal_order w 0) as [?|[?|?]]; nra). nra. }
  nra.
Qed.

Lemma default_kernel_finite (d w : R) :
  w <> 0 -> default_kernel (Fin d) w = Fin (sqrt (exp (- (d ^ 2) / w ^ 2))).
Proof.
  intros Hw. unfold default_kernel.
  destruct (Req_dec_T w 0); [contradiction | reflexivity].
Qed.

Lemma default_kernel_range (d w : R) :
  w <> 0 -> exists v, default_kernel (Fin d) w = Fin v /\ 0 < v <= 1.
Proof.
  intros Hw. rewrite (default_kernel_finite d Hw). eexists. split; [reflexivity|].
  set (t := - (d ^ 2) / w ^ 2).
  assert (Ht : t <= 0) by now apply kernel_exponent_nonpos.
  assert (Hpos : 0 < exp t) by apply exp_pos.
  assert (Hle : exp t <= 1).
  { destruct Ht as [Hlt | Heq]; [|rewrite Heq, exp_0; lra].
    left. rewrite <- exp_0. now apply exp_increasing. }
  split.
  - now apply sqrt_lt_R0.
  - rewrite <- sqrt_1. apply sqrt_le_1_alt. exact Hle.
Qed.

Lemma default_kernel_at_zero (w : R) : w <> 0 -> default_kernel (Fin 0) w = Fin 1.
Proof.
  intros Hw. rewrite (default_kernel_finite 0 Hw). f_equal.
  replace (- 0 ^ 2 / w ^ 2) with 0 by (unfold Rdiv; ring).
  rewrite exp_0. apply sqrt_1.
Qed.

Lemma default_kernel_decreasing (w d1 d2 : R) :
  w <> 0 -> 0 <= d1 < d2 ->
  exists v1 v2,
    default_kernel (Fin d1) w = Fin v1 /\ default_kernel (Fin d2) w = Fin v2
    /\ v2 < v1.
Proof.
  intros Hw [H0 Hlt]. rewrite !default_kernel_finite by exact Hw.
  eexists. eexists. split; [reflexivity|]. split; [reflexivity|].
  apply sqrt_lt_1_alt. split; [left; apply exp_pos|].
  apply exp_increasing. unfold Rdiv.
  assert (Hw2 : 0 < / w ^ 2).
  { apply Rinv_0_lt_compat.
    assert (0 < w * w) by (destruct (Rtotal_order w 0) as [?|[?|?]]; nra). nra. }
  assert (Hsq : d1 ^ 2 < d2 ^ 2) by nra.
  nra.
Qed.

(** With a zero width the quotient is [0/0] at distance 0 and [-inf]
    elsewhere. *)
Lemma default_kernel_zero_width (d : R) :
  default_kernel (Fin d) 0 = if Req_dec_T d 0 then NaN else Fin 0.
Proof.
  unfold default_kernel. destruct (Req_dec_T 0 0) as [_|H]; [reflexivity|].
  now contradiction H.
Qed.

Lemma default_width_pos (fn : list string) :
  fn <> [] -> 0 < init_kernel_width fn None.
Proof.
  intros Hne. unfold init_kernel_width.
  assert (0 < sqrt (INR (List.length fn))).
  { apply sqrt_lt_R0. apply lt_0_INR. destruct fn; [congruence | cbn; lia]. }
  lra.
Qed.

Close Scope R_scope.


(** The weights of a matrix whose rows reach [cdist] finite, under a metric
    that is finite on finite rows and the default kernel of non-zero width. *)
Lemma finite_weights_in_unit_interval (fn : list string) (kw : option R)
    (Z : matrix) (metric : frecord -> frecord -> npfloat R) (mn mx : Q) :
  np_min Z = Ok mn -> np_max Z = Ok mx ->
  mx == 1 \/ mn == 0 \/ ~ mn == mx ->
  init_kernel_width fn kw <> 0%R ->
  (forall r a : record, exists d, metric (map (@Fin Q) r) (map (@Fin Q) a) = Fin d) ->
  exists ws,
    calculate_weights (init_kernel fn kw None) Z metric = Ok ws
    /\ List.length ws = List.length Z
    /\ Forall (fun w => exists v, w = Fin v /\ (0 < v <= 1)%R) ws.
Proof.
  intros Hmn Hmx Hcase Hw Hfin.
  destruct (@distance_input_finite Z mn mx Hmn Hmx Hcase) as (Zr & Hin & Hlen).
  unfold calculate_weights. rewrite Hin.
  destruct Zr as [|ar Zr].
  - destruct (@np_max_min_defined Z mn mx Hmn Hmx) as (a & rest & ->).
    discriminate Hlen.
  - cbn [as_floats map cdist_to_first first].
    eexists. split; [reflexivity|]. split.
    + cbn [List.length map]. rewrite !length_map. exact Hlen.
    + apply Forall_forall. intros w Hin'. cbn [map] in Hin'.
      destruct Hin' as [<-|Hin'].
      * destruct (Hfin ar ar) as [dv ->].
        unfold init_kernel. now apply default_kernel_range.
      * apply in_map_iff in Hin' as (d & <- & Hd).
        apply in_map_iff in Hd as (fr & <- & Hfr).
        apply in_map_iff in Hfr as (r & <- & _).
        destruct (Hfin r ar) as [dv ->].
        unfold init_kernel. now apply default_kernel_range.
Qed.

Lemma nan_aware_finite (m : record -> record -> R) (r a : record) :
  nan_aware m (map (@Fin Q) r) (map (@Fin Q) a) = Fin (m r a).
Proof.
  unfold nan_aware. now rewrite !finite_values_Fin.
Qed.

(** C6 (code defect). [__calculate_weights__] divides by [np.max(Z) -
    np.min(Z)] without a guard.  On a neighbourhood whose values are all
    equal, and neither 0 nor 1, every entry of the scaled matrix is
    [0/0 = nan]; a metric that computes [nan] from a row holding [nan] then
    returns [nan] distances, and the default kernel returns the weight
    [nan] for every row, whatever the kernel width: no weight lies in
    [0,1].  The first part is the instance with the neighbourhood (5), (5)
    and the Euclidean metric, the second the general case.  The default
    kernel divides by the squared width without a guard as well: with a
    width of 0 the weight is [nan] at distance 0 and 0 at every other
    distance (third part).
    Elsewhere the claim holds.  When [Z] is not constant, or has maximum 1
    or minimum 0, the metric is finite on finite rows and the width is not
    0, every weight is a real number in (0,1] (fourth part); the unset width
    is [0.75 * sqrt(#features)], which is not 0 once there is a feature; and
    for a fixed non-zero width the weight strictly decreases as the
    distance from the anchor grows. *)
Theorem constant_neighbourhood_weights_are_nan :
  calculate_weights (init_kernel ["f0"%string] None None) [[5]; [5]]
    (nan_aware euclidean) = Ok [NaN; NaN]
  /\ (forall fn kw Z metric mn mx,
        np_min Z = Ok mn -> np_max Z = Ok mx ->
        mn == mx -> ~ mx == 1 -> ~ mn == 0 ->
        Forall (fun r => r <> []) Z ->
        (forall r a, In NaN r -> metric r a = NaN) ->
        calculate_weights (init_kernel fn kw None) Z metric
        = Ok (map (fun _ => NaN) Z))
  /\ (forall fn,
        init_kernel fn (Some 0%R) None (Fin 0%R) = NaN
        /\ forall d, d <> 0%R -> init_kernel fn (Some 0%R) None (Fin d) = Fin 0%R)
  /\ (forall fn kw Z metric mn mx,
        np_min Z = Ok mn -> np_max Z = Ok mx ->
        mx == 1 \/ mn == 0 \/ ~ mn == mx ->
        init_kernel_width fn kw <> 0%R ->
        (forall r a : record,
            exists d, metric (map (@Fin Q) r) (map (@Fin Q) a) = Fin d) ->
        exists ws,
          calculate_weights (init_kernel fn kw None) Z metric = Ok ws
          /\ List.length ws = List.length Z
          /\ Forall (fun w => exists v, w = Fin v /\ (0 < v <= 1)%R) ws)
  /\ (forall fn,
        init_kernel_width fn None = (sqrt (INR (List.length fn)) * (3 / 4))%R
        /\ (fn <> [] -> init_kernel_width fn None <> 0%R))
  /\ (forall fn kw d1 d2,
        init_kernel_width fn kw <> 0%R -> (0 <= d1 < d2)%R ->
        exists v1 v2,
          init_kernel fn kw None (Fin d1) = Fin v1
          /\ init_kernel fn kw None (Fin d2) = Fin v2
          /\ (v2 < v1)%R).
Proof.
  split; [reflexivity|]. split; [|split; [|split; [|split]]].
  - intros fn kw Z metric mn mx Hmn Hmx Heq H1 H0 Hrows Hnan.
    unfold calculate_weights.
    rewrite (@distance_input_constant Z mn mx Hmn Hmx Heq H1 H0).
    destruct (@np_max_min_defined Z mn mx Hmn Hmx) as (a & rest & ->).
    cbn [map cdist_to_first first]. f_equal.
    rewrite !map_map. cbn [map].
    assert (Hrow : forall r : record, r <> [] -> In NaN (map (fun _ : Q => @NaN Q) r)).
    { intros [|v r] Hr; [congruence | now left]. }
    f_equal.
    + rewrite Hnan; [reflexivity|]. apply Hrow. now inversion Hrows.
    + apply map_ext_in. intros r Hr. rewrite Hnan; [reflexivity|].
      apply Hrow. inversion Hrows as [|? ? _ Hrest]; subst.
      rewrite Forall_forall in Hrest. now apply Hrest.
  - intros fn. unfold init_kernel, init_kernel_width.
    split.
    + rewrite default_kernel_zero_width.
      destruct (Req_dec_T 0 0) as [_|H]; [reflexivity | now contradiction H].
    + intros d Hd. rewrite default_kernel_zero_width.
      destruct (Req_dec_T d 0); [contradiction | reflexivity].
  - intros fn kw Z metric mn mx Hmn Hmx Hcase Hw Hfin.
    exact (@finite_weights_in_unit_interval fn kw Z metric mn mx Hmn Hmx Hcase Hw Hfin).
  - intros fn. split; [reflexivity|].
    intros Hfn. pose proof (default_width_pos Hfn). lra.
  - intros fn kw d1 d2 Hw Hd. unfold init_kernel.
    now apply default_kernel_decreasing.
Qed.

Lemma constant_neighbourhood_weights_are_nan_witness :
  (exists ws,
      calculate_weights (init_kernel ["age"%string; "income"%string] None None)
        [[0; 5]; [2; 3]] (nan_aware euclidean) = Ok ws
      /\ List.length ws = 2%nat
      /\ Forall (fun w => exists v, w = Fin v /\ (0 < v <= 1)%R) ws)
  /\ calculate_weights (init_kernel ["age"%string; "income"%string] None None)
       [[7; 7]; [7; 7]; [7; 7]] (nan_aware euclidean) = Ok [NaN; NaN; NaN].
Proof.
  pose proof constant_neighbourhood_weights_are_nan
    as (_ & Hnan & _ & Hfin & Hwidth & _).
  split.
  - apply (Hfin ["age"%string; "income"%string] None [[0; 5]; [2; 3]]
             (nan_aware euclidean) 0 5); try reflexivity.
    + right. left. reflexivity.
    + apply (proj2 (Hwidth ["age"%string; "income"%string])). discriminate.
    + intros r a. rewrite nan_aware_finite. eauto.
  - apply (Hnan ["age"%string; "income"%string] None [[7; 7]; [7; 7]; [7; 7]]
             (nan_aware euclidean) 7 7); try reflexivity.
    + intros H. discriminate H.
    + intros H. discriminate H.
    + repeat constructor; discriminate.
    + intros r a Hin. unfold nan_aware.
      assert (Hr : finite_values r = None).
      { clear - Hin. induction r as [|v r IH]; [contradiction|].
        destruct Hin as [->|Hin]; [reflexivity|].
        cbn. destruct v; try reflexivity. now rewrite (IH Hin). }
      now rewrite Hr.
Defined.

Close Scope R_scope.

(** ** Exemplar selection *)

Section SelectorFacts.

Variable C : Collaborators.

Lemma in_enumerate_from {A} (l : list A) :
  forall s i a, In (i, a) (combine (seq s (List.length l)) l) <->
                (s <= i)%nat /\ nth_error l (i - s) = Some a.
Proof.
  induction l as [|b l IH]; intros s i a; cbn [List.length seq combine In].
  - split; [tauto|]. intros [_ H]. destruct (i - s)%nat; discriminate.
  - rewrite IH. split.
    + intros [E | [Hle Hnth]].
      * injection E as <- <-. rewrite Nat.sub_diag. split; [lia | reflexivity].
      * split; [lia|]. replace (i - s)%nat with (S (i - S s)) by lia. exact Hnth.
    + intros [Hle Hnth]. destruct (Nat.eq_dec s i) as [<-|Hne].
      * left. rewrite Nat.sub_diag in Hnth. cbn in Hnth. congruence.
      * right. split; [lia|].
        replace (i - s)%nat with (S (i - S s)) in Hnth by lia. exact Hnth.
Qed.

Lemma in_enumerate {A} (l : list A) (i : nat) (a : A) :
  In (i, a) (enumerate l) <-> nth_error l i = Some a.
Proof.
  unfold enumerate. rewrite in_enumerate_from, Nat.sub_0_r.
  split; [tauto | intros H; split; [lia | exact H]].
Qed.

Lemma in_np_where {A} (p : A -> bool) (l : list A) (i : nat) :
  In i (np_where p l) <-> exists a, nth_error l i = Some a /\ p a = true.
Proof.
  unfold np_where. rewrite in_map_iff. split.
  - intros ([j a] & <- & Hin). apply filter_In in Hin as [Hin Hp].
    apply in_enumerate in Hin. eauto.
  - intros (a & Hnth & Hp). exists (i, a). split; [reflexivity|].
    apply filter_In. split; [now apply in_enumerate | exact Hp].
Qed.

Lemma in_np_delete {A} (l : list A) (idx : list nat) (a : A) :
  In a (np_delete l idx) -> exists i, nth_error l i = Some a /\ ~ In i idx.
Proof.
  unfold np_delete. rewrite in_map_iff.
  intros ([i b] & <- & Hin). apply filter_In in Hin as [Hin Hkeep].
  apply in_enumerate in Hin. exists i. split; [exact Hin|].
  intros Hi. apply negb_true_iff in Hkeep.
  assert (Hex : existsb (Nat.eqb i) idx = true)
    by (apply existsb_exists; exists i; split; [exact Hi | apply Nat.eqb_refl]).
  cbn in Hkeep. congruence.
Qed.

(** Deleting the rows [np.where] selects leaves only rows that fail the test. *)
Lemma np_delete_where {A} (p : A -> bool) (l : list A) (a : A) :
  In a (np_delete l (np_where p l)) -> In a l /\ p a = false.
Proof.
  intros Hin. apply in_np_delete in Hin as (i & Hnth & Hnot).
  split; [eapply nth_error_In; eassumption|].
  destruct (p a) eqn:Hp; [|reflexivity].
  exfalso. apply Hnot. apply in_np_where. eauto.
Qed.

Lemma in_take_rows (a : matrix) (idx : list nat) (r : record) :
  Forall (fun i => (i < List.length a)%nat) idx ->
  In r (take_rows a idx) -> In r a.
Proof.
  intros Hidx Hin. unfold take_rows in Hin.
  apply in_map_iff in Hin as (i & <- & Hi).
  apply nth_In. rewrite Forall_forall in Hidx. now apply Hidx.
Qed.

Lemma np_where_in_range {A} (p : A -> bool) (l : list A) :
  Forall (fun i => (i < List.length l)%nat) (np_where p l).
Proof.
  apply Forall_forall. intros i Hi.
  apply in_np_where in Hi as (a & Hnth & _).
  apply nth_error_Some. congruence.
Qed.

(** *** [argsort] is a sorting permutation of the indices *)

Lemma insert_by_perm (key : nat -> Q) (i : nat) (l : list nat) :
  Permutation (insert_by key i l) (i :: l).
Proof.
  induction l as [|j l IH]; cbn; [reflexivity|].
  destruct (Qle_bool (key i) (key j)); [reflexivity|].
  rewrite IH. apply perm_swap.
Qed.

Lemma argsort_perm (keys : list Q) :
  Permutation (argsort keys) (seq 0 (List.length keys)).
Proof.
  unfold argsort. generalize (seq 0 (List.length keys)) as idx.
  induction idx as [|i idx IH]; cbn; [reflexivity|].
  rewrite insert_by_perm. now apply perm_skip.
Qed.

Lemma insert_by_sorted (key : nat -> Q) (i : nat) (l : list nat) :
  StronglySorted (fun a b => key a <= key b) l ->
  StronglySorted (fun a b => key a <= key b) (insert_by key i l).
Proof.
  induction l as [|j l IH]; intros Hs; cbn.
  - constructor; constructor.
  - apply StronglySorted_inv in Hs as [Hs Hj].
    destruct (Qle_bool (key i) (key j)) eqn:E.
    + apply Qle_bool_iff in E. constructor.
      * constructor; assumption.
      * constructor; [exact E|].
        eapply Forall_impl; [|exact Hj]. cbn. intros b Hb.
        eapply Qle_trans; eassumption.
    + assert (Hji : key j <= key i).
      { destruct (Qlt_le_dec (key j) (key i)) as [H|H]; [now apply Qlt_le_weak|].
        apply Qle_bool_iff in H. congruence. }
      constructor; [now apply IH|].
      apply Forall_forall. intros b Hb.
      apply (Permutation_in _ (insert_by_perm key i l)) in Hb.
      destruct Hb as [<-|Hb]; [exact Hji|].
      rewrite Forall_forall in Hj. now apply Hj.
Qed.

Lemma argsort_sorted (keys : list Q) :
  StronglySorted (fun a b => nth a keys 0 <= nth b keys 0) (argsort keys).
Proof.
  unfold argsort. generalize (seq 0 (List.length keys)) as idx.
  induction idx as [|i idx IH]; cbn; [constructor|].
  now apply insert_by_sorted.
Qed.

Lemma argsort_in_range (keys : list Q) :
  Forall (fun i => (i < List.length keys)%nat) (argsort keys).
Proof.
  apply Forall_forall. intros i Hi.
  apply (Permutation_in _ (argsort_perm keys)) in Hi.
  apply in_seq in Hi. lia.
Qed.

Lemma Forall_firstn_of {A} (P : A -> Prop) (n : nat) (l : list A) :
  Forall P l -> Forall P (firstn n l).
Proof.
  intros H. rewrite <- (firstn_skipn n l) in H.
  now apply Forall_app in H.
Qed.

Lemma in_nearest (x : record) (vals : matrix) (n : nat) (r : record) :
  In r (nearest x vals n) -> In r vals.
Proof.
  unfold nearest. apply in_take_rows.
  apply Forall_firstn_of.
  pose proof (argsort_in_range (map (sqeuclidean x) vals)) as H.
  now rewrite length_map in H.
Qed.

(** *** Removal of the instance *)

Lemma row_equal_of_Forall2 (x r : record) :
  Forall2 Qeq r x -> row_equal x r = true.
Proof.
  unfold row_equal. induction 1 as [|a b r x Hab _ IH]; [reflexivity|].
  cbn. rewrite IH, andb_true_r. now apply Qeq_bool_iff.
Qed.

Lemma contains_of_row_equal (x r : record) (vals : matrix) :
  x <> [] -> List.length r = List.length x ->
  In r vals -> row_equal x r = true -> contains x vals = true.
Proof.
  intros Hx Hlen Hin Heq. unfold contains. apply existsb_exists.
  exists r. split; [exact Hin|].
  destruct x as [|b x]; [congruence|]. destruct r as [|a r]; [discriminate|].
  cbn in Heq |- *. apply andb_true_iff in Heq as [-> _]. reflexivity.
Qed.

Lemma in_exemplar_partition_population (self : LOREM) (t : tree C) (x r : record) :
  In r (exemplar_partition C self t x) -> In r (reference_population self).
Proof.
  unfold exemplar_partition.
  set (pop := reference_population self).
  set (vals := take_rows pop _).
  assert (Hvals : forall r', In r' vals -> In r' pop).
  { intros r'. apply in_take_rows.
    pose proof (np_where_in_range (fun l => Z.eqb l (dt_apply C t x))
                  (map (dt_apply C t) pop)) as H.
    now rewrite length_map in H. }
  destruct (contains x vals); intros Hin; apply Hvals.
  - now apply np_delete_where in Hin.
  - exact Hin.
Qed.

(** No row that survives in the exemplar partition equals [x]. *)
Lemma exemplar_partition_excludes_instance (self : LOREM) (t : tree C) (x r : record) :
  x <> [] ->
  Forall (fun r => List.length r = List.length x) (reference_population self) ->
  In r (exemplar_partition C self t x) -> ~ Forall2 Qeq r x.
Proof.
  intros Hx Hrect Hin Heq.
  pose proof (in_exemplar_partition_population _ _ _ _ Hin) as Hpop.
  apply row_equal_of_Forall2 in Heq.
  revert Hin. unfold exemplar_partition.
  set (pop := reference_population self) in *.
  set (vals := take_rows pop _).
  assert (Hvals : forall r', In r' vals -> In r' pop).
  { intros r'. apply in_take_rows.
    pose proof (np_where_in_range (fun l => Z.eqb l (dt_apply C t x))
                  (map (dt_apply C t) pop)) as H.
    now rewrite length_map in H. }
  destruct (contains x vals) eqn:Hc; intros Hin.
  - apply np_delete_where in Hin as [_ Hne]. congruence.
  - rewrite Forall_forall in Hrect.
    rewrite (@contains_of_row_equal x r vals Hx (Hrect r Hpop) Hin Heq) in Hc.
    discriminate.
Qed.

End SelectorFacts.

(** C7. For an instance [x] with at least one feature and a reference
    population whose rows have the width of [x], neither selector returns an
    exemplar that equals [x] on every feature: not the binary one on any of
    its branches, and not the merged n-ary one. *)
Theorem exemplars_never_contain_instance (C : Collaborators) (self : LOREM)
    (t : tree C) (x : record) (n : nat) :
  x <> [] ->
  Forall (fun r => List.length r = List.length x) (reference_population self) ->
  (forall ex, fst (get_exemplars_cexemplars_binary C self t x n) = Some ex ->
              Forall (fun r => ~ Forall2 Qeq r x) ex)
  /\ Forall (fun r => ~ Forall2 Qeq r x)
       (fst (get_exemplars_cexemplars_supert C self t x n)).
Proof.
  intros Hx Hrect. split.
  - intros ex. unfold get_exemplars_cexemplars_binary.
    destruct (_ && _); [discriminate|].
    destruct (List.length (exemplar_partition C self t x) =? 0)%nat; [discriminate|].
    cbn [fst]. intros [= <-]. apply Forall_forall. intros r Hr.
    apply in_nearest in Hr.
    eapply exemplar_partition_excludes_instance; eassumption.
  - unfold get_exemplars_cexemplars_supert. cbn [fst].
    apply Forall_forall. intros r Hr. apply in_nearest in Hr.
    eapply exemplar_partition_excludes_instance; eassumption.
Qed.

Lemma exemplars_never_contain_instance_witness :
  let population := [[0]; [1]; [2]; [4]; [9]] in
  let self := example_lorem None (BinaryBool false) false population in
  [2] <> ([] : record)
  /\ Forall (fun r => List.length r = 1%nat) (reference_population self)
  /\ Forall (fun r => ~ Forall2 Qeq r [2])
       (fst (get_exemplars_cexemplars_supert (stumps 3 3) self 3 [2] 5)).
Proof.
  split; [discriminate|]. split; [repeat constructor|].
  apply (@exemplars_never_contain_instance (stumps 3 3)
           (example_lorem None (BinaryBool false) false [[0]; [1]; [2]; [4]; [9]])
           3 [2] 5%nat); [discriminate | repeat constructor].
Defined.

(** *** What [nearest] returns *)

Lemma take_all_rows (a : matrix) :
  take_rows a (seq 0 (List.length a)) = a.
Proof.
  unfold take_rows. induction a as [|r a IH]; [reflexivity|].
  cbn [List.length seq map nth]. f_equal.
  rewrite <- seq_shift, map_map. exact IH.
Qed.

Lemma sqeuclidean_nth (x : record) (vals : matrix) :
  forall i, nth i (map (sqeuclidean x) vals) 0 = sqeuclidean x (nth i vals []).
Proof.
  induction vals as [|r vals IH]; intros [|i]; cbn [map nth]; auto;
    destruct x; reflexivity.
Qed.

Lemma StronglySorted_map {A B} (f : A -> B) (le : B -> B -> Prop) (l : list A) :
  StronglySorted (fun a b => le (f a) (f b)) l -> StronglySorted le (map f l).
Proof.
  induction 1 as [|a l _ IH Hall]; cbn; constructor; [exact IH|].
  apply Forall_map. exact Hall.
Qed.

Lemma StronglySorted_firstn {A} (le : A -> A -> Prop) (n : nat) (l : list A) :
  StronglySorted le l -> StronglySorted le (firstn n l).
Proof.
  intros H. revert n. induction H as [|a l _ IH Hall]; intros [|n]; cbn;
    constructor; [apply IH | now apply Forall_firstn_of].
Qed.

Lemma sqeuclidean_le_nearer (x r s : record) :
  sqeuclidean x r <= sqeuclidean x s -> nearer x r s.
Proof.
  intros H. unfold nearer, euclidean.
  apply sqrt_le_1_alt. now apply Qle_Rle.
Qed.

(** [nearest x vals n] is the first [n] rows of a rearrangement of [vals]
    in ascending Euclidean distance from [x]: the [n] rows nearest to [x]. *)
Lemma nearest_is_sorted_prefix (x : record) (vals : matrix) (n : nat) :
  exists ranked,
    Permutation ranked vals
    /\ StronglySorted (nearer x) ranked
    /\ nearest x vals n = firstn n ranked.
Proof.
  set (keys := map (sqeuclidean x) vals).
  exists (take_rows vals (argsort keys)). split; [|split].
  - rewrite <- (take_all_rows vals) at 2. unfold take_rows.
    apply Permutation_map.
    replace (List.length vals) with (List.length keys)
      by (subst keys; apply length_map).
    apply argsort_perm.
  - unfold take_rows. apply StronglySorted_map.
    pose proof (argsort_sorted keys) as Hs.
    induction Hs as [|i l _ IH Hall]; constructor; [exact IH|].
    eapply Forall_impl; [|exact Hall]. cbn. intros j Hij.
    apply sqeuclidean_le_nearer. subst keys.
    now rewrite !sqeuclidean_nth in Hij.
  - unfold nearest, take_rows. fold keys. now rewrite firstn_map.
Qed.

(** The merged n-ary selector does what C4 describes. *)
Lemma supert_selector_returns_top_n (C : Collaborators) (self : LOREM)
    (t : tree C) (x : record) (n : nat) :
  let ex := exemplar_partition C self t x in
  let cex := cexemplar_partition C self t x in
  let m := if (List.length ex <? n)%nat || (List.length cex <? n)%nat
           then Nat.min (List.length cex) (List.length ex) else n in
  exists ranked_ex ranked_cex,
    Permutation ranked_ex ex /\ StronglySorted (nearer x) ranked_ex
    /\ Permutation ranked_cex cex /\ StronglySorted (nearer x) ranked_cex
    /\ get_exemplars_cexemplars_supert C self t x n
       = (firstn m ranked_ex, firstn m ranked_cex)
    /\ List.length (firstn m ranked_ex) = m
    /\ List.length (firstn m ranked_cex) = m.
Proof.
  intros ex cex m.
  destruct (nearest_is_sorted_prefix x ex m) as (rex & Hpe & Hse & He).
  destruct (nearest_is_sorted_prefix x cex m) as (rcex & Hpc & Hsc & Hc).
  exists rex, rcex. repeat split; try assumption.
  - unfold get_exemplars_cexemplars_supert. fold ex cex m. now rewrite He, Hc.
  - rewrite length_firstn, (Permutation_length Hpe). subst m.
    destruct (Nat.ltb_spec (List.length ex) n), (Nat.ltb_spec (List.length cex) n);
      cbn; lia.
  - rewrite length_firstn, (Permutation_length Hpc). subst m.
    destruct (Nat.ltb_spec (List.length ex) n), (Nat.ltb_spec (List.length cex) n);
      cbn; lia.
Qed.

(** C4 (code defect). In [get_exemplars_cexemplars_binary] the last branch
    of the [if / elif / else] chain is a bare [else], so it also takes the
    calls in which both partitions are non-empty and returns every exemplar
    with no counter-exemplars.  Population 0, 1, 2, 4, 9, instance 2, stump at
    3, one exemplar requested: the partitions are {0, 1} and {4, 9}; the
    binary selector returns (1, 0) and [None], while the merged n-ary
    selector returns the nearest record of each, 1 and 4. *)
Theorem binary_selector_returns_all_exemplars_and_no_counter_exemplars :
  let C := stumps 3 3 in
  let self := example_lorem None (BinaryStr "binary_from_dts") false
                [[0]; [1]; [2]; [4]; [9]] in
  exemplar_partition C self 3 [2] = [[0]; [1]]
  /\ cexemplar_partition C self 3 [2] = [[4]; [9]]
  /\ get_exemplars_cexemplars_binary C self 3 [2] 1 = (Some [[1]; [0]], None)
  /\ get_exemplars_cexemplars_supert C self 3 [2] 1 = ([[1]], [[4]]).
Proof. repeat split. Qed.

(** ** The run stabilizer *)

Lemma bind_Ok {A B} (m : M A) (k : A -> M B) (log log' : list fit_call) (b : B) :
  bind m k log = (log', Ok b) ->
  exists a log1, m log = (log1, Ok a) /\ k a log1 = (log', Ok b).
Proof.
  unfold bind. destruct (m log) as [log1 [a|e]]; [eauto | discriminate].
Qed.

Lemma ret_Ok {A} (a b : A) (log log' : list fit_call) :
  ret a log = (log', Ok b) -> a = b /\ log = log'.
Proof. unfold ret. intros [= -> ->]. auto. Qed.

Lemma lift_Ok {A} (r : result A) (b : A) (log log' : list fit_call) :
  lift r log = (log', Ok b) -> r = Ok b /\ log = log'.
Proof. unfold lift. intros [= -> ->]. auto. Qed.

Lemma read_Ok {A} (var : string) (v : option A) (b : A) (log log' : list fit_call) :
  read var v log = (log', Ok b) -> v = Some b.
Proof. destruct v; cbn; [intros [= _ ->]; reflexivity | discriminate]. Qed.

(** Peel the leading binds of a successful computation. *)
Ltac bind_inv H :=
  let a := fresh "a" in
  let l := fresh "log" in
  let H1 := fresh "Hrun" in
  apply bind_Ok in H; destruct H as (a & l & H1 & H).

Tactic Notation "bind_inv_as" hyp(H) ident(a) ident(l) ident(H1) :=
  apply bind_Ok in H; destruct H as (a & l & H1 & H).

Section PipelineFacts.

Variable C : Collaborators.
Variable self : LOREM.

Lemma generate_neighbourhoods_instance x samples use_weights metric runs log log' nb :
  generate_neighbourhoods C self x samples use_weights metric runs log = (log', Ok nb) ->
  nb_x nb = encoded_instance C self x /\ nb_y nb = bound_y C self x.
Proof.
  unfold generate_neighbourhoods, encoded_instance, bound_y. intros H.
  bind_inv H. clear Hrun.
  destruct (encdec self) as [ed|]; bind_inv H;
    (destruct (discretize self);
     [ do 2 bind_inv H; apply ret_Ok in H as [<- _]; auto
     | apply ret_Ok in H as [<- _]; auto ]).
Qed.

Lemma extreme_fidelity_check_Ok superT x y log log' u :
  extreme_fidelity self = true ->
  extreme_fidelity_check C self superT x y log = (log', Ok u) ->
  y = Some (dt_predict C superT x).
Proof.
  unfold extreme_fidelity_check. intros -> H. bind_inv H.
  apply read_Ok in Hrun. subst y. f_equal.
  destruct (Z.eqb_spec (dt_predict C superT x) a) as [E|_]; [now symmetry|].
  discriminate H.
Qed.

Lemma merge_branch_Ok x y use_weights metric Z_list dt_list Z Yb log log' s :
  extreme_fidelity self = true ->
  merge_branch C self x y use_weights metric Z_list dt_list Z Yb log = (log', Ok s) ->
  y = Some (dt_predict C (st_superT s) x).
Proof.
  unfold merge_branch. intros Hext H. do 2 bind_inv H. cbv zeta in H.
  bind_inv_as H s0 l0 Hs. bind_inv_as H u l1 Hchk.
  apply ret_Ok in H as [<- _].
  eapply extreme_fidelity_check_Ok; eassumption.
Qed.

Lemma build_surrogate_merge_mode x y use_weights metric runs prune_tree
    Z_list Yb_list weights_list Zv Ybv log log' s :
  merge_mode self -> extreme_fidelity self = true ->
  build_surrogate C self x y use_weights metric runs prune_tree
    Z_list Yb_list weights_list Zv Ybv log = (log', Ok s) ->
  y = Some (dt_predict C (st_superT s) x).
Proof.
  intros [Hbb Hdts] Hext. unfold build_surrogate. rewrite Hbb. intros H.
  do 3 bind_inv H. rewrite Hdts in H.
  eapply merge_branch_Ok; eassumption.
Qed.

Lemma assemble_dt x exemplar_num (s : surrogate_state C) log log'
    (e : Explanation C) :
  assemble self x exemplar_num s log = (log', Ok e) ->
  dt e = st_superT s /\ fidelity e = st_fidelity s.
Proof.
  unfold assemble. intros H. do 2 bind_inv H.
  destruct (truthy (binary self)); apply ret_Ok in H as [<- _]; auto.
Qed.

(** In a merge mode with extreme fidelity, a call that returns has bound
    [y], and the merged tree it returns predicts [y] for the instance. *)
Lemma explain_merge_mode_Ok x samples use_weights metric runs exemplar_num
    prune_tree log log' e :
  merge_mode self -> extreme_fidelity self = true ->
  explain_instance_stable C self x samples use_weights metric runs exemplar_num
    prune_tree log = (log', Ok e) ->
  bound_y C self x = Some (dt_predict C (dt e) (encoded_instance C self x)).
Proof.
  intros Hmode Hext H. unfold explain_instance_stable in H. do 2 bind_inv H.
  apply generate_neighbourhoods_instance in Hrun as [Hx Hy].
  apply assemble_dt in H as [-> _].
  rewrite <- Hx, <- Hy.
  eapply build_surrogate_merge_mode; eassumption.
Qed.

End PipelineFacts.

(** Where the check is made, in the merge branch, it is enforced: in the
    modes other than 'binary_from_bb' and 'binary_from_dts', with extreme
    fidelity enabled, every call either raises or returns an Explanation
    whose merged tree predicts, for the encoded instance, the black box's
    label of the instance; and the check itself raises whenever the two
    differ. *)
Lemma extreme_fidelity_enforced_in_merge_branch (C : Collaborators)
    (self : LOREM) (x : record) (samples : nat) (use_weights : bool)
    (metric : frecord -> frecord -> npfloat R) (runs exemplar_num : nat)
    (prune_tree : bool) (log : list fit_call) :
  merge_mode self -> extreme_fidelity self = true ->
  match snd (explain_instance_stable C self x samples use_weights metric runs
               exemplar_num prune_tree log) with
  | Ok e => exists ed, encdec self = Some ed
                       /\ dt_predict C (dt e) (enc ed x (bb_predict C x)) = bb_predict C x
  | Err _ => True
  end
  /\ (forall superT x' y log0,
        dt_predict C superT x' <> y ->
        extreme_fidelity_check C self superT x' (Some y) log0
        = (log0, Err SurrogateMismatch)).
Proof.
  intros Hmode Hext. split.
  - destruct (explain_instance_stable _ _ _ _ _ _ _ _ _ _) as [log' [e|err]] eqn:Hrun;
      cbn [snd]; [|exact I].
    apply (explain_merge_mode_Ok _ _ _ _ _ _ _ _ Hmode Hext) in Hrun.
    unfold bound_y, encoded_instance in Hrun.
    destruct (encdec self) as [ed|]; [|discriminate].
    exists ed. split; [reflexivity|]. now injection Hrun.
  - intros superT x' y log0 Hne. unfold extreme_fidelity_check.
    rewrite Hext. cbn.
    destruct (Z.eqb_spec (dt_predict C superT x') y); [contradiction | reflexivity].
Qed.

(** The two modes that fit one tree on pooled data never read
    [self.extreme_fidelity]. *)
Lemma pooled_fit_modes_ignore_extreme_fidelity (C : Collaborators)
    (self : LOREM) (x : record) (samples : nat) (use_weights : bool)
    (metric : frecord -> frecord -> npfloat R) (runs exemplar_num : nat)
    (prune_tree : bool) (log : list fit_call) :
  binary_is (binary self) "binary_from_bb" = true
  \/ binary_is (binary self) "binary_from_dts" = true ->
  explain_instance_stable C (with_extreme_fidelity self true) x samples
    use_weights metric runs exemplar_num prune_tree log
  = explain_instance_stable C (with_extreme_fidelity self false) x samples
      use_weights metric runs exemplar_num prune_tree log.
Proof.
  intros Hmode.
  unfold explain_instance_stable, build_surrogate.
  cbn [binary with_extreme_fidelity].
  destruct (binary_is (binary self) "binary_from_bb") eqn:Hbb; [reflexivity|].
  destruct (binary_is (binary self) "binary_from_dts") eqn:Hdts; [reflexivity|].
  destruct Hmode; discriminate.
Qed.

(** C3 (code defect). The extreme-fidelity check is nested in the [else]
    branch of the test for 'binary_from_dts', so only the modes that merge
    the per-run trees make it; 'binary_from_bb' and 'binary_from_dts' never
    read the flag, and a call in these modes does the same with the flag
    set as with the flag clear (first part).  With a black box that labels
    the instance 1 and a surrogate that predicts 0 for it, extreme fidelity
    enabled and an encoder configured (so that [y] is bound), the call
    returns an Explanation in mode 'binary_from_dts' (second part) and in
    mode 'binary_from_bb' (third part), while the same explainer in the
    default n-ary mode raises (fourth part). *)
Theorem extreme_fidelity_not_checked_in_pooled_fit_modes :
  (forall (C : Collaborators) (self : LOREM) (x : record) (samples : nat)
          (use_weights : bool) (metric : frecord -> frecord -> npfloat R)
          (runs exemplar_num : nat) (prune_tree : bool) (log : list fit_call),
      binary_is (binary self) "binary_from_bb" = true
      \/ binary_is (binary self) "binary_from_dts" = true ->
      explain_instance_stable C (with_extreme_fidelity self true) x samples
        use_weights metric runs exemplar_num prune_tree log
      = explain_instance_stable C (with_extreme_fidelity self false) x samples
          use_weights metric runs exemplar_num prune_tree log)
  /\ (let C := stumps 1 10 in
      let self := example_lorem (Some identity_encdec) (BinaryStr "binary_from_dts")
                    true example_population in
      extreme_fidelity self = true
      /\ exists log e,
           run (explain_instance_stable C self [2] 2 false zero_metric 2 1 false)
           = (log, Ok e)
           /\ dt_predict C (dt e) (enc identity_encdec [2] (bb_predict C [2])) = 0%Z
           /\ bb_predict C [2] = 1%Z)
  /\ (let C := stumps 1 10 in
      let self := example_lorem (Some identity_encdec) (BinaryStr "binary_from_bb")
                    true example_population in
      extreme_fidelity self = true
      /\ exists log e,
           run (explain_instance_stable C self [2] 2 false zero_metric 2 1 false)
           = (log, Ok e)
           /\ dt_predict C (dt e) (enc identity_encdec [2] (bb_predict C [2])) = 0%Z
           /\ bb_predict C [2] = 1%Z)
  /\ (let C := stumps 1 10 in
      let self := example_lorem (Some identity_encdec) (BinaryBool false)
                    true example_population in
      snd (run (explain_instance_stable C self [2] 2 true zero_metric 2 1 false))
      = Err SurrogateMismatch).
Proof.
  split; [exact pooled_fit_modes_ignore_extreme_fidelity|].
  split; [|split; [|reflexivity]].
  - intros C self. split; [reflexivity|].
    set (m := explain_instance_stable C self [2] 2 false zero_metric 2 1 false).
    assert (Hd : option_map (@dt C) (value_of (snd (run m))) = Some 10) by reflexivity.
    destruct (run m) as [log [e|err]]; [|discriminate Hd].
    cbn [snd value_of option_map] in Hd. injection Hd as Hd.
    exists log, e. split; [reflexivity|]. rewrite Hd. split; reflexivity.
  - intros C self. split; [reflexivity|].
    set (m := explain_instance_stable C self [2] 2 false zero_metric 2 1 false).
    assert (Hd : option_map (@dt C) (value_of (snd (run m))) = Some 10) by reflexivity.
    destruct (run m) as [log [e|err]]; [|discriminate Hd].
    cbn [snd value_of option_map] in Hd. injection Hd as Hd.
    exists log, e. split; [reflexivity|]. rewrite Hd. split; reflexivity.
Qed.

Lemma extreme_fidelity_not_checked_in_pooled_fit_modes_witness :
  let C := stumps 1 10 in
  let self := example_lorem (Some identity_encdec) (BinaryStr "binary_from_dts")
                false example_population in
  explain_instance_stable C (with_extreme_fidelity self true) [2] 2 false
    zero_metric 2 1 false []
  = explain_instance_stable C (with_extreme_fidelity self false) [2] 2 false
      zero_metric 2 1 false [].
Proof.
  intros C self.
  apply (proj1 extreme_fidelity_not_checked_in_pooled_fit_modes).
  right. reflexivity.
Defined.

(** C10. In a merge mode (the default n-ary mode among them) with extreme
    fidelity enabled, the local [y] the check compares with is bound exactly
    when an encoder is configured.  Without one, [y] is unbound after the
    neighbourhood stage, the check raises [UnboundLocalError] on reading it,
    and no call returns an Explanation; with one, [y] is the black box's
    label of the raw instance. *)
Theorem extreme_fidelity_needs_encoder (C : Collaborators) (self : LOREM)
    (x : record) (samples : nat) (use_weights : bool)
    (metric : frecord -> frecord -> npfloat R) (runs exemplar_num : nat)
    (prune_tree : bool) (log : list fit_call) :
  merge_mode self -> extreme_fidelity self = true ->
  (encdec self = None ->
     value_of (snd (explain_instance_stable C self x samples use_weights metric
                      runs exemplar_num prune_tree log)) = None
     /\ (forall log1 nb,
           generate_neighbourhoods C self x samples use_weights metric runs log
           = (log1, Ok nb) -> nb_y nb = None)
     /\ (forall superT x' log0,
           extreme_fidelity_check C self superT x' None log0
           = (log0, Err (UnboundLocalError "y"))))
  /\ (forall ed, encdec self = Some ed ->
        forall log1 nb,
          generate_neighbourhoods C self x samples use_weights metric runs log
          = (log1, Ok nb) -> nb_y nb = Some (bb_predict C x)).
Proof.
  intros Hmode Hext. split.
  - intros Hnone. split; [|split].
    + destruct (explain_instance_stable _ _ _ _ _ _ _ _ _ _) as [log' [e|err]] eqn:Hrun;
        [|reflexivity].
      apply (explain_merge_mode_Ok _ _ _ _ _ _ _ _ Hmode Hext) in Hrun.
      unfold bound_y in Hrun. rewrite Hnone in Hrun. discriminate Hrun.
    + intros log1 nb Hgen.
      apply generate_neighbourhoods_instance in Hgen as [_ ->].
      unfold bound_y. now rewrite Hnone.
    + intros superT x' log0. unfold extreme_fidelity_check. now rewrite Hext.
  - intros ed Hsome log1 nb Hgen.
    apply generate_neighbourhoods_instance in Hgen as [_ ->].
    unfold bound_y. now rewrite Hsome.
Qed.

Lemma extreme_fidelity_needs_encoder_witness :
  let self := example_lorem None (BinaryBool false) true example_population in
  snd (run (explain_instance_stable (stumps 3 3) self [2] 2 true zero_metric 2 1 false))
  = Err (UnboundLocalError "y")
  /\ value_of (snd (explain_instance_stable (stumps 3 3) self [2] 2 true zero_metric
                      2 1 false [])) = None.
Proof.
  split; [reflexivity|].
  apply (proj1 (@extreme_fidelity_needs_encoder (stumps 3 3)
           (example_lorem None (BinaryBool false) true example_population)
           [2] 2%nat true zero_metric 2%nat 1%nat false []
           (conj eq_refl eq_refl) eq_refl)).
  reflexivity.
Defined.

(** *** Which data the fidelity is computed on *)

Section FidelityFacts.

Variable C : Collaborators.
Variable self : LOREM.

(** The merge branch scores the merged tree against [Yb] in the n-ary
    mode, and against the tree's own predictions in 'binary_from_nari'. *)
Lemma merge_branch_fidelity x y use_weights metric Z_list dt_list Z Yb log log'
    (s : surrogate_state C) :
  merge_branch C self x y use_weights metric Z_list dt_list Z Yb log = (log', Ok s) ->
  st_Z s = Z
  /\ if binary_is (binary self) "binary_from_nari"
     then st_Yb s = predict_batch C (st_superT s) Z
          /\ exists weights,
               accuracy_score (predict_batch C (st_superT s) Z)
                 (predict_batch C (st_superT s) Z) (Some weights)
               = Ok (st_fidelity s)
     else st_Yb s = Yb
          /\ accuracy_score Yb (predict_batch C (st_superT s) Z) None
             = Ok (st_fidelity s).
Proof.
  unfold merge_branch. intros H. do 2 bind_inv H. cbv zeta in H.
  bind_inv_as H s0 l0 Hs. bind_inv_as H u l1 Hchk.
  apply ret_Ok in H as [<- _].
  destruct (binary_is (binary self) "binary_from_nari");
    bind_inv_as Hs f lf Hf; apply lift_Ok in Hf as [Hf _];
    apply ret_Ok in Hs as [<- _]; cbn; eauto.
Qed.

(** 'binary_from_bb' fits once, on the locals [Z] and [Yb]. *)
Lemma binary_from_bb_fits_locals x y use_weights metric runs prune_tree
    Z_list Yb_list weights_list Zv Ybv log log' (s : surrogate_state C) :
  binary_is (binary self) "binary_from_bb" = true ->
  build_surrogate C self x y use_weights metric runs prune_tree
    Z_list Yb_list weights_list Zv Ybv log = (log', Ok s) ->
  exists Z Yb weights,
    Zv = Some Z /\ Ybv = Some Yb
    /\ log' = log ++ [FitCall Z Yb weights None]
    /\ st_Z s = Z /\ st_Yb s = Yb
    /\ accuracy_score Yb (predict_batch C (st_superT s) Z) weights
       = Ok (st_fidelity s).
Proof.
  intros Hbb. unfold build_surrogate. rewrite Hbb. intros H.
  bind_inv_as H Z l1 HZ. bind_inv_as H weights l2 Hw.
  bind_inv_as H Yb l3 HYb. bind_inv_as H superT l4 Hfit.
  destruct Zv as [Z'|]; [|discriminate HZ]. apply ret_Ok in HZ as [-> ->].
  destruct Ybv as [Yb'|]; [|discriminate HYb]. apply ret_Ok in HYb as [-> ->].
  assert (Hlog : l1 = l3).
  { unfold weights_for in Hw. destruct use_weights.
    - bind_inv_as Hw w l5 Hcw. apply lift_Ok in Hcw as [_ ->].
      now apply ret_Ok in Hw as [_ ->].
    - now apply ret_Ok in Hw as [_ ->]. }
  subst l3. unfold fit, bind, tell, ret in Hfit. injection Hfit as <- <-.
  bind_inv_as H f l5 Hf. apply lift_Ok in Hf as [Hf <-].
  apply ret_Ok in H as [<- <-].
  exists Z, Yb, weights. cbn. repeat split; try reflexivity. exact Hf.
Qed.

End FidelityFacts.

(** *** The agreement rate *)

Lemma count_hits_le (hits : list bool) :
  (List.length (filter (fun b : bool => b) hits) <= List.length hits)%nat.
Proof.
  induction hits as [|[|] hits IH]; cbn; lia.
Qed.

Lemma count_hits_all (hits : list bool) :
  List.length (filter (fun b : bool => b) hits) = List.length hits
  <-> Forall (fun b => b = true) hits.
Proof.
  induction hits as [|b hits IH]; cbn.
  - split; [constructor | reflexivity].
  - pose proof (count_hits_le hits) as Hle. destruct b; cbn.
    + split.
      * intros [= H]. constructor; [reflexivity | now apply IH].
      * intros H. apply Forall_inv_tail in H. f_equal. now apply IH.
    + split; [lia | intros H; apply Forall_inv in H; discriminate].
Qed.

Lemma all_agree_iff_equal (y p : list label) :
  List.length y = List.length p ->
  (Forall (fun b => b = true) (map agree (combine y p)) <-> y = p).
Proof.
  revert p. induction y as [|a y IH]; intros [|b p] Hlen; try discriminate Hlen.
  - split; [reflexivity | constructor].
  - cbn in Hlen. injection Hlen as Hlen. cbn [combine map]. split.
    + intros H. apply Forall_cons_iff in H as [Hab Hrest].
      unfold agree in Hab. cbn in Hab. apply Z.eqb_eq in Hab.
      f_equal; [exact Hab | now apply IH].
    + intros [= -> ->]. constructor.
      * unfold agree. cbn. apply Z.eqb_refl.
      * now apply IH.
Qed.

(** The unweighted agreement rate, which the default n-ary mode uses, lies
    in [0,1] and is 1 exactly when every prediction equals its label. *)
Lemma accuracy_score_unweighted_spec (y p : list label) :
  List.length y = List.length p -> y <> [] ->
  exists f,
    accuracy_score y p None = Ok (Fin f)
    /\ (0 <= f <= 1)%R
    /\ (f = 1%R <-> y = p).
Proof.
  intros Hlen Hne. unfold accuracy_score.
  set (hits := map agree (combine y p)).
  assert (Hhits : hits <> []).
  { subst hits. destruct y as [|a y]; [congruence|].
    destruct p as [|b p]; [discriminate Hlen | discriminate]. }
  exists (INR (List.length (filter (fun b : bool => b) hits))
          / INR (List.length hits))%R.
  split; [destruct hits; [congruence | reflexivity]|].
  pose proof (count_hits_le hits) as Hle.
  assert (Hn : (0 < List.length hits)%nat).
  { subst hits. rewrite length_map, length_combine, <- Hlen, Nat.min_id.
    destruct y; [congruence | cbn; lia]. }
  assert (Hpos : (0 < INR (List.length hits))%R) by now apply lt_0_INR.
  assert (Hc : (0 <= INR (List.length (filter (fun b : bool => b) hits)))%R)
    by apply pos_INR.
  assert (Hcn : (INR (List.length (filter (fun b : bool => b) hits))
                 <= INR (List.length hits))%R) by now apply le_INR.
  split.
  - split.
    + apply Rmult_le_pos; [exact Hc | left; now apply Rinv_0_lt_compat].
    + apply (Rmult_le_reg_r (INR (List.length hits))); [exact Hpos|].
      unfold Rdiv. rewrite Rmult_assoc, Rinv_l by lra. lra.
  - rewrite <- (@all_agree_iff_equal y p Hlen). fold hits.
    rewrite <- count_hits_all. split.
    + intros H. apply INR_eq.
      apply (Rmult_eq_compat_r (INR (List.length hits))) in H.
      unfold Rdiv in H. rewrite Rmult_assoc, Rinv_l in H by lra. lra.
    + intros ->. unfold Rdiv. apply Rinv_r. lra.
Qed.

Lemma sum_R_all_hits (l : list (bool * R)) :
  Forall (fun bw => fst bw = true) l ->
  sum_R (map (fun bw : bool * R => if fst bw then snd bw else 0%R) l)
  = sum_R (map snd l).
Proof.
  induction 1 as [|[b w] l Hb _ IH]; [reflexivity|].
  cbn in Hb. subst b. cbn. now rewrite IH.
Qed.

Lemma sum_R_pos (l : list R) :
  l <> [] -> Forall (fun w => 0 < w)%R l -> (0 < sum_R l)%R.
Proof.
  intros Hne H. induction H as [|w l Hw Hl IH]; [congruence|].
  cbn. destruct l as [|w' l]; [cbn; lra|].
  assert (0 < sum_R (w' :: l))%R by (apply IH; discriminate). lra.
Qed.



(** Scoring a list of labels against itself gives 1, whatever the
    (finite, positive) weights. *)
Lemma accuracy_score_self (ys : list label) (ws : list (npfloat R)) (rs : list R) :
  finite_values ws = Some rs ->
  combine ys rs <> [] -> Forall (fun w => 0 < w)%R rs ->
  accuracy_score ys ys (Some ws) = Ok (Fin 1%R).
Proof.
  intros Hfin Hne Hpos. unfold accuracy_score. rewrite Hfin. cbv zeta.
  set (hw := combine (map agree (combine ys ys)) rs).
  assert (Hall : Forall (fun bw : bool * R => fst bw = true) hw).
  { apply Forall_forall. intros [b w] Hin. cbn.
    apply in_combine_l in Hin. apply in_map_iff in Hin as ([y1 y2] & <- & Hyy).
    unfold agree. cbn. apply Z.eqb_eq.
    clear - Hyy. induction ys as [|y ys IH]; cbn in Hyy; [tauto|].
    destruct Hyy as [[= <- <-]|H]; auto. }
  rewrite (sum_R_all_hits Hall).
  assert (Hden : (0 < sum_R (map snd hw))%R).
  { apply sum_R_pos.
    - subst hw. destruct ys as [|y ys]; [contradiction|].
      destruct rs as [|w rs]; [contradiction|]. discriminate.
    - apply Forall_forall. intros w Hw.
      apply in_map_iff in Hw as ([b w'] & <- & Hin).
      cbn. apply in_combine_r in Hin. rewrite Forall_forall in Hpos. now apply Hpos. }
  destruct (Req_dec_T (sum_R (map snd hw)) 0) as [E|_]; [lra|].
  do 2 f_equal. field. lra.
Qed.

(** Runs a concrete call of a mode that merges the per-run trees up to its
    score, whose outcome rests on a comparison of real numbers. *)
Ltac run_to_score :=
  cbn -[accuracy_score init_kernel assemble merge_branch];
  unfold fit, tell, bind, ret, lift;
  cbn -[accuracy_score init_kernel assemble merge_branch];
  unfold merge_branch, weights_for;
  cbn -[accuracy_score init_kernel assemble score];
  unfold bind, ret, lift;
  cbn -[accuracy_score init_kernel assemble score].

(** C1 (code defect). In mode 'binary_from_nari' the local [Yb] is
    overwritten with the merged tree's own predictions before the score is
    taken, so the fidelity compares the tree with itself.  Black box: class
    1 above 1; merged tree: class 0 up to 10; instance 2, two runs.  The
    call returns fidelity 1 although the merged tree disagrees with the
    black box on every pooled record. *)
Theorem binary_from_nari_fidelity_ignores_black_box :
  let C := stumps 1 10 in
  let self := example_lorem None (BinaryStr "binary_from_nari") false
                example_population in
  exists log e,
    run (explain_instance_stable C self [2] 2 true zero_metric 2 1 false) = (log, Ok e)
    /\ fidelity e = Fin 1%R
    /\ List.concat (multi_generate C [2] 2 2) = [[2]; [3]; [2]; [4]]
    /\ Forall (fun r => dt_predict C (dt e) r = 0%Z /\ bb_predict C r = 1%Z)
         (List.concat (multi_generate C [2] 2 2)).
Proof.
  intros C self.
  assert (Hk : init_kernel ["f0"%string] None None (Fin 0%R) = Fin 1%R).
  { apply default_kernel_at_zero.
    assert (0 < init_kernel_width ["f0"%string] None)%R
      by (apply default_width_pos; discriminate).
    lra. }
  unfold run. run_to_score.
  match goal with
  | |- context [score ?c ?t ?X ?y ?w] =>
      assert (Hsc : score c t X y w = Ok (Fin 1%R))
  end.
  { unfold score. apply accuracy_score_self with (rs := [1; 1; 1; 1]%R).
    - unfold zero_metric. rewrite Hk. reflexivity.
    - discriminate.
    - repeat constructor; lra. }
  rewrite Hsc. cbn -[init_kernel]. unfold ret.
  eexists. eexists. split; [reflexivity|]. split; [reflexivity|].
  split; [reflexivity|]. repeat constructor.
Qed.

(** C2 (code defect). In mode 'binary_from_bb' without a discretizer the
    tree is fitted on the locals [Z] and [Yb] as the loops above left them:
    the last neighbourhood and its labels.  Two runs around instance 2 give
    the neighbourhoods (2, 3) and (2, 4); the single fit receives (2, 4)
    with labels (0, 1), not the four pooled records.  With a discretizer
    configured the same locals hold the pooled data, and the single fit
    receives all four records. *)
Theorem binary_from_bb_fits_last_neighbourhood :
  let C := stumps 3 3 in
  let self := example_lorem None (BinaryStr "binary_from_bb") false
                example_population in
  let m := explain_instance_stable C self [2] 2 false zero_metric 2 1 false in
  let m' := explain_instance_stable C (with_discretizer self identity_discretizer)
              [2] 2 false zero_metric 2 1 false in
  multi_generate C [2] 2 2 = [[[2]; [3]]; [[2]; [4]]]
  /\ fst (run m) = [FitCall [[2]; [4]] [0; 1]%Z None None]
  /\ value_of (snd (run m)) <> None
  /\ [[2]; [4]] <> List.concat (multi_generate C [2] 2 2)
  /\ fst (run m') = [FitCall [[2]; [3]; [2]; [4]] [0; 0; 0; 1]%Z None None].
Proof.
  intros C self m m'. split; [reflexivity|]. split; [reflexivity|]. split; [|split].
  - assert (Hd : option_map (@dt C) (value_of (snd (run m))) = Some 3) by reflexivity.
    intros E. rewrite E in Hd. discriminate Hd.
  - discriminate.
  - reflexivity.
Qed.

(** Where the locals [Z] and [Yb] come from: the pooled data when a
    discretizer is configured, the last loop iteration otherwise. *)
Lemma generate_neighbourhoods_locals (C : Collaborators) (self : LOREM)
    (x : record) (samples : nat) (use_weights : bool)
    (metric : frecord -> frecord -> npfloat R) (runs : nat)
    (log log' : list fit_call) (nb : neighbourhoods) :
  encdec self = None ->
  generate_neighbourhoods C self x samples use_weights metric runs log = (log', Ok nb) ->
  let Z_list := multi_generate C x samples runs in
  let Yb_list := map (map (bb_predict C)) Z_list in
  match discretize self with
  | Some _ => nb_Z nb = Some (List.concat Z_list)
              /\ nb_Yb nb = Some (List.concat Yb_list)
  | None => nb_Z nb = loop_var None Z_list /\ nb_Yb nb = loop_var None Yb_list
  end.
Proof.
  intros Hnone. unfold generate_neighbourhoods. rewrite Hnone. intros H.
  bind_inv_as H u l0 Hml. bind_inv_as H weights_list l1 Hw.
  cbv zeta. destruct (discretize self) as [d|].
  - bind_inv_as H Z l2 HZ. bind_inv_as H Yb l3 HYb.
    apply ret_Ok in H as [<- _]. cbn [nb_Z nb_Yb].
    apply lift_Ok in HZ as [HZ _]. apply lift_Ok in HYb as [HYb _].
    unfold np_concatenate in HZ, HYb.
    destruct (multi_generate C x samples runs); [discriminate HZ|].
    cbn [map] in HYb |- *. injection HZ as <-. injection HYb as <-. auto.
  - apply ret_Ok in H as [<- _]. cbn [nb_Z nb_Yb]. split; [|reflexivity].
    unfold loop_var. destruct (rev (multi_generate C x samples runs)); reflexivity.
Qed.

(** ** 'binary_from_nari' scores the merged tree against itself *)


Section NariFacts.

Variable C : Collaborators.
Variable self : LOREM.
Variable metric : frecord -> frecord -> npfloat R.
Hypothesis weights_pos :
  forall Z ws,
    calculate_weights (kernel self) Z metric = Ok ws ->
    Forall (fun w => exists v, w = Fin v /\ (0 < v)%R) ws.



End NariFacts.

(** The binary selector never returns exemplars and counter-exemplars
    together. *)
Lemma binary_selector_never_returns_both (C : Collaborators) (self : LOREM)
    (t : tree C) (x : record) (n : nat) :
  fst (get_exemplars_cexemplars_binary C self t x n) = None
  \/ snd (get_exemplars_cexemplars_binary C self t x n) = None.
Proof.
  unfold get_exemplars_cexemplars_binary.
  destruct (_ && _); [now left|].
  destruct (_ =? _)%nat; [now left | now right].
Qed.

(** * Further properties of the code *)

(** ** [__calculate_weights__] *)

Lemma concat_map_map {A B} (f : A -> B) (Z : list (list A)) :
  List.concat (map (map f) Z) = map f (List.concat Z).
Proof.
  induction Z as [|r Z IH]; cbn; [reflexivity|].
  now rewrite map_app, IH.
Qed.




(** X3. Min-max scaling of a matrix that is not constant divides by a
    non-zero range: the scaled matrix is finite, every entry lies in [0,1],
    and it is a matrix that [__calculate_weights__] takes as it is (its
    maximum is 1), so scaling is not applied twice. *)
Theorem minmax_scale_unit_range (Z : matrix) (mn mx : Q) :
  np_min Z = Ok mn -> np_max Z = Ok mx -> ~ mn == mx ->
  let Zn := map (map (fun v => (v - mn) / (mx - mn))) Z in
  minmax_scale mn mx Z = as_floats Zn
  /\ Forall (fun u => 0 <= u <= 1) (List.concat Zn)
  /\ must_normalize Zn = Ok false
  /\ distance_input Zn = Ok (as_floats Zn).
Proof.
  intros Hmn Hmx Hne Zn.
  split; [now apply minmax_scale_finite|].
  destruct (np_min_spec _ Hmn) as [Hlo Hlo_att].
  destruct (np_max_spec _ Hmx) as [Hhi Hhi_att].
  assert (Hlt : mn < mx).
  { apply Exists_exists in Hlo_att as (u & Hu & Hequ).
    rewrite Forall_forall in Hhi. specialize (Hhi u Hu).
    destruct (Qlt_le_dec mn mx) as [H|H]; [exact H|].
    exfalso. apply Hne. apply Qle_antisym; [rewrite Hequ; exact Hhi | exact H]. }
  assert (Hpos : 0 < mx - mn) by lra.
  assert (Hrange : Forall (fun u => 0 <= u <= 1) (List.concat Zn)).
  { unfold Zn. rewrite concat_map_map. apply Forall_map.
    rewrite Forall_forall in Hlo, Hhi. apply Forall_forall. intros u Hu.
    specialize (Hlo u Hu). specialize (Hhi u Hu). split.
    - apply Qle_shift_div_l; [exact Hpos | lra].
    - apply Qle_shift_div_r; [exact Hpos | lra]. }
  assert (Hmax : exists m, np_max Zn = Ok m /\ m == 1).
  { unfold np_max at 1. unfold Zn. rewrite concat_map_map.
    destruct (List.concat Z) as [|v vs] eqn:Hc; [inversion Hhi_att|].
    cbn [map]. eexists. split; [reflexivity|].
    set (f := fun v0 : Q => (v0 - mn) / (mx - mn)).
    destruct (fold_max_spec (map f vs) (f v)) as (Hle & Hall & Hatt).
    set (m := fold_left Qmax (map f vs) (f v)) in *.
    assert (Hin : forall u, In u (f v :: map f vs) -> u <= m).
    { intros u [<-|Hu]; [exact Hle|]. rewrite Forall_forall in Hall. now apply Hall. }
    apply Qle_antisym.
    - assert (Hm : Exists (fun u => m == u) (f v :: map f vs)).
      { destruct Hatt; [now apply Exists_cons_hd | now apply Exists_cons_tl]. }
      apply Exists_exists in Hm as (u & Hu & Hequ).
      apply Qle_trans with u; [apply Qle_lteq; right; exact Hequ|].
      pose proof Hrange as Hr. unfold Zn in Hr. rewrite concat_map_map, Hc in Hr.
      rewrite Forall_forall in Hr. now apply Hr.
    - apply Exists_exists in Hhi_att as (u & Hu & Hequ).
      apply Qle_trans with (f u).
      + unfold f. apply Qle_shift_div_l; [exact Hpos|]. rewrite <- Hequ. lra.
      + apply Hin. change (f v :: map f vs) with (map f (v :: vs)). now apply in_map. }
  destruct Hmax as (m & Hm & Hm1).
  assert (Hskip : must_normalize Zn = Ok false).
  { unfold must_normalize. rewrite Hm.
    apply Qeq_bool_iff in Hm1. now rewrite Hm1. }
  split; [exact Hrange|]. split; [exact Hskip|].
  unfold distance_input. now rewrite Hskip.
Qed.

Lemma minmax_scale_unit_range_witness :
  np_min [[2; 4]; [3; 6]] = Ok 2 /\ np_max [[2; 4]; [3; 6]] = Ok 6
  /\ exists Zn : matrix,
       minmax_scale 2 6 [[2; 4]; [3; 6]] = as_floats Zn
       /\ Forall (fun u => 0 <= u <= 1) (List.concat Zn).
Proof.
  split; [reflexivity|]. split; [reflexivity|].
  destruct (@minmax_scale_unit_range [[2; 4]; [3; 6]] 2 6 eq_refl eq_refl)
    as (Hfin & Hrange & _).
  - intros H. discriminate H.
  - eexists. split; [exact Hfin | exact Hrange].
Defined.

(** ** Dictionaries *)

Section DictFacts.

Variables K V : Type.
Variable eqb : K -> K -> bool.
Hypothesis eqb_eq : forall a b, eqb a b = true <-> a = b.

Lemma eqb_same (a : K) : eqb a a = true.
Proof. now apply eqb_eq. Qed.

Lemma dict_get_set (d : list (K * V)) (k k' : K) (v : V) :
  dict_get eqb (dict_set eqb d k v) k'
  = if eqb k k' then Some v else dict_get eqb d k'.
Proof.
  induction d as [|[k0 v0] d IH]; cbn.
  - reflexivity.
  - destruct (eqb k0 k) eqn:E0; cbn.
    + apply eqb_eq in E0. subst k0. now destruct (eqb k k').
    + rewrite IH. destruct (eqb k0 k') eqn:E1; [|reflexivity].
      apply eqb_eq in E1. subst k0. destruct (eqb k k') eqn:E2; [|reflexivity].
      apply eqb_eq in E2. subst k'. now rewrite eqb_same in E0.
Qed.

(** A value read after a run of assignments was assigned by one of them,
    or was there before. *)
Lemma set_all_sound (pairs : list (K * V)) :
  forall d k v,
    dict_get eqb (set_all eqb pairs d) k = Some v ->
    In (k, v) pairs \/ dict_get eqb d k = Some v.
Proof.
  induction pairs as [|[k1 v1] pairs IH]; intros d k v H; cbn in H; [now right|].
  apply IH in H as [H|H]; [left; now right|].
  rewrite dict_get_set in H. cbn [fst snd] in H.
  destruct (eqb k1 k) eqn:E; [|now right].
  apply eqb_eq in E. subst k1. injection H as <-. left. now left.
Qed.

Lemma set_all_other (pairs : list (K * V)) :
  forall d k, ~ In k (map fst pairs) ->
              dict_get eqb (set_all eqb pairs d) k = dict_get eqb d k.
Proof.
  induction pairs as [|[k1 v1] pairs IH]; intros d k Hk; cbn; [reflexivity|].
  cbn in Hk. unfold set_all in IH |- *. cbn [fold_left]. rewrite IH by tauto.
  rewrite dict_get_set. cbn [fst snd].
  destruct (eqb k1 k) eqn:E; [|reflexivity].
  apply eqb_eq in E. tauto.
Qed.

(** When every key is assigned once, each assignment can be read back. *)
Lemma set_all_complete (pairs : list (K * V)) :
  forall d k v,
    NoDup (map fst pairs) -> In (k, v) pairs ->
    dict_get eqb (set_all eqb pairs d) k = Some v.
Proof.
  induction pairs as [|[k1 v1] pairs IH]; intros d k v Hnd Hin; [contradiction|].
  cbn in Hnd. apply NoDup_cons_iff in Hnd as [Hk1 Hnd]. cbn.
  destruct Hin as [[= -> ->]|Hin].
  - fold (set_all eqb pairs (dict_set eqb d k v)).
    rewrite set_all_other by exact Hk1.
    now rewrite dict_get_set, eqb_same.
  - now apply IH.
Qed.

Lemma dict_get_filter_key (p : K -> bool) (d : list (K * V)) (k : K) :
  dict_get eqb (filter (fun kv => p (fst kv)) d) k
  = if p k then dict_get eqb d k else None.
Proof.
  induction d as [|[k0 v0] d IH]; cbn; [now destruct (p k)|].
  destruct (p k0) eqn:P0; cbn.
  - destruct (eqb k0 k) eqn:E; [|exact IH].
    apply eqb_eq in E. subst k0. now rewrite P0.
  - rewrite IH. destruct (eqb k0 k) eqn:E; [|reflexivity].
    apply eqb_eq in E. subst k0. now rewrite P0.
Qed.

End DictFacts.

(** ** [LOREM.__init__]: the inverse feature map *)

Section FeaturesMapFacts.

Variable Key : Type.

Lemma invert_entries_assignments (fm : list (nat * list (Key * nat))) :
  forall inv, fold_left (@invert_entry Key) fm inv
              = set_all Nat.eqb (inverse_assignments fm) inv.
Proof.
  induction fm as [|[idx d] fm IH]; intros inv; [reflexivity|].
  cbn [fold_left inverse_assignments flat_map]. unfold set_all.
  rewrite fold_left_app. fold (set_all Nat.eqb (inverse_assignments fm)).
  rewrite IH. f_equal. unfold invert_entry. cbn [fst snd].
  generalize inv. induction d as [|kv d IHd]; intros inv0; cbn; [reflexivity|].
  now rewrite IHd.
Qed.

Lemma in_inverse_assignments (fm : list (nat * list (Key * nat))) (v idx : nat) :
  In (v, idx) (inverse_assignments fm)
  <-> exists d k, In (idx, d) fm /\ In (k, v) d.
Proof.
  unfold inverse_assignments. rewrite in_flat_map. split.
  - intros ([idx' d] & Hfm & Hin). apply in_map_iff in Hin as ([k v'] & [= <- <-] & Hd).
    eauto.
  - intros (d & k & Hfm & Hd). exists (idx, d). split; [exact Hfm|].
    apply in_map_iff. exists (k, v). auto.
Qed.

End FeaturesMapFacts.

(** X4. [features_map_inv] is absent exactly when [features_map] is [None]
    or empty.  Otherwise every entry [v -> idx] of it comes from an inner dictionary of
    feature [idx] that holds the value [v]; and when no encoded column [v]
    occurs twice in [features_map], it inverts the map: whenever
    [features_map[idx][k] = v], [features_map_inv[v] = idx]. *)
Theorem features_map_inv_inverts (Key : Type)
    (fm : list (nat * list (Key * nat))) :
  features_map_inv (@None (list (nat * list (Key * nat)))) = None
  /\ features_map_inv (Some (@nil (nat * list (Key * nat)))) = None
  /\ match features_map_inv (Some fm) with
     | None => fm = []
     | Some inv =>
         (forall v idx, dict_get Nat.eqb inv v = Some idx ->
                        exists d k, In (idx, d) fm /\ In (k, v) d)
         /\ (NoDup (map fst (inverse_assignments fm)) ->
             forall idx d k v, In (idx, d) fm -> In (k, v) d ->
                               dict_get Nat.eqb inv v = Some idx)
     end.
Proof.
  split; [reflexivity|]. split; [reflexivity|].
  destruct fm as [|e fm]; [reflexivity|]. cbn [features_map_inv].
  rewrite invert_entries_assignments. split.
  - intros v idx H.
    apply (@set_all_sound nat nat Nat.eqb Nat.eqb_eq) in H as [H|H]; [|discriminate H].
    now apply in_inverse_assignments.
  - intros Hnd idx d k v Hfm Hd.
    apply (@set_all_complete nat nat Nat.eqb Nat.eqb_eq); [exact Hnd|].
    apply in_inverse_assignments. eauto.
Qed.

Lemma features_map_inv_inverts_witness :
  let fm := [(0%nat, [("a"%string, 3%nat); ("b"%string, 4%nat)]);
             (2%nat, [("x"%string, 5%nat)])] in
  NoDup (map fst (inverse_assignments fm))
  /\ features_map_inv (Some fm) = Some [(3, 0); (4, 0); (5, 2)]%nat
  /\ dict_get Nat.eqb [(3, 0); (4, 0); (5, 2)]%nat 5%nat = Some 2%nat.
Proof.
  intros fm.
  assert (Hnd : NoDup (map fst (inverse_assignments fm))).
  { cbn. repeat constructor; cbn; intuition discriminate. }
  split; [exact Hnd|]. split; [reflexivity|].
  pose proof (proj2 (proj2 (@features_map_inv_inverts string fm))) as H.
  cbn [features_map_inv fm] in H. destruct H as [_ H].
  apply (H Hnd 2%nat [("x"%string, 5%nat)] "x"%string 5%nat);
    [right; left; reflexivity | left; reflexivity].
Defined.

(** ** [get_feature_importance_binary] *)

Lemma string_eqb_eq (a b : string) : String.eqb a b = true <-> a = b.
Proof. apply String.eqb_eq. Qed.

Lemma map_fst_combine {A B} (l : list A) (l' : list B) :
  map fst (combine l l') = firstn (List.length l') l.
Proof.
  revert l'. induction l as [|a l IH]; intros [|b l']; cbn; try reflexivity.
  now rewrite IH.
Qed.

Lemma nth_error_combine_pair {A B} (l : list A) (l' : list B) (i : nat) (a : A) (b : B) :
  nth_error l i = Some a -> nth_error l' i = Some b -> In (a, b) (combine l l').
Proof.
  revert l' i. induction l as [|a0 l IH]; intros [|b0 l'] [|i] Ha Hb;
    cbn in *; try discriminate.
  - injection Ha as ->. injection Hb as ->. now left.
  - right. eapply IH; eassumption.
Qed.

Lemma in_firstn_index {A} (l : list A) (n i : nat) (a : A) :
  NoDup l -> nth_error l i = Some a -> In a (firstn n l) -> (i < n)%nat.
Proof.
  intros Hnd Hi Hin. apply In_nth_error in Hin as [j Hj].
  assert (Hjn : (j < n)%nat).
  { assert (Hlen : (j < List.length (firstn n l))%nat)
      by (apply nth_error_Some; congruence).
    rewrite length_firstn in Hlen. lia. }
  rewrite nth_error_firstn in Hj.
  destruct (Nat.ltb_spec j n); [|lia].
  assert (i = j); [|lia].
  rewrite NoDup_nth_error in Hnd. apply Hnd.
  - apply nth_error_Some. congruence.
  - congruence.
Qed.

(** [dict(zip(names, values))] on distinct names: name [i] maps to value
    [i], and is missing when there are fewer values than names. *)
Lemma dict_of_zip {V} (names : list string) (values : list V) (i : nat) (name : string) :
  NoDup names -> nth_error names i = Some name ->
  dict_get String.eqb (dict_of String.eqb (combine names values)) name
  = nth_error values i.
Proof.
  intros Hnd Hi.
  change (dict_of String.eqb (combine names values))
    with (set_all String.eqb (combine names values) []).
  destruct (nth_error values i) as [v|] eqn:Hv.
  - apply (@set_all_complete string V String.eqb string_eqb_eq).
    + rewrite map_fst_combine. rewrite <- (firstn_skipn (List.length values) names) in Hnd.
      now apply NoDup_app_remove_r in Hnd.
    + eapply nth_error_combine_pair; eassumption.
  - rewrite (@set_all_other string V String.eqb string_eqb_eq); [reflexivity|].
    rewrite map_fst_combine. intros Hin.
    pose proof (@in_firstn_index _ names (List.length values) i name Hnd Hi Hin) as Hlt.
    apply nth_error_None in Hv. lia.
Qed.

(** X5. The rule importance returned by [get_feature_importance_binary] is
    the global importance dictionary restricted to the features collected
    on the decision path: a feature is in it, with the same value, exactly
    when it is in the global dictionary and on the path.  With distinct feature
    names the global dictionary maps the i-th name to the i-th importance
    (and lacks the names beyond the importances given).  The call fails
    only when collecting the path features fails. *)
Theorem feature_importance_rule_restricts_all (V : Type)
    (feature_names : list string) (leave_id : nat) (node_index_dt : list nat)
    (feature_dt : list Z) (importances : list V) :
  match get_feature_importance_binary feature_names leave_id node_index_dt
          feature_dt importances with
  | Ok (rule, all) =>
      exists att_list,
        path_attributes feature_names feature_dt leave_id node_index_dt = Ok att_list
        /\ (forall k, dict_get String.eqb rule k
                      = if existsb (String.eqb k) att_list
                        then dict_get String.eqb all k else None)
        /\ (NoDup feature_names ->
            forall i name, nth_error feature_names i = Some name ->
                           dict_get String.eqb all name = nth_error importances i)
  | Err e =>
      path_attributes feature_names feature_dt leave_id node_index_dt = Err e
  end.
Proof.
  unfold get_feature_importance_binary.
  destruct (path_attributes _ _ _ _) as [att_list|e]; [|reflexivity].
  exists att_list. split; [reflexivity|]. split.
  - intros k.
    apply (@dict_get_filter_key string V String.eqb string_eqb_eq
             (fun k0 => existsb (String.eqb k0) att_list)).
  - intros Hnd i name Hi. now apply dict_of_zip.
Qed.

Lemma feature_importance_rule_restricts_all_witness :
  let names := ["age"; "income"; "height"]%string in
  NoDup names
  /\ get_feature_importance_binary names 4 [0; 1; 4]%nat [1; 0; -2; -2; -2]%Z
       [1#10; 6#10; 3#10]
     = Ok ([("age"%string, 1#10); ("income"%string, 6#10)],
           [("age"%string, 1#10); ("income"%string, 6#10); ("height"%string, 3#10)])
  /\ dict_get String.eqb
       [("age"%string, 1#10); ("income"%string, 6#10); ("height"%string, 3#10)]
       "income"%string = Some (6#10).
Proof.
  intros names.
  assert (Hnd : NoDup names).
  { repeat constructor; cbn; intuition discriminate. }
  split; [exact Hnd|]. split; [reflexivity|].
  pose proof (@feature_importance_rule_restricts_all Q names 4%nat [0; 1; 4]%nat
                [1; 0; -2; -2; -2]%Z [1#10; 6#10; 3#10]) as H.
  cbn in H. destruct H as (att & _ & _ & H).
  apply (H Hnd 1%nat "income"%string eq_refl).
Defined.

(** X6. The features collected for the rule are those tested at the nodes
    of the decision path that come before the first occurrence of the leaf
    of [x]: the leaf itself and whatever follows it on the path contribute
    nothing.  Collecting fails with [IndexError] exactly when one of those
    nodes has no entry in [tree_.feature], or its feature index has no name
    (Python's negative indices count from the end). *)
Theorem path_attributes_stop_at_leaf (feature_names : list string)
    (feature_dt : list Z) (leave_id : nat) (node_index_dt : list nat) :
  exists before after,
    node_index_dt = before ++ after
    /\ ~ In leave_id before
    /\ (after = [] \/ exists rest, after = leave_id :: rest)
    /\ match path_attributes feature_names feature_dt leave_id node_index_dt with
       | Ok att_list =>
           Forall2 (fun node att =>
                      exists f, py_index feature_dt (Z.of_nat node) = Ok f
                                /\ py_index feature_names f = Ok att)
                   before att_list
       | Err e =>
           e = IndexError
           /\ exists node, In node before
                /\ (py_index feature_dt (Z.of_nat node) = Err IndexError
                    \/ exists f, py_index feature_dt (Z.of_nat node) = Ok f
                                 /\ py_index feature_names f = Err IndexError)
       end.
Proof.
  assert (Hidx : forall A (l : list A) i e, py_index l i = Err e -> e = IndexError).
  { intros A l i e. unfold py_index.
    destruct (_ && _); [destruct (nth_error _ _)|]; congruence. }
  induction node_index_dt as [|node path IH].
  - exists [], []. cbn. repeat split; auto.
  - cbn [path_attributes]. destruct (Nat.eqb_spec leave_id node) as [->|Hne].
    + exists [], (node :: path). cbn. repeat split; eauto.
    + destruct IH as (before & after & Hpath & Hnot & Hafter & Hres).
      exists (node :: before), after. split; [cbn; now rewrite Hpath|].
      split; [intros [H|H]; [congruence | contradiction]|].
      split; [exact Hafter|].
      destruct (py_index feature_dt (Z.of_nat node)) as [f|e] eqn:Hf.
      * destruct (py_index feature_names f) as [att|e] eqn:Ha.
        -- destruct (path_attributes feature_names feature_dt leave_id path) as [atts|e].
           ++ constructor; [eauto | exact Hres].
           ++ destruct Hres as (He & n & Hn & Hbad). split; [exact He|].
              exists n. split; [now right | exact Hbad].
        -- pose proof (Hidx _ _ _ _ Ha) as He. subst e.
           split; [reflexivity|]. exists node. split; [now left|].
           right. exists f. split; [exact Hf | exact Ha].
      * pose proof (Hidx _ _ _ _ Hf) as He. subst e.
        split; [reflexivity|]. exists node. split; [now left|].
        left. exact Hf.
Qed.

(** ** [explain_instance_stable]: what every call does *)

Section CallFacts.

Variable C : Collaborators.
Variable self : LOREM.

Lemma weights_for_log use_weights metric Z log log' r :
  weights_for self use_weights metric Z log = (log', r) -> log' = log.
Proof.
  unfold weights_for, bind, lift, ret. destruct use_weights.
  - destruct (calculate_weights _ _ _); now intros [= <- _].
  - now intros [= <- _].
Qed.

Lemma mapM_weights_for_log use_weights metric (Z_list : list matrix) :
  forall log log' r,
    mapM (weights_for self use_weights metric) Z_list log = (log', r) -> log' = log.
Proof.
  induction Z_list as [|Z Z_list IH]; intros log log' r; cbn [mapM].
  - now intros [= <- _].
  - unfold bind at 1.
    destruct (weights_for self use_weights metric Z log) as [l1 [w|e]] eqn:Hw;
      apply weights_for_log in Hw; subst l1; [|now intros [= <- _]].
    unfold bind at 1.
    destruct (mapM _ Z_list log) as [l2 [ws|e]] eqn:Hm;
      apply IH in Hm; subst l2; now intros [= <- _].
Qed.

(** Without weights every per-run weight is [None]. *)
Lemma mapM_weights_for_unweighted metric (Z_list : list matrix) :
  forall log, mapM (weights_for self false metric) Z_list log
              = (log, Ok (map (fun _ => None) Z_list)).
Proof.
  induction Z_list as [|Z Z_list IH]; intros log; cbn [mapM map]; [reflexivity|].
  unfold bind at 1. cbn [weights_for ret]. unfold bind at 1. now rewrite IH.
Qed.

Lemma mapM_weights_for_length use_weights metric (Z_list : list matrix) :
  forall log log' wl,
    mapM (weights_for self use_weights metric) Z_list log = (log', Ok wl) ->
    List.length wl = List.length Z_list.
Proof.
  induction Z_list as [|Z Z_list IH]; intros log log' wl H; cbn [mapM] in H.
  - now apply ret_Ok in H as [<- _].
  - bind_inv_as H w l1 Hw. bind_inv_as H ws l2 Hm.
    apply ret_Ok in H as [<- _]. cbn. f_equal. eapply IH; eassumption.
Qed.

(** The per-run fits: one logged call per item, none of which can fail. *)
Lemma mapM_fit_log prune (runs_data : list (matrix * (list label * option (list (npfloat R))))) :
  forall log,
    mapM (fun a => fit C (fst a) (fst (snd a)) (snd (snd a)) prune) runs_data log
    = (log ++ map (fun a => FitCall (fst a) (fst (snd a)) (snd (snd a)) prune) runs_data,
       Ok (map (fun a => learn_local_decision_tree C (fst a) (fst (snd a))
                           (snd (snd a)) prune) runs_data)).
Proof.
  induction runs_data as [|a l IH]; intros log; cbn [mapM map].
  - unfold ret. now rewrite app_nil_r.
  - unfold bind at 1. unfold fit at 1. unfold bind at 1, tell, ret at 1.
    unfold bind at 1. rewrite IH. unfold ret. now rewrite <- app_assoc.
Qed.

Lemma generate_neighbourhoods_Ok x samples use_weights metric runs log log' nb :
  generate_neighbourhoods C self x samples use_weights metric runs log = (log', Ok nb) ->
  log' = log
  /\ multi_label self = false
  /\ nb_x nb = encoded_instance C self x
  /\ nb_Yb_list nb = stage_Yb_list C self x samples runs
  /\ List.length (nb_weights_list nb) = List.length (stage_Z_list C self x samples runs)
  /\ (use_weights = false ->
      nb_weights_list nb = map (fun _ => None) (stage_Z_list C self x samples runs))
  /\ match discretize self with
     | Some d =>
         stage_Z_list C self x samples runs <> []
         /\ nb_Z_list nb
            = map (fit_then_transform d (List.concat (stage_Z_list C self x samples runs))
                     (List.concat (stage_Yb_list C self x samples runs)))
                (stage_Z_list C self x samples runs)
         /\ nb_Z nb = Some (List.concat (stage_Z_list C self x samples runs))
         /\ nb_Yb nb = Some (List.concat (stage_Yb_list C self x samples runs))
     | None =>
         nb_Z_list nb = stage_Z_list C self x samples runs
         /\ nb_Z nb = loop_var None (stage_Z_list C self x samples runs)
         /\ nb_Yb nb = loop_var None (stage_Yb_list C self x samples runs)
     end.
Proof.
  unfold generate_neighbourhoods, stage_Yb_list, stage_labelled, stage_Z_list,
    encoded_instance.
  intros H. bind_inv_as H u l0 Hml.
  destruct (multi_label self); [discriminate Hml|]. apply ret_Ok in Hml as [_ <-].
  set (x' := match encdec self with Some ed => enc ed x (bb_predict C x) | None => x end).
  assert (Hx' : multi_generate C
                  (snd (match encdec self with
                        | Some ed => (Some (bb_predict C x), enc ed x (bb_predict C x))
                        | None => (None, x)
                        end)) samples runs
                = multi_generate C x' samples runs)
    by (subst x'; now destruct (encdec self)).
  assert (H' : exists wl l1,
             mapM (weights_for self use_weights metric) (multi_generate C x' samples runs) log
             = (l1, Ok wl)
             /\ (match discretize self with
                 | Some discr =>
                     bind (lift (np_concatenate (multi_generate C x' samples runs)))
                       (fun Z =>
                          bind (lift (np_concatenate
                                  (map (map (bb_predict C))
                                     match encdec self with
                                     | Some ed => map (fun Z0 => np_nan_to_num (dec ed Z0))
                                                    (multi_generate C x' samples runs)
                                     | None => multi_generate C x' samples runs
                                     end)))
                            (fun Yb =>
                               ret {| nb_x := x'; nb_y := bound_y C self x;
                                      nb_Z_list := map (fit_then_transform discr Z Yb)
                                                     (multi_generate C x' samples runs);
                                      nb_Yb_list := map (map (bb_predict C))
                                         match encdec self with
                                         | Some ed => map (fun Z0 => np_nan_to_num (dec ed Z0))
                                                        (multi_generate C x' samples runs)
                                         | None => multi_generate C x' samples runs
                                         end;
                                      nb_weights_list := wl;
                                      nb_Z := Some Z; nb_Yb := Some Yb |}))
                 | None =>
                     ret {| nb_x := x'; nb_y := bound_y C self x;
                            nb_Z_list := multi_generate C x' samples runs;
                            nb_Yb_list := map (map (bb_predict C))
                               match encdec self with
                               | Some ed => map (fun Z0 => np_nan_to_num (dec ed Z0))
                                              (multi_generate C x' samples runs)
                               | None => multi_generate C x' samples runs
                               end;
                            nb_weights_list := wl;
                            nb_Z := loop_var
                                      (loop_var None
                                         match encdec self with
                                         | Some ed => map (fun Z0 => np_nan_to_num (dec ed Z0))
                                                        (multi_generate C x' samples runs)
                                         | None => multi_generate C x' samples runs
                                         end)
                                      (multi_generate C x' samples runs);
                            nb_Yb := loop_var None
                               (map (map (bb_predict C))
                                  match encdec self with
                                  | Some ed => map (fun Z0 => np_nan_to_num (dec ed Z0))
                                                 (multi_generate C x' samples runs)
                                  | None => multi_generate C x' samples runs
                                  end) |}
                 end) l1 = (log', Ok nb)).
  { subst x'. unfold bound_y. destruct (encdec self) as [ed|];
      bind_inv_as H wl l1 Hw; exists wl, l1; split; assumption. }
  clear H Hx'. destruct H' as (wl & l1 & Hw & H).
  pose proof (mapM_weights_for_log _ _ _ _ Hw) as ->.
  pose proof (mapM_weights_for_length _ _ _ _ Hw) as Hlen.
  assert (Hunw : use_weights = false ->
                 wl = map (fun _ => None) (multi_generate C x' samples runs)).
  { intros ->. rewrite mapM_weights_for_unweighted in Hw. now injection Hw as <-. }
  destruct (discretize self) as [d|].
  - bind_inv_as H Z l2 HZ. bind_inv_as H Yb l3 HYb.
    apply lift_Ok in HZ as [HZ <-]. apply lift_Ok in HYb as [HYb <-].
    apply ret_Ok in H as [<- <-]. cbn.
    unfold np_concatenate in HZ, HYb.
    repeat split; auto.
    + intros E. rewrite E in HZ. discriminate HZ.
    + destruct (multi_generate C x' samples runs); [discriminate HZ|].
      injection HZ as <-.
      destruct (map (map (bb_predict C)) _); [discriminate HYb|].
      now injection HYb as <-.
    + destruct (multi_generate C x' samples runs); [discriminate HZ|].
      now injection HZ as <-.
    + destruct (map (map (bb_predict C)) _); [discriminate HYb|].
      now injection HYb as <-.
  - apply ret_Ok in H as [<- <-]. cbn. repeat split; auto.
    unfold loop_var at 1.
    destruct (rev (multi_generate C x' samples runs)) eqn:Hrev.
    + assert (Hnil : multi_generate C x' samples runs = []).
      { apply (f_equal (@rev matrix)) in Hrev. now rewrite rev_involutive in Hrev. }
      rewrite Hnil. now destruct (encdec self).
    + unfold loop_var. now rewrite Hrev.
Qed.

End CallFacts.

Section ModeFacts.

Variable C : Collaborators.
Variable self : LOREM.

Lemma extreme_fidelity_check_log superT x y log log' r :
  extreme_fidelity_check C self superT x y log = (log', r) -> log' = log.
Proof.
  unfold extreme_fidelity_check, bind, read, raise, ret.
  destruct (extreme_fidelity self); [|now intros [= <- _]].
  destruct y as [y|]; [|now intros [= <- _]].
  destruct (negb _); now intros [= <- _].
Qed.

Lemma assemble_log x exemplar_num (s : surrogate_state C) log log' r :
  assemble self x exemplar_num s log = (log', r) -> log' = log.
Proof.
  unfold assemble, bind, lift, ret.
  destruct (first (predict_batch C (st_superT s) (st_Z s))); [|now intros [= <- _]].
  destruct (first (st_Yb s)); [|now intros [= <- _]].
  destruct (truthy (binary self)); now intros [= <- _].
Qed.

(** What [assemble] puts in the Explanation. *)
Lemma assemble_Ok x exemplar_num (s : surrogate_state C) log log'
    (e : Explanation C) :
  assemble self x exemplar_num s log = (log', Ok e) ->
  dt e = st_superT s /\ fidelity e = st_fidelity s
  /\ first (st_Yb s) = Ok (bb_pred e)
  /\ first (predict_batch C (st_superT s) (st_Z s)) = Ok (dt_pred e)
  /\ (if truthy (binary self)
      then (exemplars e, cexemplars e)
           = get_exemplars_cexemplars_binary C self (st_superT s) x exemplar_num
      else (exemplars e, cexemplars e)
           = (Some (fst (get_exemplars_cexemplars_supert C self (st_superT s) x exemplar_num)),
              Some (snd (get_exemplars_cexemplars_supert C self (st_superT s) x exemplar_num)))).
Proof.
  unfold assemble. intros H.
  bind_inv_as H Yc0 l1 HYc. bind_inv_as H Yb0 l2 HYb.
  apply lift_Ok in HYc as [HYc _]. apply lift_Ok in HYb as [HYb _].
  destruct (truthy (binary self)); apply ret_Ok in H as [<- _]; cbn;
    repeat split; auto.
  now destruct (get_exemplars_cexemplars_binary C self (st_superT s) x exemplar_num).
Qed.

Lemma build_surrogate_bb_Ok x y use_weights metric runs prune_tree
    Z_list Yb_list weights_list Zv Ybv log log' (s : surrogate_state C) :
  binary_is (binary self) "binary_from_bb" = true ->
  build_surrogate C self x y use_weights metric runs prune_tree
    Z_list Yb_list weights_list Zv Ybv log = (log', Ok s) ->
  exists Z Yb weights,
    Zv = Some Z /\ Ybv = Some Yb
    /\ (use_weights = false -> weights = None)
    /\ log' = log ++ [FitCall Z Yb weights None]
    /\ exists f,
         score C (learn_local_decision_tree C Z Yb weights None) Z Yb weights = Ok f
         /\ s = {| st_superT := learn_local_decision_tree C Z Yb weights None;
                   st_fidelity := f; st_Z := Z; st_Yb := Yb |}.
Proof.
  intros Hbb. unfold build_surrogate. rewrite Hbb. intros H.
  bind_inv_as H Z l1 HZ. bind_inv_as H weights l2 Hw.
  bind_inv_as H Yb l3 HYb. bind_inv_as H superT l4 Hfit.
  destruct Zv as [Z'|]; [|discriminate HZ]. apply ret_Ok in HZ as [-> ->].
  destruct Ybv as [Yb'|]; [|discriminate HYb]. apply ret_Ok in HYb as [-> ->].
  pose proof (weights_for_log _ _ _ _ _ Hw) as ->.
  unfold fit, bind, tell, ret in Hfit. injection Hfit as <- <-.
  bind_inv_as H f l5 Hf. apply lift_Ok in Hf as [Hf <-].
  apply ret_Ok in H as [<- <-].
  exists Z, Yb, weights. repeat split; eauto.
  intros ->. cbn in Hw. now injection Hw as <-.
Qed.

Lemma build_surrogate_dts_Ok x y use_weights metric runs prune_tree
    Z_list Yb_list weights_list Zv Ybv log log' (s : surrogate_state C) :
  binary_is (binary self) "binary_from_bb" = false ->
  binary_is (binary self) "binary_from_dts" = true ->
  build_surrogate C self x y use_weights metric runs prune_tree
    Z_list Yb_list weights_list Zv Ybv log = (log', Ok s) ->
  exists weights,
    Z_list <> [] /\ Yb_list <> []
    /\ (use_weights = false -> weights = None)
    /\ log' = log ++ per_run_fits runs prune_tree Z_list Yb_list weights_list
                  ++ [FitCall (List.concat Z_list) (List.concat Yb_list) weights None]
    /\ exists f,
         score C (learn_local_decision_tree C (List.concat Z_list)
                    (List.concat Yb_list) weights None)
           (List.concat Z_list) (List.concat Yb_list) weights = Ok f
         /\ s = {| st_superT := learn_local_decision_tree C (List.concat Z_list)
                                  (List.concat Yb_list) weights None;
                   st_fidelity := f;
                   st_Z := List.concat Z_list; st_Yb := List.concat Yb_list |}.
Proof.
  intros Hbb Hdts. unfold build_surrogate. rewrite Hbb. intros H.
  bind_inv_as H dts l1 Hfits. rewrite mapM_fit_log in Hfits. injection Hfits as <- <-.
  bind_inv_as H Z l2 HZ. bind_inv_as H Yb l3 HYb. rewrite Hdts in H.
  apply lift_Ok in HZ as [HZ <-]. apply lift_Ok in HYb as [HYb <-].
  bind_inv_as H weights l4 Hw. bind_inv_as H superT l5 Hfit.
  pose proof (weights_for_log _ _ _ _ _ Hw) as ->.
  unfold fit, bind, tell, ret in Hfit. injection Hfit as <- <-.
  bind_inv_as H f l6 Hf. apply lift_Ok in Hf as [Hf <-].
  apply ret_Ok in H as [<- <-].
  unfold np_concatenate in HZ, HYb. unfold np_nan_to_num in *.
  destruct Z_list as [|Z0 Zs]; [discriminate HZ|]. injection HZ as <-.
  destruct Yb_list as [|Y0 Ys]; [discriminate HYb|]. injection HYb as <-.
  exists weights. split; [discriminate|]. split; [discriminate|].
  split; [intros ->; cbn in Hw; now injection Hw as <-|].
  split; [|exists f; split; [exact Hf | reflexivity]].
  unfold per_run_fits. now rewrite <- app_assoc.
Qed.

Lemma build_surrogate_merge_Ok x y use_weights metric runs prune_tree
    Z_list Yb_list weights_list Zv Ybv log log' (s : surrogate_state C) :
  binary_is (binary self) "binary_from_bb" = false ->
  binary_is (binary self) "binary_from_dts" = false ->
  build_surrogate C self x y use_weights metric runs prune_tree
    Z_list Yb_list weights_list Zv Ybv log = (log', Ok s) ->
  Z_list <> [] /\ Yb_list <> []
  /\ log' = log ++ per_run_fits runs prune_tree Z_list Yb_list weights_list
  /\ exists dt_list l,
       merge_branch C self x y use_weights metric Z_list dt_list
         (List.concat Z_list) (List.concat Yb_list) l = (log', Ok s).
Proof.
  intros Hbb Hdts. unfold build_surrogate. rewrite Hbb. intros H.
  bind_inv_as H dts l1 Hfits. rewrite mapM_fit_log in Hfits. injection Hfits as <- <-.
  bind_inv_as H Z l2 HZ. bind_inv_as H Yb l3 HYb. rewrite Hdts in H.
  apply lift_Ok in HZ as [HZ <-]. apply lift_Ok in HYb as [HYb <-].
  unfold np_concatenate in HZ, HYb. unfold np_nan_to_num in *.
  destruct Z_list as [|Z0 Zs]; [discriminate HZ|]. injection HZ as <-.
  destruct Yb_list as [|Y0 Ys]; [discriminate HYb|]. injection HYb as <-.
  split; [discriminate|]. split; [discriminate|].
  assert (Hlog : log' = log ++ per_run_fits runs prune_tree (Z0 :: Zs) (Y0 :: Ys) weights_list).
  { pose proof H as H'. unfold merge_branch in H'.
    bind_inv_as H' wl l4 Hwl. bind_inv_as H' weights l5 Hcat.
    apply mapM_weights_for_log in Hwl as ->. apply lift_Ok in Hcat as [_ <-].
    cbv zeta in H'.
    bind_inv_as H' s0 l6 Hs. bind_inv_as H' u l7 Hchk.
    apply extreme_fidelity_check_log in Hchk as ->.
    apply ret_Ok in H' as [_ <-].
    destruct (binary_is (binary self) "binary_from_nari");
      bind_inv_as Hs f l8 Hf; apply lift_Ok in Hf as [_ <-];
      now apply ret_Ok in Hs as [_ <-]. }
  split; [exact Hlog|]. eauto.
Qed.

End ModeFacts.

(** X7. A multi-label explainer fails at once: the call raises before the
    black box, the generator or the surrogate is used, whatever the other
    arguments are. *)
Theorem multi_label_fails_fast (C : Collaborators) (self : LOREM) (x : record)
    (samples : nat) (use_weights : bool) (metric : frecord -> frecord -> npfloat R)
    (runs exemplar_num : nat) (prune_tree : bool) (log : list fit_call) :
  multi_label self = true ->
  explain_instance_stable C self x samples use_weights metric runs exemplar_num
    prune_tree log = (log, Err NotImplemented).
Proof.
  intros Hml. unfold explain_instance_stable, generate_neighbourhoods, bind.
  now rewrite Hml.
Qed.

Lemma multi_label_fails_fast_witness :
  let self := {| encdec := None; dataset_values := []; dataset_labels := [];
                 K := []; feature_names := ["f0"%string]; multi_label := true;
                 binary := BinaryBool false; discretize := None;
                 extreme_fidelity := false;
                 kernel := init_kernel ["f0"%string] None None |} in
  run (explain_instance_stable (stumps 3 3) self [2] 2 true zero_metric 2 1 false)
  = ([], Err NotImplemented).
Proof.
  intros self.
  apply (@multi_label_fails_fast (stumps 3 3) self [2] 2%nat true zero_metric
           2%nat 1%nat false [] eq_refl).
Defined.

(** X8. In the modes that merge the per-run trees (the default n-ary mode
    and 'binary_from_nari'), a call with [use_weights=False] never returns
    an Explanation: the per-run weights are all [None] and
    [np.concatenate(weights_list)] raises. *)
Theorem unweighted_call_never_returns_in_merge_modes (C : Collaborators)
    (self : LOREM) (x : record) (samples : nat)
    (metric : frecord -> frecord -> npfloat R) (runs exemplar_num : nat)
    (prune_tree : bool) (log : list fit_call) :
  merge_mode self ->
  value_of (snd (explain_instance_stable C self x samples false metric runs
                   exemplar_num prune_tree log)) = None.
Proof.
  intros [Hbb Hdts].
  destruct (explain_instance_stable _ _ _ _ _ _ _ _ _ _) as [log' [e|err]] eqn:H;
    [|reflexivity].
  exfalso. unfold explain_instance_stable in H.
  bind_inv_as H nb l1 Hgen. bind_inv_as H s l2 Hbuild.
  eapply build_surrogate_merge_Ok in Hbuild; [|exact Hbb|exact Hdts].
  destruct Hbuild as (HZ & _ & _ & dts & l & Hm).
  unfold merge_branch in Hm. bind_inv_as Hm wl l3 Hwl.
  rewrite mapM_weights_for_unweighted in Hwl. injection Hwl as <- <-.
  bind_inv_as Hm weights l4 Hcat. apply lift_Ok in Hcat as [Hcat _].
  destruct (nb_Z_list nb) as [|Z0 Zs]; [now apply HZ|].
  discriminate Hcat.
Qed.

Lemma unweighted_call_never_returns_in_merge_modes_witness :
  let self := example_lorem None (BinaryBool false) false example_population in
  snd (run (explain_instance_stable (stumps 3 3) self [2] 2 false zero_metric 2 1 false))
  = Err (ValueError "zero-dimensional arrays cannot be concatenated")
  /\ value_of (snd (explain_instance_stable (stumps 3 3) self [2] 2 false zero_metric
                      2 1 false [])) = None.
Proof.
  split; [reflexivity|].
  apply (@unweighted_call_never_returns_in_merge_modes (stumps 3 3)
           (example_lorem None (BinaryBool false) false example_population)
           [2] 2%nat zero_metric 2%nat 1%nat false [] (conj eq_refl eq_refl)).
Defined.

(** X9. When the generator returns no neighbourhood (for instance with
    [runs=0]), no mode returns an Explanation: 'binary_from_bb' reads the
    unassigned local [Z] (or fails to concatenate for the discretizer), the
    other modes fail to concatenate the empty list. *)
Theorem no_neighbourhood_never_returns (C : Collaborators) (self : LOREM)
    (x : record) (samples : nat) (use_weights : bool)
    (metric : frecord -> frecord -> npfloat R) (runs exemplar_num : nat)
    (prune_tree : bool) (log : list fit_call) :
  stage_Z_list C self x samples runs = [] ->
  value_of (snd (explain_instance_stable C self x samples use_weights metric runs
                   exemplar_num prune_tree log)) = None.
Proof.
  intros Hempty.
  destruct (explain_instance_stable _ _ _ _ _ _ _ _ _ _) as [log' [e|err]] eqn:H;
    [|reflexivity].
  exfalso. unfold explain_instance_stable in H.
  bind_inv_as H nb l1 Hgen. bind_inv_as H s l2 Hbuild.
  apply generate_neighbourhoods_Ok in Hgen as (_ & _ & _ & _ & _ & _ & Hd).
  rewrite Hempty in Hd.
  destruct (discretize self) as [d|]; [now destruct Hd as [Hd _]|].
  destruct Hd as (HZl & HZ & _).
  destruct (binary_is (binary self) "binary_from_bb") eqn:Hbb.
  - eapply build_surrogate_bb_Ok in Hbuild; [|exact Hbb].
    destruct Hbuild as (Z & Yb & w & HZv & _).
    rewrite HZ in HZv. discriminate HZv.
  - unfold build_surrogate in Hbuild. rewrite Hbb, HZl in Hbuild.
    bind_inv_as Hbuild dts l3 Hfits. bind_inv_as Hbuild Z l4 HZc.
    discriminate HZc.
Qed.

Lemma no_neighbourhood_never_returns_witness :
  let self := example_lorem None (BinaryStr "binary_from_bb") false example_population in
  stage_Z_list (stumps 3 3) self [2] 2 0 = []
  /\ snd (run (explain_instance_stable (stumps 3 3) self [2] 2 false zero_metric 0 1 false))
     = Err (UnboundLocalError "Z")
  /\ value_of (snd (explain_instance_stable (stumps 3 3) self [2] 2 false zero_metric
                      0 1 false [])) = None.
Proof.
  split; [reflexivity|]. split; [reflexivity|].
  apply (@no_neighbourhood_never_returns (stumps 3 3)
           (example_lorem None (BinaryStr "binary_from_bb") false example_population)
           [2] 2%nat false zero_metric 0%nat 1%nat false [] eq_refl).
Defined.

Lemma length_per_run_fits (runs : nat) (prune_tree : bool) (Z_list : list matrix)
    (Yb_list : list (list label)) (weights_list : list (option (list (npfloat R)))) (n : nat) :
  List.length Z_list = n -> List.length Yb_list = n -> List.length weights_list = n ->
  List.length (per_run_fits runs prune_tree Z_list Yb_list weights_list) = Nat.min runs n.
Proof.
  intros HZ HY HW. unfold per_run_fits.
  rewrite length_map, length_firstn, !length_combine. lia.
Qed.

Lemma fit_data_per_run_fits (runs : nat) (prune_tree : bool) (Z_list : list matrix)
    (Yb_list : list (list label)) (weights_list : list (option (list (npfloat R)))) :
  List.length Yb_list = List.length Z_list ->
  List.length weights_list = List.length Z_list ->
  map fit_data (per_run_fits runs prune_tree Z_list Yb_list weights_list)
  = firstn runs Z_list
  /\ Forall (fun c => fit_prune c = Some prune_tree
                      /\ In (fit_data c, fit_labels c) (combine Z_list Yb_list))
       (per_run_fits runs prune_tree Z_list Yb_list weights_list).
Proof.
  intros HY HW. unfold per_run_fits. split.
  - rewrite map_map. cbn [fit_data].
    change (fun x : matrix * (list label * option (list (npfloat R))) => fst x)
      with (@fst matrix (list label * option (list (npfloat R)))).
    rewrite <- firstn_map, map_fst_combine, length_combine, HY, HW, Nat.min_id.
    now rewrite firstn_all.
  - apply Forall_map. apply Forall_forall. intros [Z [Yb w]] Hin. cbn.
    split; [reflexivity|].
    assert (Hin' : In (Z, (Yb, w)) (combine Z_list (combine Yb_list weights_list))).
    { rewrite <- (firstn_skipn runs). apply in_or_app. now left. }
    clear Hin HY HW. revert Yb_list weights_list Hin'.
    induction Z_list as [|Z0 Zs IH]; intros [|Y0 Ys] ws Hin; cbn in Hin; try contradiction.
    destruct ws as [|w0 ws]; cbn in Hin; [contradiction|].
    destruct Hin as [[= -> -> ->]|Hin]; [now left|]. right. eapply IH; eassumption.
Qed.

Lemma loop_var_map {A B} (f : A -> B) (l : list A) :
  loop_var None (map f l) = option_map f (loop_var None l).
Proof.
  unfold loop_var. rewrite <- map_rev. now destruct (rev l).
Qed.

Lemma loop_var_last {A} (l : list A) (a : A) :
  loop_var None l = Some a -> exists init, l = init ++ [a].
Proof.
  unfold loop_var. destruct (rev l) as [|b t] eqn:Hrev; [discriminate|].
  intros [= ->]. exists (rev t).
  apply (f_equal (@rev A)) in Hrev. rewrite rev_involutive in Hrev. exact Hrev.
Qed.

Lemma stage_lengths (C : Collaborators) (self : LOREM) (x : record) (samples runs : nat) :
  List.length (stage_Yb_list C self x samples runs)
  = List.length (stage_Z_list C self x samples runs).
Proof.
  unfold stage_Yb_list, stage_labelled. rewrite length_map.
  destruct (encdec self); [apply length_map | reflexivity].
Qed.

(** X10. A call that returns has only appended to the log of surrogate
    fits: one fit in 'binary_from_bb'; otherwise one fit per run, the runs
    being cut at the number of neighbourhoods the generator returned, plus
    one pooled fit in 'binary_from_dts'. *)
Theorem surrogate_fits_per_mode (C : Collaborators) (self : LOREM) (x : record)
    (samples : nat) (use_weights : bool) (metric : frecord -> frecord -> npfloat R)
    (runs exemplar_num : nat) (prune_tree : bool) (log : list fit_call) :
  match explain_instance_stable C self x samples use_weights metric runs
          exemplar_num prune_tree log with
  | (log', Ok _) =>
      exists fits,
        log' = log ++ fits
        /\ List.length fits
           = if binary_is (binary self) "binary_from_bb" then 1%nat
             else (Nat.min runs (List.length (stage_Z_list C self x samples runs))
                   + if binary_is (binary self) "binary_from_dts" then 1 else 0)%nat
  | (_, Err _) => True
  end.
Proof.
  destruct (explain_instance_stable _ _ _ _ _ _ _ _ _ _) as [log' [e|err]] eqn:H;
    [|exact I].
  unfold explain_instance_stable in H.
  bind_inv_as H nb l1 Hgen. bind_inv_as H s l2 Hbuild.
  apply assemble_log in H as ->.
  apply generate_neighbourhoods_Ok in Hgen as (-> & _ & _ & HYb & HW & _ & Hd).
  assert (HZlen : List.length (nb_Z_list nb)
                  = List.length (stage_Z_list C self x samples runs)).
  { destruct (discretize self); [destruct Hd as (_ & -> & _); apply length_map
                                | now destruct Hd as (-> & _)]. }
  assert (HYlen : List.length (nb_Yb_list nb)
                  = List.length (stage_Z_list C self x samples runs))
    by (rewrite HYb; apply stage_lengths).
  destruct (binary_is (binary self) "binary_from_bb") eqn:Hbb.
  - eapply build_surrogate_bb_Ok in Hbuild; [|exact Hbb].
    destruct Hbuild as (Z & Yb & w & _ & _ & _ & -> & _). eauto.
  - destruct (binary_is (binary self) "binary_from_dts") eqn:Hdts.
    + eapply build_surrogate_dts_Ok in Hbuild; [|exact Hbb|exact Hdts].
      destruct Hbuild as (w & _ & _ & _ & -> & _).
      eexists. split; [reflexivity|].
      rewrite length_app, (@length_per_run_fits runs prune_tree _ _ _ _ HZlen HYlen HW).
      reflexivity.
    + eapply build_surrogate_merge_Ok in Hbuild; [|exact Hbb|exact Hdts].
      destruct Hbuild as (_ & _ & -> & _).
      eexists. split; [reflexivity|].
      rewrite (@length_per_run_fits runs prune_tree _ _ _ _ HZlen HYlen HW). lia.
Qed.

(** X11. In mode 'binary_from_dts' without a discretizer, a call that
    returns has first fitted one tree per run, each on its own neighbourhood
    and labels with the caller's [prune_tree], and then one tree on the
    concatenation of all neighbourhoods with the concatenated black-box
    labels; the Explanation holds that last tree, and its fidelity is the
    tree's (weighted) agreement with those labels on the pooled data.  The
    per-run trees are not used. *)
Theorem binary_from_dts_fits_pooled_data (C : Collaborators) (self : LOREM)
    (x : record) (samples : nat) (use_weights : bool)
    (metric : frecord -> frecord -> npfloat R) (runs exemplar_num : nat)
    (prune_tree : bool) (log : list fit_call) :
  binary self = BinaryStr "binary_from_dts" -> discretize self = None ->
  let Z_list := stage_Z_list C self x samples runs in
  let Yb_list := stage_Yb_list C self x samples runs in
  match explain_instance_stable C self x samples use_weights metric runs
          exemplar_num prune_tree log with
  | (log', Ok e) =>
      exists per_run weights,
        log' = log ++ per_run
                   ++ [FitCall (List.concat Z_list) (List.concat Yb_list) weights None]
        /\ map fit_data per_run = firstn runs Z_list
        /\ Forall (fun c => fit_prune c = Some prune_tree
                            /\ In (fit_data c, fit_labels c) (combine Z_list Yb_list))
             per_run
        /\ dt e = learn_local_decision_tree C (List.concat Z_list)
                    (List.concat Yb_list) weights None
        /\ accuracy_score (List.concat Yb_list)
             (map (dt_predict C (dt e)) (List.concat Z_list)) weights
           = Ok (fidelity e)
        /\ (use_weights = false -> weights = None)
  | (_, Err _) => True
  end.
Proof.
  intros Hmode Hnodiscr. cbv zeta.
  destruct (explain_instance_stable _ _ _ _ _ _ _ _ _ _) as [log' [e|err]] eqn:H;
    [|exact I].
  unfold explain_instance_stable in H.
  bind_inv_as H nb l1 Hgen. bind_inv_as H s l2 Hbuild.
  pose proof (assemble_log _ _ _ _ _ H) as ->.
  apply assemble_Ok in H as (Hdt & Hfid & _).
  apply generate_neighbourhoods_Ok in Hgen as (-> & _ & _ & HYb & HW & _ & Hd).
  rewrite Hnodiscr in Hd. destruct Hd as (HZ & _).
  eapply build_surrogate_dts_Ok in Hbuild;
    [|rewrite Hmode; reflexivity|rewrite Hmode; reflexivity].
  destruct Hbuild as (w & _ & _ & Hw & -> & f & Hf & ->).
  rewrite HZ, HYb. rewrite HZ, HYb in Hdt, Hf. cbn in Hdt, Hfid.
  destruct (@fit_data_per_run_fits runs prune_tree (stage_Z_list C self x samples runs)
              (stage_Yb_list C self x samples runs) (nb_weights_list nb))
    as [Hdata Hall]; [apply stage_lengths | exact HW |].
  exists (per_run_fits runs prune_tree (stage_Z_list C self x samples runs)
            (stage_Yb_list C self x samples runs) (nb_weights_list nb)), w.
  split; [reflexivity|]. split; [exact Hdata|]. split; [exact Hall|].
  split; [exact Hdt|]. split; [|exact Hw].
  rewrite Hfid, Hdt. exact Hf.
Qed.

Lemma binary_from_dts_fits_pooled_data_witness :
  let C := stumps 3 3 in
  let self := example_lorem None (BinaryStr "binary_from_dts") false example_population in
  fst (run (explain_instance_stable C self [2] 2 false zero_metric 2 1 true))
  = [FitCall [[2]; [3]] [0; 0]%Z None (Some true);
     FitCall [[2]; [4]] [0; 1]%Z None (Some true);
     FitCall [[2]; [3]; [2]; [4]] [0; 0; 0; 1]%Z None None]
  /\ match explain_instance_stable C self [2] 2 false zero_metric 2 1 true [] with
     | (log', Ok e) =>
         exists per_run weights,
           log' = [] ++ per_run ++ [FitCall [[2]; [3]; [2]; [4]] [0; 0; 0; 1]%Z weights None]
           /\ map fit_data per_run = [[[2]; [3]]; [[2]; [4]]]
     | (_, Err _) => True
     end.
Proof.
  intros C self. split; [reflexivity|].
  pose proof (@binary_from_dts_fits_pooled_data C self [2] 2%nat false zero_metric
                2%nat 1%nat true [] eq_refl eq_refl) as H.
  cbv zeta in H.
  destruct (explain_instance_stable C self [2] 2 false zero_metric 2 1 true [])
    as [log' [e|err]]; [|exact I].
  destruct H as (per_run & w & Hlog & Hdata & _).
  exists per_run, w. split; [exact Hlog | exact Hdata].
Defined.

Lemma map_eq_iff_Forall {A B} (f g : A -> B) (l : list A) :
  map f l = map g l <-> Forall (fun a => f a = g a) l.
Proof.
  induction l as [|a l IH]; cbn.
  - split; [constructor | reflexivity].
  - split.
    + intros [= Ha Hl]. constructor; [exact Ha | now apply IH].
    + intros H. apply Forall_cons_iff in H as [Ha Hl]. f_equal; [exact Ha | now apply IH].
Qed.

(** X12. In the default n-ary mode (no 'binary_from_*' string) without
    encoder and discretizer, the fidelity of a returned Explanation is the
    share of pooled neighbourhood records on which the merged tree agrees
    with the black box: it lies in [0,1] and is 1 exactly when the tree
    predicts the black-box label of every pooled record. *)
Theorem nary_fidelity_is_agreement_with_black_box (C : Collaborators)
    (self : LOREM) (x : record) (samples : nat) (use_weights : bool)
    (metric : frecord -> frecord -> npfloat R) (runs exemplar_num : nat)
    (prune_tree : bool) (log : list fit_call) :
  merge_mode self -> binary_is (binary self) "binary_from_nari" = false ->
  encdec self = None -> discretize self = None ->
  match snd (explain_instance_stable C self x samples use_weights metric runs
               exemplar_num prune_tree log) with
  | Ok e =>
      let pooled := List.concat (multi_generate C x samples runs) in
      accuracy_score (map (bb_predict C) pooled)
        (map (dt_predict C (dt e)) pooled) None = Ok (fidelity e)
      /\ exists f,
           fidelity e = Fin f
           /\ (0 <= f <= 1)%R
           /\ (f = 1%R
               <-> Forall (fun r => bb_predict C r = dt_predict C (dt e) r) pooled)
  | Err _ => True
  end.
Proof.
  intros [Hbb Hdts] Hnari Henc Hdiscr.
  destruct (explain_instance_stable _ _ _ _ _ _ _ _ _ _) as [log' [e|err]] eqn:H;
    cbn [snd]; [|exact I].
  unfold explain_instance_stable in H.
  bind_inv_as H nb l1 Hgen. bind_inv_as H s l2 Hbuild.
  apply assemble_Ok in H as (Hdt & Hfid & Hbbp & _).
  apply generate_neighbourhoods_Ok in Hgen as (_ & _ & _ & HYb & _ & _ & Hd).
  rewrite Hdiscr in Hd. destruct Hd as (HZ & _).
  eapply build_surrogate_merge_Ok in Hbuild; [|exact Hbb|exact Hdts].
  destruct Hbuild as (_ & _ & _ & dts & l & Hm).
  apply merge_branch_fidelity in Hm as [HsZ Hs]. rewrite Hnari in Hs.
  destruct Hs as [HsY HsF].
  assert (HZl : nb_Z_list nb = multi_generate C x samples runs).
  { rewrite HZ. unfold stage_Z_list, encoded_instance. now rewrite Henc. }
  assert (HYl : List.concat (nb_Yb_list nb)
                = map (bb_predict C) (List.concat (multi_generate C x samples runs))).
  { rewrite HYb. unfold stage_Yb_list, stage_labelled, stage_Z_list, encoded_instance.
    rewrite Henc. symmetry. apply concat_map. }
  rewrite HZl in HsF. rewrite HYl in HsF, HsY.
  cbv zeta. set (pooled := List.concat (multi_generate C x samples runs)) in *.
  assert (Hfe : accuracy_score (map (bb_predict C) pooled)
                  (map (dt_predict C (dt e)) pooled) None = Ok (fidelity e)).
  { rewrite Hfid, Hdt. exact HsF. }
  split; [exact Hfe|].
  assert (Hne : map (bb_predict C) pooled <> []).
  { rewrite HsY in Hbbp. destruct (map (bb_predict C) pooled); [discriminate Hbbp|].
    discriminate. }
  destruct (@accuracy_score_unweighted_spec (map (bb_predict C) pooled)
              (map (dt_predict C (dt e)) pooled)) as (f & Hf & Hrange & Hiff);
    [now rewrite !length_map | exact Hne |].
  exists f. split; [rewrite Hf in Hfe; now injection Hfe|]. split; [exact Hrange|].
  rewrite Hiff. apply map_eq_iff_Forall.
Qed.

Lemma nary_fidelity_is_agreement_with_black_box_witness :
  let C := stumps 3 10 in
  let self := example_lorem None (BinaryBool false) false example_population in
  value_of (snd (explain_instance_stable C self [2] 2 true zero_metric 2 1 false []))
  <> None
  /\ match snd (explain_instance_stable C self [2] 2 true zero_metric 2 1 false []) with
     | Ok e => exists f, fidelity e = Fin f /\ (0 <= f <= 1)%R
     | Err _ => True
     end.
Proof.
  intros C self. split.
  - assert (H : option_map (@dt C)
                  (value_of (snd (explain_instance_stable C self [2] 2 true
                                    zero_metric 2 1 false []))) = Some 10) by reflexivity.
    intros E. rewrite E in H. discriminate H.
  - pose proof (@nary_fidelity_is_agreement_with_black_box C self [2] 2%nat true
                  zero_metric 2%nat 1%nat false [] (conj eq_refl eq_refl)
                  eq_refl eq_refl eq_refl) as H.
    destruct (snd (explain_instance_stable C self [2] 2 true zero_metric 2 1 false []));
      [|exact I].
    destruct H as (_ & f & Hf & Hrange & _). exists f. split; assumption.
Defined.




(** X14. In mode 'binary_from_bb' without an encoder, a call that returns
    has made exactly one fit, and the Explanation's tree, fidelity, [bb_pred]
    and [dt_pred] all come from the data of that fit: the concatenation of
    all (undiscretized) neighbourhoods when a discretizer is configured, the
    last neighbourhood alone otherwise, in both cases labelled by the black
    box. *)
Theorem binary_from_bb_explains_fitted_data (C : Collaborators) (self : LOREM)
    (x : record) (samples : nat) (use_weights : bool)
    (metric : frecord -> frecord -> npfloat R) (runs exemplar_num : nat)
    (prune_tree : bool) (log : list fit_call) :
  binary self = BinaryStr "binary_from_bb" -> encdec self = None ->
  let Z_list := multi_generate C x samples runs in
  match explain_instance_stable C self x samples use_weights metric runs
          exemplar_num prune_tree log with
  | (log', Ok e) =>
      exists Z weights,
        log' = log ++ [FitCall Z (map (bb_predict C) Z) weights None]
        /\ match discretize self with
           | Some _ => Z = List.concat Z_list
           | None => exists earlier, Z_list = earlier ++ [Z]
           end
        /\ dt e = learn_local_decision_tree C Z (map (bb_predict C) Z) weights None
        /\ accuracy_score (map (bb_predict C) Z)
             (map (dt_predict C (dt e)) Z) weights = Ok (fidelity e)
        /\ first (map (bb_predict C) Z) = Ok (bb_pred e)
        /\ first (map (dt_predict C (dt e)) Z) = Ok (dt_pred e)
  | (_, Err _) => True
  end.
Proof.
  intros Hmode Henc. cbv zeta.
  destruct (explain_instance_stable _ _ _ _ _ _ _ _ _ _) as [log' [e|err]] eqn:H;
    [|exact I].
  unfold explain_instance_stable in H.
  bind_inv_as H nb l1 Hgen. bind_inv_as H s l2 Hbuild.
  pose proof (assemble_log _ _ _ _ _ H) as ->.
  apply assemble_Ok in H as (Hdt & Hfid & Hbbp & Hdtp & _).
  apply generate_neighbourhoods_Ok in Hgen as (-> & _ & _ & _ & _ & _ & Hd).
  eapply build_surrogate_bb_Ok in Hbuild; [|rewrite Hmode; reflexivity].
  destruct Hbuild as (Z & Yb & w & HZv & HYv & _ & -> & f & Hf & ->).
  cbn [st_superT st_fidelity st_Z st_Yb] in *. unfold score, predict_batch in Hf.
  assert (HZl : stage_Z_list C self x samples runs = multi_generate C x samples runs)
    by (unfold stage_Z_list, encoded_instance; now rewrite Henc).
  assert (HYl : stage_Yb_list C self x samples runs
                = map (map (bb_predict C)) (multi_generate C x samples runs))
    by (unfold stage_Yb_list, stage_labelled; now rewrite Henc, HZl).
  rewrite HZl, HYl in Hd.
  assert (HYb : Yb = map (bb_predict C) Z
                /\ match discretize self with
                   | Some _ => Z = List.concat (multi_generate C x samples runs)
                   | None => exists earlier, multi_generate C x samples runs = earlier ++ [Z]
                   end).
  { destruct (discretize self) as [d|].
    - destruct Hd as (_ & _ & HZ & HY). rewrite HZv in HZ. rewrite HYv in HY.
      injection HZ as ->. injection HY as ->. split; [|reflexivity].
      symmetry. apply concat_map.
    - destruct Hd as (_ & HZ & HY). rewrite HZv in HZ. rewrite HYv in HY.
      rewrite loop_var_map in HY.
      pose proof (eq_trans HY (eq_sym (f_equal (option_map (map (bb_predict C))) HZ))) as E.
      cbn in E. injection E as ->.
      split; [reflexivity|]. apply loop_var_last. now symmetry. }
  destruct HYb as [-> HZ].
  exists Z, w. split; [reflexivity|]. split; [exact HZ|].
  split; [exact Hdt|]. split; [rewrite Hfid, Hdt; exact Hf|].
  split; [exact Hbbp|]. rewrite Hdt. exact Hdtp.
Qed.

Lemma binary_from_bb_explains_fitted_data_witness :
  let C := stumps 3 3 in
  let self := example_lorem None (BinaryStr "binary_from_bb") false example_population in
  match explain_instance_stable C self [2] 2 false zero_metric 2 1 false [] with
  | (log', Ok e) =>
      exists Z weights,
        log' = [] ++ [FitCall Z (map (bb_predict C) Z) weights None]
        /\ exists earlier, multi_generate C [2] 2 2 = earlier ++ [Z]
  | (_, Err _) => True
  end
  /\ fst (explain_instance_stable C self [2] 2 false zero_metric 2 1 false [])
     = [FitCall [[2]; [4]] [0; 1]%Z None None].
Proof.
  intros C self. split; [|reflexivity].
  pose proof (@binary_from_bb_explains_fitted_data C self [2] 2%nat false zero_metric
                2%nat 1%nat false [] eq_refl eq_refl) as H.
  cbv zeta in H.
  destruct (explain_instance_stable C self [2] 2 false zero_metric 2 1 false [])
    as [log' [e|err]]; [|exact I].
  destruct H as (Z & w & Hlog & HZ & _).
  exists Z, w. split; [exact Hlog | exact HZ].
Defined.

(** ** The exemplar selectors *)

Section SelectorLeafFacts.

Variable C : Collaborators.
Variable self : LOREM.
Variable t : tree C.
Variable x : record.

Lemma in_rows_where (p : leaf -> bool) (population : matrix) (r : record) :
  In r (take_rows population (np_where p (map (dt_apply C t) population))) ->
  In r population /\ p (dt_apply C t r) = true.
Proof.
  unfold take_rows. intros Hin. apply in_map_iff in Hin as (i & <- & Hi).
  apply in_np_where in Hi as (a & Hnth & Hp).
  rewrite nth_error_map in Hnth.
  destruct (nth_error population i) as [r|] eqn:Hr; [|discriminate Hnth].
  cbn in Hnth. injection Hnth as <-.
  rewrite (nth_error_nth _ _ _ Hr). split; [eapply nth_error_In; eassumption | exact Hp].
Qed.

Lemma in_exemplar_partition_leaf (r : record) :
  In r (exemplar_partition C self t x) ->
  In r (reference_population self) /\ dt_apply C t r = dt_apply C t x.
Proof.
  unfold exemplar_partition.
  set (vals := take_rows _ _).
  intros Hin.
  assert (Hv : In r vals)
    by (destruct (contains x vals); [now apply np_delete_where in Hin | exact Hin]).
  apply in_rows_where in Hv as [Hpop Hleaf]. split; [exact Hpop|].
  now apply Z.eqb_eq.
Qed.

Lemma in_cexemplar_partition_leaf (r : record) :
  In r (cexemplar_partition C self t x) ->
  In r (reference_population self) /\ dt_apply C t r <> dt_apply C t x.
Proof.
  unfold cexemplar_partition. intros Hin.
  apply in_rows_where in Hin as [Hpop Hleaf]. split; [exact Hpop|].
  apply negb_true_iff in Hleaf. now apply Z.eqb_neq.
Qed.

End SelectorLeafFacts.

(** X15. Whatever either selector returns comes from the reference
    population; every exemplar lies in the same leaf of the tree as the
    instance and every counter-exemplar in a different leaf, so no record is
    returned on both sides. *)
Theorem selected_records_respect_leaf (C : Collaborators) (self : LOREM)
    (t : tree C) (x : record) (n : nat) :
  let same := fun r => In r (reference_population self)
                       /\ dt_apply C t r = dt_apply C t x in
  let other := fun r => In r (reference_population self)
                        /\ dt_apply C t r <> dt_apply C t x in
  match get_exemplars_cexemplars_binary C self t x n with
  | (ex, cex) =>
      match ex with Some rows => Forall same rows | None => True end
      /\ match cex with Some rows => Forall other rows | None => True end
  end
  /\ Forall same (fst (get_exemplars_cexemplars_supert C self t x n))
  /\ Forall other (snd (get_exemplars_cexemplars_supert C self t x n)).
Proof.
  intros same other.
  assert (Hex : forall m, Forall same (nearest x (exemplar_partition C self t x) m)).
  { intros m. apply Forall_forall. intros r Hr. apply in_nearest in Hr.
    now apply in_exemplar_partition_leaf. }
  assert (Hcex : forall m, Forall other (nearest x (cexemplar_partition C self t x) m)).
  { intros m. apply Forall_forall. intros r Hr. apply in_nearest in Hr.
    now apply in_cexemplar_partition_leaf. }
  split; [|split; [apply Hex | apply Hcex]].
  unfold get_exemplars_cexemplars_binary.
  destruct (_ && _); [split; exact I|].
  destruct (_ =? _)%nat; split; auto.
Qed.

Lemma sorted_prefix_nearest (x : record) (ranked : matrix) (m : nat) :
  StronglySorted (nearer x) ranked ->
  Forall (fun s => Forall (fun r => nearer x r s) (firstn m ranked)) (skipn m ranked).
Proof.
  intros Hs. revert m. induction Hs as [|a l Hs IH Hall]; intros [|m]; cbn.
  - constructor.
  - constructor.
  - apply Forall_forall. intros s _. constructor.
  - specialize (IH m). apply Forall_forall. intros s Hin.
    constructor.
    + rewrite Forall_forall in Hall. apply Hall.
      rewrite <- (firstn_skipn m l). apply in_or_app. now right.
    + rewrite Forall_forall in IH. now apply IH.
Qed.

(** X16. [get_exemplars_cexemplars_supert] returns two sets of the same
    size, the requested [n] cut at the size of the smaller partition; each
    set is in ascending Euclidean distance from the instance and consists of
    the nearest records of its partition: every record of the partition
    left out is at least as far from the instance as every record returned. *)
Theorem supert_selector_returns_nearest (C : Collaborators) (self : LOREM)
    (t : tree C) (x : record) (n : nat) :
  let ex := exemplar_partition C self t x in
  let cex := cexemplar_partition C self t x in
  let res := get_exemplars_cexemplars_supert C self t x n in
  let m := Nat.min n (Nat.min (List.length ex) (List.length cex)) in
  List.length (fst res) = m /\ List.length (snd res) = m
  /\ StronglySorted (nearer x) (fst res) /\ StronglySorted (nearer x) (snd res)
  /\ (exists left_out, Permutation (fst res ++ left_out) ex
        /\ Forall (fun s => Forall (fun r => nearer x r s) (fst res)) left_out)
  /\ (exists left_out, Permutation (snd res ++ left_out) cex
        /\ Forall (fun s => Forall (fun r => nearer x r s) (snd res)) left_out).
Proof.
  intros ex cex res m.
  set (k := if (List.length ex <? n)%nat || (List.length cex <? n)%nat
            then Nat.min (List.length cex) (List.length ex) else n).
  assert (Hk : k = m).
  { subst k m. destruct (Nat.ltb_spec (List.length ex) n),
      (Nat.ltb_spec (List.length cex) n); cbn; lia. }
  assert (Hres : res = (nearest x ex k, nearest x cex k)) by reflexivity.
  destruct (nearest_is_sorted_prefix x ex k) as (rex & Hpe & Hse & He).
  destruct (nearest_is_sorted_prefix x cex k) as (rcex & Hpc & Hsc & Hc).
  rewrite Hres. cbn [fst snd]. rewrite He, Hc.
  split; [rewrite length_firstn, (Permutation_length Hpe); lia|].
  split; [rewrite length_firstn, (Permutation_length Hpc); lia|].
  split; [now apply StronglySorted_firstn|].
  split; [now apply StronglySorted_firstn|].
  split.
  - exists (skipn k rex). split; [now rewrite firstn_skipn|].
    now apply sorted_prefix_nearest.
  - exists (skipn k rcex). split; [now rewrite firstn_skipn|].
    now apply sorted_prefix_nearest.
Qed.

Lemma nearest_all (x : record) (vals : matrix) :
  Permutation (nearest x vals (List.length vals)) vals
  /\ StronglySorted (nearer x) (nearest x vals (List.length vals)).
Proof.
  destruct (nearest_is_sorted_prefix x vals (List.length vals)) as (r & Hp & Hs & ->).
  rewrite <- (Permutation_length Hp), firstn_all. auto.
Qed.

(** X17. [get_exemplars_cexemplars_binary] does not depend on the requested
    count [n].  It returns nothing on either side when both partitions are
    empty; the whole counter-exemplar partition, nearest first, when only
    the exemplar partition is empty; and otherwise the whole exemplar
    partition, nearest first, with no counter-exemplars. *)
Theorem binary_selector_ignores_requested_count (C : Collaborators)
    (self : LOREM) (t : tree C) (x : record) (n : nat) :
  let ex := exemplar_partition C self t x in
  let cex := cexemplar_partition C self t x in
  get_exemplars_cexemplars_binary C self t x n
  = get_exemplars_cexemplars_binary C self t x 0
  /\ match get_exemplars_cexemplars_binary C self t x n with
     | (None, None) => ex = [] /\ cex = []
     | (None, Some rows) =>
         ex = [] /\ cex <> [] /\ Permutation rows cex /\ StronglySorted (nearer x) rows
     | (Some rows, None) =>
         ex <> [] /\ Permutation rows ex /\ StronglySorted (nearer x) rows
     | (Some _, Some _) => False
     end.
Proof.
  intros ex cex. split; [reflexivity|].
  unfold get_exemplars_cexemplars_binary. fold ex cex.
  destruct ex as [|e0 ex']; destruct cex as [|c0 cex']; cbn [List.length Nat.eqb andb].
  - auto.
  - destruct (nearest_all x (c0 :: cex')) as [Hp Hs].
    split; [reflexivity|]. split; [discriminate|]. split; assumption.
  - destruct (nearest_all x (e0 :: ex')) as [Hp Hs].
    split; [discriminate|]. split; assumption.
  - destruct (nearest_all x (e0 :: ex')) as [Hp Hs].
    split; [discriminate|]. split; assumption.
Qed.

(** ** The dispatcher: joins and edge cases *)

Lemma firstn_seq_min (n a m : nat) : firstn n (seq a m) = seq a (Nat.min n m).
Proof.
  revert a m. induction n as [|n IH]; intros a [|m]; cbn; try reflexivity.
  now rewrite IH.
Qed.

(** X18. Over [N >= 1] instances and [W >= 1] workers, the workers joined
    are the first [W - 1] of the workers started, at most; the call returns
    normally exactly when at least [W - 1] workers were started, and it
    returns normally with every started worker joined exactly when
    [W - 1] workers were started. *)
Theorem dispatcher_joins_all_iff_one_worker_spare A (X : list A) (n_workers : nat) :
  (1 <= List.length X)%nat -> (1 <= n_workers)%nat ->
  let r := explain_set_instances_stable X n_workers in
  let started := started_workers (fst r) in
  joined_workers (fst r) = firstn (n_workers - 1) started
  /\ (snd r = Ok tt <-> (n_workers - 1 <= List.length started)%nat)
  /\ (snd r = Ok tt /\ joined_workers (fst r) = started
      <-> List.length started = (n_workers - 1)%nat).
Proof.
  intros HN HW r started.
  destruct (dispatcher_joins_first_workers X HN HW) as [Hj Hr].
  fold r in Hj, Hr. fold started in Hj, Hr.
  assert (Hs : started = seq 0 (List.length started)).
  { pose proof (items_for_worker_pos X HN HW) as Hc.
    pose proof (items_for_worker_covers X HW) as Hcov.
    set (c := items_for_worker (List.length X) n_workers) in *.
    assert (Hreach : (List.length X <= 0 + n_workers * c)%nat) by lia.
    destruct (dispatch_loop_tiles X n_workers (step := c) n_workers 0 (start := 0)
                Hc HN Hreach) as (_ & _ & Hidx & Hw & _).
    cbn [Nat.add] in Hidx, Hw.
    assert (Hst : started = map fst (fst (dispatch_loop X n_workers c n_workers 0 0 c))).
    { subst started r. unfold explain_set_instances_stable.
      destruct n_workers as [|w]; [lia|]. fold c. rewrite Hw. cbn [fst].
      apply started_workers_trace, join_loop_only_joins. }
    rewrite Hst at 1. rewrite Hidx. now rewrite Hst, length_map. }
  assert (Hpre : joined_workers (fst r) = firstn (n_workers - 1) started).
  { rewrite Hj. rewrite Hs at 2. now rewrite firstn_seq_min. }
  split; [exact Hpre|]. split; [exact Hr|].
  rewrite Hr. split.
  - intros [Hle Heq]. rewrite Hpre in Heq.
    apply (f_equal (@List.length nat)) in Heq. rewrite length_firstn in Heq. lia.
  - intros Hk. split; [lia|]. rewrite Hpre, <- Hk. apply firstn_all.
Qed.

Lemma dispatcher_joins_all_iff_one_worker_spare_witness :
  let r := explain_set_instances_stable [1; 2; 3; 4; 5]%nat 4 in
  started_workers (fst r) = [0; 1; 2]%nat
  /\ (snd r = Ok tt /\ joined_workers (fst r) = started_workers (fst r)
      <-> List.length (started_workers (fst r)) = (4 - 1)%nat).
Proof.
  split; [reflexivity|].
  apply (@dispatcher_joins_all_iff_one_worker_spare nat [1; 2; 3; 4; 5]%nat 4%nat);
    cbn; lia.
Defined.

Lemma join_loop_one_process A (p : nat * list A) (w : nat) :
  join_loop [(0%nat, snd p)] (seq 0 w)
  = (map (@Joined A) (seq 0 (Nat.min w 1)),
     if (w <=? 1)%nat then Ok tt else Err IndexError).
Proof.
  destruct w as [|[|w]]; reflexivity.
Qed.

(** X19. Two edge cases of the dispatcher.  With [n_workers = 0] it raises
    [ZeroDivisionError] before starting anything.  With an empty collection
    and [W >= 1] workers it still starts worker 0, on an empty chunk; it then
    returns normally for [W <= 2] (joining worker 0 only for [W = 2]) and
    raises [IndexError] for [W >= 3], after joining worker 0. *)
Theorem dispatcher_edge_cases A (X : list A) (w : nat) :
  explain_set_instances_stable X 0 = ([], Err ZeroDivisionError)
  /\ explain_set_instances_stable (@nil A) (S w)
     = (Started 0 [] :: map (@Joined A) (seq 0 (Nat.min w 1)),
        if (w <=? 1)%nat then Ok tt else Err IndexError).
Proof.
  split; [reflexivity|].
  unfold explain_set_instances_stable. cbn [List.length].
  assert (Hstep : items_for_worker 0 (S w) = 0%nat).
  { unfold items_for_worker. apply Nat.div_small. lia. }
  rewrite Hstep. cbn [dispatch_loop List.length slice Nat.sub skipn firstn].
  cbn [Z.of_nat Z.sub Z.ltb Z.compare Z.opp Z.add fst snd map].
  change (Z.pos_sub 1 1) with 0%Z. cbn [Z.ltb Z.compare fst snd map].
  rewrite Nat.sub_0_r.
  pose proof (@join_loop_one_process A (0%nat, []) w) as Hj. cbn [snd] in Hj.
  rewrite Hj. reflexivity.
Qed.

(** ** The worker and its output file *)

Lemma string_append_cancel_l (s a b : string) :
  (s ++ a = s ++ b)%string -> a = b.
Proof.
  induction s as [|c s IH]; cbn; [auto|]. intros [= H]. auto.
Qed.

Lemma string_length_append (a b : string) :
  String.length (a ++ b) = (String.length a + String.length b)%nat.
Proof.
  induction a as [|c a IH]; cbn; [reflexivity|]. now rewrite IH.
Qed.

Lemma string_append_cancel_r (a b c : string) :
  (a ++ c = b ++ c)%string -> a = b.
Proof.
  revert b. induction a as [|x a IH]; intros [|y b] H; cbn in H.
  - reflexivity.
  - apply (f_equal String.length) in H. cbn in H.
    rewrite string_length_append in H. lia.
  - apply (f_equal String.length) in H. cbn in H.
    rewrite string_length_append in H. lia.
  - injection H as -> H. f_equal. auto.
Qed.

(** Decimal numerals hold no underscore. *)
Lemma numeral_without_underscore (d : Decimal.uint) (tail : string) :
  (forall s1 s2, tail <> s1 ++ "_" ++ s2)%string ->
  (forall s1 s2, NilEmpty.string_of_uint d ++ tail <> s1 ++ "_" ++ s2)%string.
Proof.
  intros Ht. induction d as [|d IH|d IH|d IH|d IH|d IH|d IH|d IH|d IH|d IH|d IH];
    cbn [NilEmpty.string_of_uint String.append]; [exact Ht|..];
    (intros [|c s1] s2; cbn [String.append]; intros H;
     [discriminate H | injection H as _ H; exact (IH _ _ H)]).
Qed.

Lemma extension_without_underscore (s1 s2 : string) :
  (".p" <> s1 ++ "_" ++ s2)%string.
Proof.
  destruct s1 as [|c1 [|c2 [|c3 s1]]]; cbn; discriminate.
Qed.

Lemma str_inj (i j : nat) : str i = str j -> i = j.
Proof.
  unfold str. intros H.
  apply (f_equal NilEmpty.uint_of_string) in H. rewrite !NilEmpty.usu in H.
  injection H as H. now apply DecimalNat.Unsigned.to_uint_inj.
Qed.

(** The last underscore of a file name separates the title from the index. *)
Lemma last_underscore_splits (t t' a b : string) :
  (forall s1 s2, a <> s1 ++ "_" ++ s2)%string ->
  (forall s1 s2, b <> s1 ++ "_" ++ s2)%string ->
  (t ++ "_" ++ a = t' ++ "_" ++ b)%string -> t = t' /\ a = b.
Proof.
  intros Ha Hb. revert t'. induction t as [|c t IH]; intros [|c' t'] H;
    cbn [String.append] in H.
  - injection H as H. auto.
  - injection H as _ H. exfalso. exact (Ha _ _ H).
  - injection H as _ H. exfalso. exact (Hb _ _ (eq_sym H)).
  - injection H as -> H. destruct (IH _ H) as [-> ->]. auto.
Qed.

Lemma worker_title_inj (title title' : string) (i j : nat) :
  worker_title title i = worker_title title' j -> title = title' /\ i = j.
Proof.
  unfold worker_title. intros H.
  apply string_append_cancel_l in H.
  apply last_underscore_splits in H.
  - destruct H as [-> H]. apply string_append_cancel_r in H.
    split; [reflexivity | now apply str_inj].
  - apply numeral_without_underscore, extension_without_underscore.
  - apply numeral_without_underscore, extension_without_underscore.
Qed.

(** X20. The file a worker writes determines the batch title and the worker
    index: two workers write the same file only if they have the same title
    and the same index, although titles may themselves hold underscores and
    digits. *)
Theorem worker_file_determines_title_and_index (title title' : string) (i j : nat) :
  worker_title title i = worker_title title' j <-> title = title' /\ i = j.
Proof.
  split; [apply worker_title_inj | now intros [-> ->]].
Qed.

Lemma mapM_Ok_pointwise {A B} (f : A -> M B) (l : list A) :
  forall log log' rs,
    mapM f l log = (log', Ok rs) ->
    Forall2 (fun a r => exists l1 l2, f a l1 = (l2, Ok r)) l rs.
Proof.
  induction l as [|a l IH]; intros log log' rs H; cbn [mapM] in H.
  - apply ret_Ok in H as [<- _]. constructor.
  - bind_inv_as H b l1 Hb. bind_inv_as H bs l2 Hbs.
    apply ret_Ok in H as [<- _]. constructor; eauto.
Qed.

Lemma mapM_Err_source {A B} (f : A -> M B) (l : list A) :
  forall log log' e,
    mapM f l log = (log', Err e) ->
    exists a l1 l2, In a l /\ f a l1 = (l2, Err e).
Proof.
  induction l as [|a l IH]; intros log log' e H; cbn [mapM] in H.
  - discriminate.
  - unfold bind at 1 in H. destruct (f a log) as [l1 [b|e1]] eqn:Hb.
    + unfold bind at 1 in H. destruct (mapM f l l1) as [l2 [bs|e2]] eqn:Hbs.
      * discriminate.
      * injection H as _ <-. destruct (IH _ _ _ Hbs) as (a' & k1 & k2 & Hin & Hf).
        exists a', k1, k2. split; [now right | exact Hf].
    + injection H as _ <-. exists a, log, l1. split; [now left | exact Hb].
Qed.

Section WorkerFacts.

Variable C : Collaborators.
Variable self : LOREM.
Variable title : string.
Variable n_samples : nat.
Variable use_weights : bool.
Variable metric : frecord -> frecord -> npfloat R.
Variables runs exemplar_num : nat.

Lemma explain_dataset_Ok (dataset : list record) (log log' : list fit_call)
    (results : batch C) :
  explain_dataset C self dataset n_samples use_weights metric runs exemplar_num log
  = (log', Ok results) ->
  map fst results = dataset
  /\ Forall (fun de : record * Explanation C => exists l1 l2,
               explain_instance_stable C self (fst de) n_samples use_weights
                 metric runs exemplar_num false l1 = (l2, Ok (snd de))) results.
Proof.
  unfold explain_dataset. intros H. apply mapM_Ok_pointwise in H.
  induction H as [|d de dataset results (l1 & l2 & Hd) _ IH]; cbn [map].
  - split; constructor.
  - bind_inv_as Hd exp l3 Hexp. apply ret_Ok in Hd as [<- <-].
    destruct IH as [-> IH]. split; [reflexivity|].
    constructor; [|exact IH]. exists l1, l3. exact Hexp.
Qed.

Lemma explain_dataset_Err (dataset : list record) (log log' : list fit_call) (e : exn) :
  explain_dataset C self dataset n_samples use_weights metric runs exemplar_num log
  = (log', Err e) ->
  exists d l1 l2,
    In d dataset
    /\ explain_instance_stable C self d n_samples use_weights metric runs
         exemplar_num false l1 = (l2, Err e).
Proof.
  unfold explain_dataset. intros H. apply mapM_Err_source in H.
  destruct H as (d & l1 & l2 & Hin & H). exists d, l1. unfold bind in H.
  destruct (explain_instance_stable C self d n_samples use_weights metric runs
              exemplar_num false l1) as [l3 [exp|e1]]; [discriminate|].
  injection H as <- <-. eauto.
Qed.

Lemma pickle_append_same (fs : files C) (name : string) (b : batch C) :
  pickle_append fs name b name = fs name ++ [b].
Proof. unfold pickle_append. now rewrite String.eqb_refl. Qed.

Lemma pickle_append_other (fs : files C) (name name' : string) (b : batch C) :
  name' <> name -> pickle_append fs name b name' = fs name'.
Proof.
  intros Hne. unfold pickle_append.
  destruct (String.eqb_spec name' name); [contradiction | reflexivity].
Qed.

(** X21. A worker writes all or nothing.  When one explanation of its chunk
    raises, the worker ends with that exception and no file has changed.
    Otherwise it appends exactly one object to its own file and touches no
    other file; the object lists the instances of the chunk in order, each
    paired with an Explanation that [explain_instance_stable] returned for
    it. *)
Theorem worker_writes_all_or_nothing (i : nat) (dataset : list record)
    (fs : files C) (log : list fit_call) :
  match explain_workers_stable self i dataset title n_samples use_weights metric
          runs exemplar_num fs log with
  | (fs', (_, Ok _)) =>
      exists results : batch C,
        fs' (worker_title title i) = fs (worker_title title i) ++ [results]
        /\ (forall name, name <> worker_title title i -> fs' name = fs name)
        /\ map fst results = dataset
        /\ Forall (fun de : record * Explanation C => exists l1 l2,
                     explain_instance_stable C self (fst de) n_samples use_weights
                       metric runs exemplar_num false l1 = (l2, Ok (snd de))) results
  | (fs', (_, Err e)) =>
      fs' = fs
      /\ exists d l1 l2,
           In d dataset
           /\ explain_instance_stable C self d n_samples use_weights metric runs
                exemplar_num false l1 = (l2, Err e)
  end.
Proof.
  unfold explain_workers_stable.
  destruct (explain_dataset C self dataset n_samples use_weights metric runs
              exemplar_num log) as [log' [results|e]] eqn:H.
  - destruct (explain_dataset_Ok _ _ H) as [Hfst Hall].
    exists results. split; [apply pickle_append_same|].
    split; [intros name Hne; now apply pickle_append_other|].
    split; assumption.
  - split; [reflexivity|]. exact (explain_dataset_Err _ _ H).
Qed.

End WorkerFacts.

(** ** A whole batch: dispatcher and workers together *)

Lemma Forall2_impl_In {A B} (P Q : A -> B -> Prop) (l : list A) (l' : list B) :
  (forall a b, In a l -> P a b -> Q a b) -> Forall2 P l l' -> Forall2 Q l l'.
Proof.
  intros HPQ H. induction H as [|a b l l' Hab _ IH]; constructor.
  - apply HPQ; [now left | exact Hab].
  - apply IH. intros a' b' Hin. apply HPQ. now right.
Qed.

Lemma Forall2_map_left {A A' B} (f : A -> A') (P : A' -> B -> Prop)
    (l : list A) (l' : list B) :
  Forall2 (fun a b => P (f a) b) l l' -> Forall2 P (map f l) l'.
Proof.
  intros H. induction H; cbn; constructor; assumption.
Qed.

Section BatchFacts.

Variable C : Collaborators.
Variable self : LOREM.
Variable title : string.
Variable n_samples : nat.
Variable use_weights : bool.
Variable metric : frecord -> frecord -> npfloat R.
Variables runs exemplar_num : nat.

Local Abbreviation worker_step :=
  (fun (fs : files C) (e : event record) =>
     match e with
     | Started i dataset =>
         fst (explain_workers_stable self i dataset title n_samples
                use_weights metric runs exemplar_num fs [])
     | Joined _ => fs
     end).

Lemma joins_write_nothing (js : list (event record)) (fs : files C) :
  (forall e, In e js -> exists i, e = Joined i) ->
  fold_left worker_step js fs = fs.
Proof.
  induction js as [|e js IH]; intros Hjs; cbn [fold_left]; [reflexivity|].
  destruct (Hjs e (or_introl eq_refl)) as [i ->].
  apply IH. intros e He. apply Hjs. now right.
Qed.

(** Workers with distinct indices whose loops all succeed: each appends its
    batch to its own file, and no other file changes. *)
Lemma workers_write_own_files (procs : list (nat * list record)) :
  NoDup (map fst procs) ->
  (forall p, In p procs ->
     value_of (snd (explain_dataset C self (snd p) n_samples use_weights metric
                      runs exemplar_num [])) <> None) ->
  forall fs : files C,
    let fs' := fold_left worker_step
                 (map (fun p => Started (fst p) (snd p)) procs) fs in
    exists batches : list (batch C),
      Forall2 (fun p b => map fst b = snd p
                          /\ fs' (worker_title title (fst p))
                             = fs (worker_title title (fst p)) ++ [b])
              procs batches
      /\ (forall name,
            (forall p, In p procs -> name <> worker_title title (fst p)) ->
            fs' name = fs name).
Proof.
  induction procs as [|p procs IH]; intros Hnd Hok fs; cbn zeta.
  - exists []. split; [constructor | reflexivity].
  - cbn [map fold_left]. cbn [map] in Hnd.
    apply NoDup_cons_iff in Hnd as [Hfresh Hnd].
    assert (Hex : exists rs : batch C,
              fst (explain_workers_stable self (fst p) (snd p) title n_samples
                     use_weights metric runs exemplar_num fs [])
              = pickle_append fs (worker_title title (fst p)) rs
              /\ map fst rs = snd p).
    { pose proof (Hok p (or_introl eq_refl)) as Hp.
      unfold explain_workers_stable.
      destruct (explain_dataset C self (snd p) n_samples use_weights metric runs
                  exemplar_num []) as [log' [rs|e]] eqn:Hd;
        [|exfalso; apply Hp; reflexivity].
      exists rs. split; [reflexivity|].
      eapply explain_dataset_Ok in Hd. exact (proj1 Hd). }
    destruct Hex as (rs & Hstep & Hrs). rewrite Hstep.
    destruct (IH Hnd (fun q Hq => Hok q (or_intror Hq))
                (pickle_append fs (worker_title title (fst p)) rs))
      as (batches & HF & Hother).
    cbv zeta in HF, Hother.
    assert (Hdistinct : forall q, In q procs ->
              worker_title title (fst p) <> worker_title title (fst q)).
    { intros q Hq Heq. apply worker_title_inj in Heq as [_ Heq].
      apply Hfresh. rewrite Heq. now apply in_map. }
    exists (rs :: batches). split.
    + constructor.
      * split; [exact Hrs|].
        eapply eq_trans; [exact (Hother _ Hdistinct)|]. apply pickle_append_same.
      * revert HF. apply Forall2_impl_In. intros q b Hq [Hfst Hfile].
        split; [exact Hfst|]. eapply eq_trans; [exact Hfile|]. f_equal.
        apply pickle_append_other.
        intros Heq. exact (Hdistinct q Hq (eq_sym Heq)).
    + intros name Hname. eapply eq_trans.
      * apply Hother. intros q Hq. apply Hname. now right.
      * apply pickle_append_other. apply Hname. now left.
Qed.

(** X22. A batch over [N >= 1] instances and [W >= 1] workers in which the
    loop of every started worker succeeds: each started worker appends
    exactly one object to its own file, the instances recorded in these
    objects, read in worker order, are exactly [X] (each instance once, in
    order), and no other file changes. *)
Theorem batch_files_hold_every_instance (X : list record) (n_workers : nat)
    (fs : files C) :
  (1 <= List.length X)%nat -> (1 <= n_workers)%nat ->
  (forall i chunk,
     In (Started i chunk) (fst (explain_set_instances_stable X n_workers)) ->
     value_of (snd (explain_dataset C self chunk n_samples use_weights metric
                      runs exemplar_num [])) <> None) ->
  let started := started_workers (fst (explain_set_instances_stable X n_workers)) in
  let fs' := files_after_batch self X n_workers title n_samples use_weights
               metric runs exemplar_num fs in
  exists batches : list (batch C),
    Forall2 (fun w b => fs' (worker_title title w)
                        = fs (worker_title title w) ++ [b]) started batches
    /\ List.concat (map (map fst) batches) = X
    /\ (forall name,
          (forall w, In w started -> name <> worker_title title w) ->
          fs' name = fs name).
Proof.
  intros HN HW Hok started fs'.
  pose proof (items_for_worker_pos X HN HW) as Hc.
  pose proof (items_for_worker_covers X HW) as Hcov.
  set (c := items_for_worker (List.length X) n_workers) in *.
  assert (Hreach : (List.length X <= 0 + n_workers * c)%nat) by lia.
  destruct (dispatch_loop_tiles X n_workers (step := c) n_workers 0 (start := 0)
              Hc HN Hreach) as (Hcat & _ & Hidx & Hw & _).
  cbn [Nat.add skipn] in Hcat, Hidx, Hw.
  set (procs := fst (dispatch_loop X n_workers c n_workers 0 0 c)) in *.
  set (js := fst (join_loop procs (seq 0 (n_workers - 1)))).
  assert (Htr : fst (explain_set_instances_stable X n_workers)
                = map (fun p => Started (fst p) (snd p)) procs ++ js).
  { unfold explain_set_instances_stable.
    destruct n_workers as [|w]; [lia|]. fold c. rewrite Hw. reflexivity. }
  assert (Hjs : forall e, In e js -> exists i, e = Joined i)
    by apply join_loop_only_joins.
  assert (Hst : started = map fst procs).
  { subst started. rewrite Htr. now apply started_workers_trace. }
  assert (Hfs : fs' = fold_left worker_step
                        (map (fun p => Started (fst p) (snd p)) procs) fs).
  { subst fs'. unfold files_after_batch. rewrite Htr, fold_left_app.
    now apply joins_write_nothing. }
  assert (Hnd : NoDup (map fst procs)) by (rewrite Hidx; apply seq_NoDup).
  assert (Hok' : forall p, In p procs ->
            value_of (snd (explain_dataset C self (snd p) n_samples use_weights
                             metric runs exemplar_num [])) <> None).
  { intros p Hp. apply (Hok (fst p)). rewrite Htr. apply in_or_app. left.
    apply in_map_iff. exists p. split; [reflexivity | exact Hp]. }
  destruct (@workers_write_own_files procs Hnd Hok' fs) as (batches & HF & Hother).
  cbv zeta in HF, Hother. rewrite <- Hfs in HF, Hother.
  exists batches. split; [|split].
  - rewrite Hst. apply Forall2_map_left.
    revert HF. apply Forall2_impl_In. intros p b _ [_ H]. exact H.
  - rewrite <- Hcat. clear - HF.
    induction HF as [|p b l l' [Hb _] _ IH]; cbn; [reflexivity|].
    now rewrite Hb, IH.
  - intros name Hname. apply Hother. intros p Hp. apply Hname.
    rewrite Hst. now apply in_map.
Qed.

End BatchFacts.

Lemma batch_files_hold_every_instance_witness :
  let C := stumps 3 3 in
  let self := example_lorem None (BinaryStr "binary_from_dts") false example_population in
  let X := [[2]; [3]; [4]] in
  let fs' := files_after_batch (C := C) self X 2 "_run" 2 false zero_metric 2 1
               (fun _ => []) in
  started_workers (fst (explain_set_instances_stable X 2)) = [0; 1]%nat
  /\ exists batches : list (batch C),
       Forall2 (fun w b => fs' (worker_title "_run" w) = [] ++ [b]) [0; 1]%nat batches
       /\ List.concat (map (map fst) batches) = X.
Proof.
  intros C self X fs'. split; [reflexivity|].
  assert (H1 : (1 <= List.length X)%nat) by (cbn; lia).
  assert (H2 : (1 <= 2)%nat) by lia.
  assert (Hok : forall i chunk,
            In (Started i chunk) (fst (explain_set_instances_stable X 2)) ->
            value_of (snd (explain_dataset C self chunk 2 false zero_metric 2 1 []))
            <> None).
  { intros i chunk Hin.
    change (In (Started i chunk)
              [Started 0 [[2]; [3]]; Started 1 [[4]]; Joined 0]) in Hin.
    destruct Hin as [H|[H|[H|[]]]]; try discriminate H; injection H as <- <-.
    - assert (E : option_map (map fst)
                    (value_of (snd (explain_dataset C self [[2]; [3]] 2 false
                                      zero_metric 2 1 [])))
                  = Some [[2]; [3]]) by reflexivity.
      intros Hn. rewrite Hn in E. discriminate E.
    - assert (E : option_map (map fst)
                    (value_of (snd (explain_dataset C self [[4]] 2 false
                                      zero_metric 2 1 [])))
                  = Some [[4]]) by reflexivity.
      intros Hn. rewrite Hn in E. discriminate E. }
  destruct (@batch_files_hold_every_instance C self "_run" 2%nat false zero_metric
              2%nat 1%nat X 2%nat (fun _ => []) H1 H2 Hok)
    as (batches & HF & Hcat & _).
  exists batches. split; [exact HF | exact Hcat].
Defined.
